(** * ymzhao-utils: the deep-copy and structural-equality functions

    A shallow embedding of [mTypeof], [deepCopy], [deepCopy1] and
    [isObjectEqual] of [src/index.js], over an explicit JavaScript heap,
    and of [getType], [throttle], [distinctArray] and [formatMoneyReg].

    Scope of the model.
    - A value is a primitive or a reference to a heap object; object
      identity is the heap location.
    - An object has a prototype, internal slots and an ordered list of own
      data properties with their attributes.  Accessor properties (getters
      and setters run arbitrary code) are outside the model.
    - The realm is pristine: built-in methods ([map], [forEach], [every],
      [getTime], ...) are the built-in ones and are not shadowed by own
      properties.  Where the behaviour of the program depends on something
      the model does not represent (a dangling location, a property found
      on a built-in prototype, a prototype rebound to a heap object) the
      outcome is [Unmodelled]; nothing is proved from such runs.
    - The module is an ES module, hence strict code: a write to a
      non-writable property throws a [TypeError].
    - A string is a sequence of code units below 256 (the Latin-1 range),
      one [ascii] each.
    - Recursion is bounded by fuel.  A run that needs more than any fuel is
      a run that never returns (in an engine: the call stack overflows). *)

From Stdlib Require Import ZArith Ascii String List Lia.
From Stdlib Require Import Floats.SpecFloat.
From stdpp Require Import base list strings option pretty.

Local Open Scope string_scope.
Local Open Scope list_scope.

(** ** Values and heap objects *)

(** A JavaScript number is an IEEE 754 double. *)
Definition number := spec_float.

Definition number_of_nat (n : nat) : number :=
  binary_normalize 53 1024 (Z.of_nat n) 0 false.

(** A heap location. *)
Abbreviation loc := nat (only parsing).

Inductive value :=
| VUndefined
| VNull
| VBoolean (b : bool)
| VNumber (n : number)
| VString (s : string)
| VRef (l : loc).

Inductive key :=
| KString (s : string)
| KSymbol (id : nat).

Definition key_eqb (a b : key) : bool :=
  match a, b with
  | KString x, KString y => String.eqb x y
  | KSymbol x, KSymbol y => Nat.eqb x y
  | _, _ => false
  end.

(** A data property descriptor. *)
Record property := Property {
  p_value : value;
  p_writable : bool;
  p_enumerable : bool;
  p_configurable : bool
}.

(** What the program can observe of a prototype chain: which built-in
    prototype it ends in.  [OtherPrototype] stands for the prototype of a
    user class or of a built-in the program has no case for; it carries the
    [Symbol.toStringTag] found on the chain, if any.  [ElementPrototype]
    stands for a chain through [Element.prototype], as that of a DOM
    element; it carries the [Symbol.toStringTag] found on the chain, which
    is the name of the interface (["HTMLDivElement"]). *)
Inductive prototype :=
| ObjectPrototype
| ArrayPrototype
| FunctionPrototype
| DatePrototype
| RegExpPrototype
| MapPrototype
| SetPrototype
| WeakMapPrototype
| StringPrototype
| NumberPrototype
| BooleanPrototype
| ElementPrototype (toStringTag : option string)
| NullPrototype
| OtherPrototype (toStringTag : option string).

(** Internal slots.  The elements of an exotic array live here ([None] is a
    hole), its other own properties in [o_props].  [SRegExpMatcher] holds
    the text returned by the [source] and [flags] getters. *)
Inductive slots :=
| SOrdinary
| SArray (elements : list (option value))
| SCallable
| SDateValue (t : number)
| SRegExpMatcher (source flags : string)
| SMapData (entries : list (value * value))
| SSetData (elements : list value)
| SWeakMapData (entries : list (loc * value)).

(** Own properties are kept in [Reflect.ownKeys] order. *)
Record object := Obj {
  o_proto : prototype;
  o_slots : slots;
  o_props : list (key * property)
}.

(** The heap: the object at location [l] is [h !! l]; allocation appends. *)
Abbreviation heap := (list object) (only parsing).

(** ** Outcomes *)

Inductive failure :=
| TypeError
| OutOfFuel
| Unmodelled.

Inductive outcome (A : Type) :=
| Return (a : A)
| Fail (f : failure).
Arguments Return {A} a.
Arguments Fail {A} f.

#[global] Instance outcome_ret : MRet outcome := @Return.
#[global] Instance outcome_bind : MBind outcome := fun A B f m =>
  match m with
  | Return a => f a
  | Fail e => Fail e
  end.

(** A computation on the heap: it returns the heap it leaves behind, also
    when it throws. *)
Definition M (A : Type) : Type := heap -> heap * outcome A.

#[global] Instance M_ret : MRet M := fun A a h => (h, Return a).
#[global] Instance M_bind : MBind M := fun A B f m h =>
  match m h with
  | (h', Return a) => f a h'
  | (h', Fail e) => (h', Fail e)
  end.

Definition fail {A} (e : failure) : M A := fun h => (h, Fail e).

(** A read of the heap, run inside [M]. *)
Definition reading {A} (r : heap -> outcome A) : M A := fun h => (h, r h).

Definition alloc (o : object) : M loc := fun h => (h ++ [o], Return (length h)).

Definition lookup_object (l : loc) (h : heap) : outcome object :=
  match h !! l with
  | Some o => Return o
  | None => Fail Unmodelled
  end.

Definition store (l : loc) (o : object) : M unit :=
  fun h => (<[l := o]> h, Return tt).

(** Built-in iteration ([map], [reduce], [forEach], [for ... of]): the
    callback runs on each item in order and a throw ends the loop. *)
Fixpoint iterate {A} (body : A -> M unit) (items : list A) : M unit :=
  match items with
  | [] => mret tt
  | a :: rest => body a ≫= fun _ => iterate body rest
  end.

(** [Array.prototype.every] with a callback that reads the heap. *)
Fixpoint every {A} (f : A -> outcome bool) (items : list A) : outcome bool :=
  match items with
  | [] => Return true
  | a :: rest =>
      match f a with
      | Return true => every f rest
      | Return false => Return false
      | Fail e => Fail e
      end
  end.

(** ** Primitive operations of the language *)

(** [a === b] *)
Definition strict_equal (a b : value) : bool :=
  match a, b with
  | VUndefined, VUndefined => true
  | VNull, VNull => true
  | VBoolean x, VBoolean y => Bool.eqb x y
  | VNumber x, VNumber y => SFeqb x y
  | VString x, VString y => String.eqb x y
  | VRef x, VRef y => Nat.eqb x y
  | _, _ => false
  end.

(** SameValueZero, the key comparison of [Map] and [Set]. *)
Definition same_value_zero (a b : value) : bool :=
  match a, b with
  | VNumber S754_nan, VNumber S754_nan => true
  | _, _ => strict_equal a b
  end.

(** ToBoolean *)
Definition to_boolean (v : value) : bool :=
  match v with
  | VUndefined | VNull => false
  | VBoolean b => b
  | VNumber (S754_zero _) | VNumber S754_nan => false
  | VNumber _ => true
  | VString s => negb (String.eqb s "")
  | VRef _ => true
  end.

Definition is_callable (o : object) : bool :=
  match o_slots o with
  | SCallable => true
  | _ => false
  end.

(** [typeof v] *)
Definition typeof (v : value) (h : heap) : outcome string :=
  match v with
  | VUndefined => Return "undefined"
  | VNull => Return "object"
  | VBoolean _ => Return "boolean"
  | VNumber _ => Return "number"
  | VString _ => Return "string"
  | VRef l =>
      o ← lookup_object l h;
      Return (if is_callable o then "function" else "object")
  end.

(** [toLowerCase] on a code unit below 256: the letters [A] to [Z], and
    the letters from U+00C0 to U+00DE (the multiplication sign U+00D7 is
    none), have their lower case 32 places further. *)
Definition toLowerCase_ascii (c : ascii) : ascii :=
  let n := Ascii.nat_of_ascii c in
  if ((65 <=? n)%nat && (n <=? 90)%nat)
     || ((192 <=? n)%nat && (n <=? 222)%nat && negb (n =? 215)%nat)
  then Ascii.ascii_of_nat (n + 32) else c.

Fixpoint toLowerCase (s : string) : string :=
  match s with
  | EmptyString => EmptyString
  | String c r => String (toLowerCase_ascii c) (toLowerCase r)
  end.

(** [Object.prototype.toString]: the built-in tag of the object, unless a
    string-valued [Symbol.toStringTag] is found on its prototype chain. *)
Definition builtinTag (o : object) : string :=
  match o_slots o with
  | SArray _ => "Array"
  | SCallable => "Function"
  | SDateValue _ => "Date"
  | SRegExpMatcher _ _ => "RegExp"
  | _ => "Object"
  end.

Definition toStringTag (p : prototype) : option string :=
  match p with
  | MapPrototype => Some "Map"
  | SetPrototype => Some "Set"
  | WeakMapPrototype => Some "WeakMap"
  | ElementPrototype t => t
  | OtherPrototype t => t
  | _ => None
  end.

Definition instanceof_Element (o : object) : bool :=
  match o_proto o with
  | ElementPrototype _ => true
  | _ => false
  end.

Definition class_of (o : object) : string :=
  default (builtinTag o) (toStringTag (o_proto o)).

(** [\s] on a code unit below 256: tab, line feed, vertical tab, form
    feed, carriage return, space and no-break space. *)
Definition is_white_space (c : ascii) : bool :=
  let n := Ascii.nat_of_ascii c in
  ((9 <=? n)%nat && (n <=? 13)%nat) || (n =? 32)%nat || (n =? 160)%nat.

(** A line terminator, which [.] does not match: line feed and carriage
    return. *)
Definition is_line_terminator (c : ascii) : bool :=
  let n := Ascii.nat_of_ascii c in (n =? 10)%nat || (n =? 13)%nat.

(** [(.+)\]] at the start of [s]: the longest run of one or more characters
    of one line that a closing bracket follows.  The result is the run and
    what follows the bracket. *)
Fixpoint match_capture (s : string) : option (string * string) :=
  match s with
  | EmptyString => None
  | String c r =>
      if is_line_terminator c then None else
      match match_capture r with
      | Some (g, rest) => Some (String c g, rest)
      | None =>
          match r with
          | String "]" rest => Some (String c EmptyString, rest)
          | _ => None
          end
      end
  end.

(** [p] at the start of [s]: what follows it. *)
Fixpoint after_prefix (p s : string) : option string :=
  match p, s with
  | EmptyString, _ => Some s
  | String a p', String b s' =>
      if Ascii.eqb a b then after_prefix p' s' else None
  | _, _ => None
  end.

(** [/\[object\s(.+)\]/] at the start of [s]: the capture and what follows
    the match. *)
Definition match_object_tag (s : string) : option (string * string) :=
  match after_prefix "[object" s with
  | Some (String c r) => if is_white_space c then match_capture r else None
  | _ => None
  end.

(** [s.replace(/\[object\s(.+)\]/, "$1")]: the leftmost match is replaced
    by its capture; a string without a match is returned as it is. *)
Fixpoint replace_object_tag (s : string) : string :=
  match match_object_tag s with
  | Some (g, rest) => g +:+ rest
  | None =>
      match s with
      | EmptyString => EmptyString
      | String c r => String c (replace_object_tag r)
      end
  end.

(** [mTypeof(value)], index.js lines 13-16, in a browser (where [Element]
    is defined).  [Object.prototype.toString] gives ["[object Undefined]"],
    ["[object Null]"], ["[object Boolean]"], ["[object Number]"] and
    ["[object String]"] on the primitives. *)
Definition mTypeof (value : value) (h : heap) : outcome string :=
  match value with
  | VUndefined => Return "undefined"
  | VNull => Return "null"
  | VBoolean _ => Return "boolean"
  | VNumber _ => Return "number"
  | VString _ => Return "string"
  | VRef l =>
      o ← lookup_object l h;
      Return (if instanceof_Element o then "element"
              else toLowerCase
                     (replace_object_tag ("[object " +:+ class_of o +:+ "]")))
  end.

(** ** Own properties *)

Definition data_property (v : value) : property := Property v true true true.

Fixpoint assoc (k : key) (ps : list (key * property)) : option property :=
  match ps with
  | [] => None
  | (k', p) :: rest => if key_eqb k k' then Some p else assoc k rest
  end.

(** The index properties of an exotic array, holes skipped. *)
Definition index_properties (elements : list (option value))
  : list (key * property) :=
  omap (fun '(i, e) => (fun v => (KString (pretty i), data_property v)) <$> e)
       (imap pair elements).

Definition length_property (n : nat) : property :=
  Property (VNumber (number_of_nat n)) true false false.

(** All own properties in [Reflect.ownKeys] order: for an exotic array the
    indices and [length] come first. *)
Definition own_properties (o : object) : list (key * property) :=
  match o_slots o with
  | SArray elements =>
      index_properties elements
        ++ (KString "length", length_property (length elements)) :: o_props o
  | _ => o_props o
  end.

(** [Reflect.ownKeys(o)] *)
Definition ownKeys (o : object) : list key := (own_properties o).*1.

(** [Object.keys(o)]: the enumerable own string keys. *)
Definition Object_keys (o : object) : list string :=
  omap (fun '(k, p) =>
          match k with
          | KString s => if p_enumerable p then Some s else None
          | KSymbol _ => None
          end) (own_properties o).

(** The members of a pristine [Object.prototype]. *)
Definition object_prototype_members : list string :=
  [ "constructor"; "__defineGetter__"; "__defineSetter__"; "hasOwnProperty";
    "__lookupGetter__"; "__lookupSetter__"; "isPrototypeOf";
    "propertyIsEnumerable"; "toString"; "valueOf"; "__proto__";
    "toLocaleString" ].

(** A property that is not an own property is looked up on the prototype
    chain.  The model knows the answer where the chain is [Object.prototype]
    or empty and the name is none of its members. *)
Definition inherited (p : prototype) (k : key) : outcome value :=
  match p, k with
  | NullPrototype, _ => Return VUndefined
  | ObjectPrototype, KSymbol _ => Return VUndefined
  | ObjectPrototype, KString s =>
      if existsb (String.eqb s) object_prototype_members
      then Fail Unmodelled else Return VUndefined
  | _, _ => Fail Unmodelled
  end.

(** [o[k]] *)
Definition Get (o : object) (k : key) : outcome value :=
  match assoc k (own_properties o) with
  | Some p => Return (p_value p)
  | None => inherited (o_proto o) k
  end.

(** [arr[idx]] on the elements of an array: a hole or an index past the end
    reads [undefined]. *)
Definition Get_index (elements : list (option value)) (idx : nat) : value :=
  default VUndefined (mjoin (elements !! idx)).

Definition deref (v : value) (h : heap) : outcome (loc * object) :=
  match v with
  | VRef l => o ← lookup_object l h; Return (l, o)
  | _ => Fail Unmodelled
  end.

Definition set_value (v : value) (p : property) : property :=
  Property v (p_writable p) (p_enumerable p) (p_configurable p).

Fixpoint update_property (k : key) (v : value) (ps : list (key * property))
  : list (key * property) :=
  match ps with
  | [] => []
  | (k', p) :: rest =>
      if key_eqb k k' then (k', set_value v p) :: rest
      else (k', p) :: update_property k v rest
  end.

Definition with_props (o : object) (ps : list (key * property)) : object :=
  Obj (o_proto o) (o_slots o) ps.

Definition with_slots (o : object) (s : slots) : object :=
  Obj (o_proto o) s (o_props o).

(** [target[k] = v] in strict code, on an ordinary object [target].  An own
    property is overwritten if it
    is writable; a new name becomes a new own property, except [__proto__],
    which is the setter of [Object.prototype].  Other prototypes are not
    followed. *)
Definition Put (target : loc) (k : key) (v : value) : M unit :=
  o ← reading (lookup_object target);
  match o_slots o, assoc k (o_props o) with
  | SArray _, _ => fail Unmodelled
  | _, Some p =>
      if p_writable p
      then store target (with_props o (update_property k v (o_props o)))
      else fail TypeError
  | _, None =>
      match o_proto o with
      | ObjectPrototype =>
          if key_eqb k (KString "__proto__") then
            match v with
            | VNull => store target (Obj NullPrototype (o_slots o) (o_props o))
            | VRef _ => fail Unmodelled
            | _ => mret tt
            end
          else store target (with_props o (o_props o ++ [(k, data_property v)]))
      | NullPrototype =>
          store target (with_props o (o_props o ++ [(k, data_property v)]))
      | _ => fail Unmodelled
      end
  end.

(** CreateDataProperty on index [k] of the array [Array.prototype.map]
    builds. *)
Definition define_element (A : loc) (k : nat) (v : value) : M unit :=
  o ← reading (lookup_object A);
  match o_slots o with
  | SArray elements => store A (with_slots o (SArray (<[k := Some v]> elements)))
  | _ => fail Unmodelled
  end.

(** [Map.prototype.set]: the keys are compared with SameValueZero.  (A key
    read from a map is never [-0], so the method's normalisation of [-0] to
    [+0] is left out.) *)
Fixpoint map_set_entry (k v : value) (entries : list (value * value))
  : list (value * value) :=
  match entries with
  | [] => [(k, v)]
  | (k', v') :: rest =>
      if same_value_zero k' k then (k', v) :: rest
      else (k', v') :: map_set_entry k v rest
  end.

Definition Map_set (m : loc) (k v : value) : M unit :=
  o ← reading (lookup_object m);
  match o_slots o with
  | SMapData entries => store m (with_slots o (SMapData (map_set_entry k v entries)))
  | _ => fail TypeError
  end.

(** [Set.prototype.add] *)
Definition set_add_element (v : value) (elements : list value) : list value :=
  if existsb (fun e => same_value_zero e v) elements then elements
  else elements ++ [v].

Definition Set_add (s : loc) (v : value) : M unit :=
  o ← reading (lookup_object s);
  match o_slots o with
  | SSetData elements => store s (with_slots o (SSetData (set_add_element v elements)))
  | _ => fail TypeError
  end.

(** ** deepCopy, index.js lines 86-117 *)

Section DeepCopyCases.
(** The recursive call. *)
Variable deepCopy : value -> M value.

(** [case 'array': return val.map(v => deepCopy(v))].  [map] creates the
    result array first and then fills it, skipping holes. *)
Definition copy_array (val : value) : M value :=
  '(_, o) ← reading (deref val);
  match o_proto o, o_slots o with
  | ArrayPrototype, SArray elements =>
      A ← alloc (Obj ArrayPrototype
                     (SArray (replicate (length elements) None)) []);
      iterate (fun '(k, e) =>
                 match e with
                 | Some v => mapped ← deepCopy v; define_element A k mapped
                 | None => mret tt
                 end) (imap pair elements);;
      mret (VRef A)
  | _, _ => fail Unmodelled
  end.

(** [case 'object': return Object.keys(val)?.reduce((prev, curr) =>
    { prev[curr] = deepCopy(val[curr]); return prev }, {})] *)
Definition copy_object (val : value) : M value :=
  '(l, o) ← reading (deref val);
  let keys := Object_keys o in
  prev ← alloc (Obj ObjectPrototype SOrdinary []);
  iterate (fun curr =>
             o' ← reading (lookup_object l);
             v ← reading (fun _ => Get o' (KString curr));
             c ← deepCopy v;
             Put prev (KString curr) c) keys;;
  mret (VRef prev).

(** [case 'map': let tmpMap = new Map();
    val.forEach((v, k) => tmpMap.set(k, deepCopy(v))); return tmpMap] *)
Definition copy_map (val : value) : M value :=
  tmpMap ← alloc (Obj MapPrototype (SMapData []) []);
  '(_, o) ← reading (deref val);
  match o_proto o, o_slots o with
  | MapPrototype, SMapData entries =>
      iterate (fun '(k, v) => c ← deepCopy v; Map_set tmpMap k c) entries;;
      mret (VRef tmpMap)
  | MapPrototype, _ => fail TypeError
  | _, _ => fail Unmodelled
  end.

(** [case 'set': let tmpSet = new Set();
    for (let v of val.values()) tmpSet.add(deepCopy(v)); return tmpSet] *)
Definition copy_set (val : value) : M value :=
  tmpSet ← alloc (Obj SetPrototype (SSetData []) []);
  '(_, o) ← reading (deref val);
  match o_proto o, o_slots o with
  | SetPrototype, SSetData elements =>
      iterate (fun v => c ← deepCopy v; Set_add tmpSet c) elements;;
      mret (VRef tmpSet)
  | SetPrototype, _ => fail TypeError
  | _, _ => fail Unmodelled
  end.
End DeepCopyCases.

Definition lastIndex_property : property :=
  Property (VNumber (S754_zero false)) true false false.

(** [new RegExp(val)] for a regular expression [val]: same source and
    flags, [lastIndex] reset. *)
Definition new_RegExp (val : value) : M value :=
  '(_, o) ← reading (deref val);
  match o_slots o with
  | SRegExpMatcher source flags =>
      r ← alloc (Obj RegExpPrototype (SRegExpMatcher source flags)
                     [(KString "lastIndex", lastIndex_property)]);
      mret (VRef r)
  | _ => fail Unmodelled
  end.

(** [case 'date': return new Date(val.valueOf())].  The time value of a
    date is already clipped, so [new Date(t)] keeps it. *)
Definition copy_date (val : value) : M value :=
  '(_, o) ← reading (deref val);
  match o_proto o, o_slots o with
  | DatePrototype, SDateValue t =>
      d ← alloc (Obj DatePrototype (SDateValue t) []);
      mret (VRef d)
  | _, _ => fail Unmodelled
  end.

Fixpoint deepCopy (fuel : nat) (val : value) : M value :=
  match fuel with
  | 0 => fail OutOfFuel
  | S fuel =>
      t ← reading (mTypeof val);
      if t =? "array" then copy_array (deepCopy fuel) val
      else if t =? "object" then copy_object (deepCopy fuel) val
      else if t =? "map" then copy_map (deepCopy fuel) val
      else if t =? "set" then copy_set (deepCopy fuel) val
      else if t =? "regexp" then new_RegExp val
      else if t =? "date" then copy_date val
      else mret val
  end.

(** ** isObjectEqual, index.js lines 155-199 *)

(** The exclusion list: [None] is a falsy argument (such as [null]), [Some l]
    an array whose string elements are [l]. *)
Definition exclusion := option (list string).

(** [excludes && excludes.includes(k)] *)
Definition excluded (excludes : exclusion) (k : string) : bool :=
  match excludes with
  | Some l => existsb (String.eqb k) l
  | None => false
  end.

Definition array_elements (v : value) (h : heap)
  : outcome (list (option value)) :=
  '(_, o) ← deref v h;
  match o_proto o, o_slots o with
  | ArrayPrototype, SArray elements => Return elements
  | _, _ => Fail Unmodelled
  end.

(** [obj.getTime()] *)
Definition getTime (v : value) (h : heap) : outcome number :=
  '(_, o) ← deref v h;
  match o_proto o, o_slots o with
  | DatePrototype, SDateValue t => Return t
  | _, _ => Fail Unmodelled
  end.

(** [obj.toString()] of a regular expression *)
Definition regexp_toString (v : value) (h : heap) : outcome string :=
  '(_, o) ← deref v h;
  match o_proto o, o_slots o with
  | RegExpPrototype, SRegExpMatcher source flags =>
      Return ("/" +:+ source +:+ "/" +:+ flags)
  | _, _ => Fail Unmodelled
  end.

(** What [obj.entries()] iterates over; a set yields each element twice.
    The [size] getter and [entries] throw on an object that has the
    prototype without the data. *)
Definition entries (v : value) (h : heap) : outcome (list (value * value)) :=
  '(_, o) ← deref v h;
  match o_proto o, o_slots o with
  | MapPrototype, SMapData es => Return es
  | SetPrototype, SSetData elements => Return ((fun e => (e, e)) <$> elements)
  | MapPrototype, _ | SetPrototype, _ => Fail TypeError
  | _, _ => Fail Unmodelled
  end.

(** The [while (tmpVal1 && tmpVal2)] loop of lines 182-191: both iterators
    advance together and the loop ends when either is exhausted. *)
Fixpoint entries_loop (iterator1 iterator2 : list (value * value)) : bool :=
  match iterator1, iterator2 with
  | tmpVal1 :: iterator1, tmpVal2 :: iterator2 =>
      if negb (strict_equal tmpVal1.1 tmpVal2.1)
         || negb (strict_equal tmpVal1.2 tmpVal2.2)
      then false
      else entries_loop iterator1 iterator2
  | _, _ => true
  end.

Section IsObjectEqualCases.
Variable isObjectEqual : value -> value -> outcome bool.
Variable h : heap.
Variable excludes : exclusion.

(** [case 'array'] *)
Definition equal_arrays (obj1 obj2 : value) : outcome bool :=
  a1 ← array_elements obj1 h;
  a2 ← array_elements obj2 h;
  if negb (length a1 =? length a2)%nat then Return false
  else every (fun '(idx, e) =>
                match e with
                | Some v => isObjectEqual v (Get_index a2 idx)
                | None => Return true
                end) (imap pair a1).

(** [case 'object'] *)
Definition equal_objects (obj1 obj2 : value) : outcome bool :=
  '(_, o1) ← deref obj1 h;
  '(_, o2) ← deref obj2 h;
  let keys1 := Object_keys o1 in
  let keys2 := Object_keys o2 in
  if negb (length keys1 =? length keys2)%nat then Return false
  else every (fun k =>
                if excluded excludes k then Return true
                else v1 ← Get o1 (KString k);
                     v2 ← Get o2 (KString k);
                     isObjectEqual v1 v2) keys1.

(** [case 'map': case 'set'] *)
Definition equal_entries (obj1 obj2 : value) : outcome bool :=
  e1 ← entries obj1 h;
  e2 ← entries obj2 h;
  if negb (length e1 =? length e2)%nat then Return false
  else Return (entries_loop e1 e2).
End IsObjectEqualCases.

Fixpoint isObjectEqual (fuel : nat) (h : heap) (obj1 obj2 : value)
    (excludes : exclusion) : outcome bool :=
  match fuel with
  | 0 => Fail OutOfFuel
  | S fuel =>
      type1 ← mTypeof obj1 h;
      type2 ← mTypeof obj2 h;
      if negb (type1 =? type2) then Return false
      else if type1 =? "array" then
        equal_arrays (fun a b => isObjectEqual fuel h a b excludes) h obj1 obj2
      else if type1 =? "object" then
        equal_objects (fun a b => isObjectEqual fuel h a b excludes) h excludes
                      obj1 obj2
      else if (type1 =? "string") || (type1 =? "number") || (type1 =? "boolean")
      then Return (strict_equal obj1 obj2)
      else if type1 =? "date" then
        t1 ← getTime obj1 h; t2 ← getTime obj2 h; Return (SFeqb t1 t2)
      else if type1 =? "function" then Return (strict_equal obj1 obj2)
      else if (type1 =? "map") || (type1 =? "set") then equal_entries h obj1 obj2
      else if type1 =? "regexp" then
        s1 ← regexp_toString obj1 h; s2 ← regexp_toString obj2 h;
        Return (s1 =? s2)
      else Return true
  end.

(** The call with the default third argument, [excludes = ['key']]. *)
Definition isObjectEqual_default (fuel : nat) (h : heap) (obj1 obj2 : value)
  : outcome bool :=
  isObjectEqual fuel h obj1 obj2 (Some ["key"]).

(** ** deepCopy1, index.js lines 125-146 *)

(** [obj instanceof Date], [obj instanceof RegExp]: false on a primitive. *)
Definition instanceof_Date (obj : value) (h : heap) : outcome bool :=
  match obj with
  | VRef l =>
      o ← lookup_object l h;
      Return (match o_proto o with DatePrototype => true | _ => false end)
  | _ => Return false
  end.

Definition instanceof_RegExp (obj : value) (h : heap) : outcome bool :=
  match obj with
  | VRef l =>
      o ← lookup_object l h;
      Return (match o_proto o with RegExpPrototype => true | _ => false end)
  | _ => Return false
  end.

(** [new Date(obj)] for a date [obj]: the time value is copied. *)
Definition new_Date (obj : value) : M value :=
  '(_, o) ← reading (deref obj);
  match o_slots o with
  | SDateValue t =>
      d ← alloc (Obj DatePrototype (SDateValue t) []);
      mret (VRef d)
  | _ => fail Unmodelled
  end.

(** The registry, a [WeakMap] on the heap. *)
Definition new_WeakMap : M loc :=
  alloc (Obj WeakMapPrototype (SWeakMapData []) []).

Fixpoint weak_lookup (l : loc) (entries : list (loc * value)) : option value :=
  match entries with
  | [] => None
  | (l', v) :: rest => if (l =? l')%nat then Some v else weak_lookup l rest
  end.

Fixpoint weak_insert (l : loc) (v : value) (entries : list (loc * value))
  : list (loc * value) :=
  match entries with
  | [] => [(l, v)]
  | (l', v') :: rest =>
      if (l =? l')%nat then (l', v) :: rest else (l', v') :: weak_insert l v rest
  end.

Definition weak_entries (hash : loc) (h : heap) : outcome (list (loc * value)) :=
  o ← lookup_object hash h;
  match o_slots o with
  | SWeakMapData es => Return es
  | _ => Fail Unmodelled
  end.

(** [hash.has(obj)]: false for a key that is not an object. *)
Definition WeakMap_has (hash : loc) (obj : value) (h : heap) : outcome bool :=
  es ← weak_entries hash h;
  match obj with
  | VRef l => Return (bool_decide (is_Some (weak_lookup l es)))
  | _ => Return false
  end.

(** [hash.get(obj)] *)
Definition WeakMap_get (hash : loc) (obj : value) (h : heap) : outcome value :=
  es ← weak_entries hash h;
  match obj with
  | VRef l => Return (default VUndefined (weak_lookup l es))
  | _ => Return VUndefined
  end.

(** [hash.set(obj, v)]: a [TypeError] for a key that is not an object. *)
Definition WeakMap_set (hash : loc) (obj v : value) : M unit :=
  es ← reading (weak_entries hash);
  match obj with
  | VRef l =>
      o ← reading (lookup_object hash);
      store hash (with_slots o (SWeakMapData (weak_insert l v es)))
  | _ => fail TypeError
  end.

(** The own properties of the wrapper [ToObject] makes of a string. *)
Definition string_properties (s : string) : list (key * property) :=
  imap (fun i c => (KString (pretty i),
                    Property (VString (String c "")) false true false))
       (list_ascii_of_string s)
    ++ [(KString "length",
         Property (VNumber (number_of_nat (String.length s))) false false false)].

(** [Object.getOwnPropertyDescriptors(obj)] *)
Definition getOwnPropertyDescriptors (obj : value) (h : heap)
  : outcome (list (key * property)) :=
  match obj with
  | VUndefined | VNull => Fail TypeError
  | VBoolean _ | VNumber _ => Return []
  | VString s => Return (string_properties s)
  | VRef l => o ← lookup_object l h; Return (own_properties o)
  end.

(** [Object.getPrototypeOf(obj)] *)
Definition getPrototypeOf (obj : value) (h : heap) : outcome prototype :=
  match obj with
  | VUndefined | VNull => Fail TypeError
  | VBoolean _ => Return BooleanPrototype
  | VNumber _ => Return NumberPrototype
  | VString _ => Return StringPrototype
  | VRef l => o ← lookup_object l h; Return (o_proto o)
  end.

(** [Reflect.ownKeys(obj)] *)
Definition Reflect_ownKeys (obj : value) (h : heap) : outcome (list key) :=
  match obj with
  | VRef l => o ← lookup_object l h; Return (ownKeys o)
  | _ => Fail TypeError
  end.

(** [obj[key]] for an object [obj] *)
Definition Get_value (obj : value) (k : key) (h : heap) : outcome value :=
  '(_, o) ← deref obj h;
  Get o k.

Section DeepCopy1Loop.
(** The recursive call. *)
Variable deepCopy1 : value -> option loc -> M value.

(** The body of [for (let key of Reflect.ownKeys(obj))], lines 139-143:
    [if (obj[key] && typeof obj[key] === "object")
       cloneObj[key] = deepCopy1(obj[key], hash)
     else cloneObj[key] = obj[key]] *)
Definition copy_property (obj : value) (hash cloneObj : loc) (key : key)
  : M unit :=
  v ← reading (Get_value obj key);
  composite ← (if to_boolean (v : value)
               then v ← reading (Get_value obj key);
                    ty ← reading (typeof v);
                    mret (ty =? "object")
               else (mret false : M bool));
  if (composite : bool)
  then v ← reading (Get_value obj key);
       c ← deepCopy1 v (Some hash);
       Put cloneObj key c
  else v ← reading (Get_value obj key);
       Put cloneObj key v.
End DeepCopy1Loop.

Fixpoint deepCopy1 (fuel : nat) (obj : value) (hash : option loc) : M value :=
  match fuel with
  | 0 => fail OutOfFuel
  | S fuel =>
      (* hash = new WeakMap() *)
      hash ← match hash with
             | Some l => (mret l : M loc)
             | None => new_WeakMap
             end;
      isDate ← reading (instanceof_Date obj);
      if (isDate : bool) then new_Date obj else
      isRegExp ← reading (instanceof_RegExp obj);
      if (isRegExp : bool) then new_RegExp obj else
      seen ← reading (WeakMap_has hash obj);
      if (seen : bool) then reading (WeakMap_get hash obj) else
      allDesc ← reading (getOwnPropertyDescriptors obj);
      proto ← reading (getPrototypeOf obj);
      cloneObj ← alloc (Obj proto SOrdinary allDesc);
      WeakMap_set hash obj (VRef cloneObj);;
      keys ← reading (Reflect_ownKeys obj);
      iterate (copy_property (deepCopy1 fuel) obj hash cloneObj) keys;;
      mret (VRef cloneObj)
  end.

(** ** Classification of heap objects, as [mTypeof] sees them *)

(** The tag [mTypeof] computes for an object. *)
Definition tag (o : object) : string :=
  if instanceof_Element o then "element"
  else toLowerCase (replace_object_tag ("[object " +:+ class_of o +:+ "]")).

(** An object [mTypeof] calls ['object']. *)
Definition is_record (o : object) : Prop := tag o = "object".

Definition is_array (o : object) (elements : list (option value)) : Prop :=
  o_proto o = ArrayPrototype /\ o_slots o = SArray elements.

Definition is_set (o : object) (elements : list value) : Prop :=
  o_proto o = SetPrototype /\ o_slots o = SSetData elements.

Definition is_map (o : object) (es : list (value * value)) : Prop :=
  o_proto o = MapPrototype /\ o_slots o = SMapData es.

Definition is_date (o : object) (t : number) : Prop :=
  o_proto o = DatePrototype /\ o_slots o = SDateValue t.

Definition is_regexp (o : object) (source flags : string) : Prop :=
  o_proto o = RegExpPrototype /\ o_slots o = SRegExpMatcher source flags.

(** The entry [entries()] yields for a set element. *)
Definition set_entry (e : value) : value * value := (e, e).

(** Two entries with identical ([===]) keys and identical values. *)
Definition identical_entries (p q : value * value) : Prop :=
  strict_equal p.1 q.1 = true /\ strict_equal p.2 q.2 = true.

(** A plain record with the given enumerable properties. *)
Definition record (ps : list (string * value)) : object :=
  Obj ObjectPrototype SOrdinary
      ((fun '(k, v) => (KString k, data_property v)) <$> ps).

Definition num (n : nat) : value := VNumber (number_of_nat n).

Definition set_of (elements : list value) : object :=
  Obj SetPrototype (SSetData elements) [].

Definition array_of (elements : list value) : object :=
  Obj ArrayPrototype (SArray (Some <$> elements)) [].

(** Two sets with the same elements, inserted in different orders. *)
Definition order_heap : heap :=
  [ set_of [num 1; num 2]; set_of [num 2; num 1] ].

(** The records of the exclusion examples: [{key:1, val:2}],
    [{key:99, val:2}] and [{key:1, val:3}]. *)
Definition exclusion_heap : heap :=
  [ record [("key", num 1); ("val", num 2)];
    record [("key", num 99); ("val", num 2)];
    record [("key", num 1); ("val", num 3)] ].

(** Two records [{a:1}], a set of each and an array of each, and a second
    set of the first record. *)
Definition identity_heap : heap :=
  [ record [("a", num 1)]; record [("a", num 1)];
    set_of [VRef 0]; set_of [VRef 1];
    array_of [VRef 0]; array_of [VRef 1];
    set_of [VRef 0] ].

(** [{key: 1}] and [{other: 2}]. *)
Definition asymmetry_heap : heap :=
  [ record [("key", num 1)]; record [("other", num 2)] ].

(** Two entries that hold distinct objects in the same place. *)
Definition distinct_objects (p q : value * value) : Prop :=
  (exists x y, p.1 = VRef x /\ q.1 = VRef y /\ x <> y) \/
  (exists x y, p.2 = VRef x /\ q.2 = VRef y /\ x <> y).

(** ** Frames *)

(** Every location of [h] that satisfies [P] holds the same object in [h']. *)
Definition preserved (P : loc -> Prop) (h h' : heap) : Prop :=
  length h <= length h' /\
  forall l, P l -> l < length h -> h' !! l = h !! l.

(** A computation that writes to no existing location that satisfies [P]. *)
Definition framed {A} (P : loc -> Prop) (m : M A) : Prop :=
  forall h h' r, m h = (h', r) -> preserved P h h'.

Definition is_primitive (v : value) : Prop :=
  match v with
  | VRef _ => False
  | _ => True
  end.

(** The registry a call of [deepCopy1] without second argument creates. *)
Definition empty_WeakMap : object := Obj WeakMapPrototype (SWeakMapData []) [].

(** [a = {}; a.self = a] *)
Definition self_heap : heap := [ record [("self", VRef 0)] ].

(** A registry holding the given entries. *)
Definition registry (es : list (loc * value)) : object :=
  Obj WeakMapPrototype (SWeakMapData es) [].

(** ** Object graphs *)

(** The values an object holds: the values of its own properties (the
    elements of an array among them) and the contents of its collection. *)
Definition held_values (o : object) : list value :=
  ((fun kp => p_value kp.2) <$> own_properties o) ++
  match o_slots o with
  | SMapData es => es.*1 ++ es.*2
  | SSetData elements => elements
  | SWeakMapData es => es.*2
  | _ => []
  end.

(** A finite graph without cycles, from [v]: every object reached from [v]
    is allocated and holds only values whose own graph is such a graph.
    [okp] and [ok] are conditions on the primitives and on the objects of
    the graph. *)
Inductive graph (okp : value -> Prop) (ok : object -> Prop) (h : heap)
  : value -> Prop :=
| graph_primitive p :
    is_primitive p -> okp p -> graph okp ok h p
| graph_object l o :
    h !! l = Some o -> ok o ->
    (forall w, w ∈ held_values o -> graph okp ok h w) ->
    graph okp ok h (VRef l).

Definition acyclic : heap -> value -> Prop :=
  graph (fun _ => True) (fun _ => True).

(** An object as the language makes it: a value tagged array, map, set,
    date or regexp is an instance of the built-in, and a record has no own
    property named [__proto__]. *)
Definition wf_object (o : object) : Prop :=
  (tag o = "array" -> exists es, is_array o es) /\
  (tag o = "object" -> "__proto__" ∉ Object_keys o) /\
  (tag o = "map" -> exists es, is_map o es) /\
  (tag o = "set" -> exists es, is_set o es) /\
  (tag o = "regexp" -> exists s f, is_regexp o s f) /\
  (tag o = "date" -> exists t, is_date o t).

(** A graph without cycles whose objects are well formed. *)
Definition plain : heap -> value -> Prop := graph (fun _ => True) wf_object.

(** [g] holds every object of [h], where [h] holds it. *)
Definition extends (h g : heap) : Prop :=
  forall l o, h !! l = Some o -> g !! l = Some o.

(** An outcome is good when it is a result or a tolerated failure. *)
Definition good (tolerated : failure -> Prop) {A} (r : outcome A) : Prop :=
  match r with
  | Return _ => True
  | Fail e => tolerated e
  end.

Definition not_out_of_fuel (e : failure) : Prop := e <> OutOfFuel.

Definition never (e : failure) : Prop := False.

(** A sample of every composite type:
    [{arr: [{a: 1, b: "x"}, 3], d: new Date(1000), re: /ab+c/gi,
      s: new Set([1, 2, 3]), m: new Map([["k", 1]])}] at location 6. *)
Definition sample_heap : heap :=
  [ record [("a", num 1); ("b", VString "x")];
    array_of [VRef 0; num 3];
    Obj DatePrototype (SDateValue (number_of_nat 1000)) [];
    Obj RegExpPrototype (SRegExpMatcher "ab+c" "gi")
        [(KString "lastIndex", lastIndex_property)];
    set_of [num 1; num 2; num 3];
    Obj MapPrototype (SMapData [(VString "k", num 1)]) [];
    record [("arr", VRef 1); ("d", VRef 2); ("re", VRef 3);
            ("s", VRef 4); ("m", VRef 5)] ].

(** The tags [deepCopy] has a case for. *)
Definition composite_tags : list string :=
  ["array"; "object"; "map"; "set"; "regexp"; "date"].

(** ** Inputs whose clone compares equal *)

(** A value [deepCopy] hands back as it is and that is [===] to itself: a
    primitive other than [NaN], or an object of a type [deepCopy] has no
    case for. *)
Definition passes_through (h : heap) (v : value) : Prop :=
  match v with
  | VRef l => exists o, h !! l = Some o /\ tag o ∉ composite_tags
  | VNumber n => n <> S754_nan
  | _ => True
  end.

(** No two of the values are the same for [Map] and [Set] (SameValueZero). *)
Definition distinct (vs : list value) : Prop :=
  forall i j x y,
    vs !! i = Some x -> vs !! j = Some y -> same_value_zero x y = true -> i = j.

(** The objects whose clone [isObjectEqual] finds equal to them: well-formed
    objects with distinct keys, whose dates are valid and whose sets and
    maps hold only values that are passed through. *)
Definition faithful_object (h : heap) (o : object) : Prop :=
  wf_object o /\
  (tag o = "object" -> NoDup (Object_keys o)) /\
  (forall es, is_set o es -> distinct es /\ Forall (passes_through h) es) /\
  (forall es, is_map o es ->
     distinct es.*1 /\
     Forall (fun kv => kv.1 <> VNumber S754_nan /\ passes_through h kv.2) es) /\
  (forall t, is_date o t -> t <> S754_nan).

Definition faithful (h : heap) : value -> Prop :=
  graph (fun p => p <> VNumber S754_nan) (faithful_object h) h.





(** The properties of the clone of a record: one per key, holding the clone
    of the value. *)
Definition clone_props (ks : list string) (cs : list value)
  : list (key * property) :=
  zip_with (fun k c => (KString k, data_property c)) ks cs.




(** ** Objects the descriptor-based clone accepts *)

(** Distinct own keys, all of them writable data properties. *)
Definition writable_data (o : object) : Prop :=
  NoDup (ownKeys o) /\
  Forall (fun kp => p_writable kp.2 = true) (own_properties o).

(** Neither [instanceof Date] nor [instanceof RegExp]. *)
Definition is_ordinary_instance (o : object) : Prop :=
  match o_proto o with
  | DatePrototype | RegExpPrototype => False
  | _ => True
  end.

(** A set of locations closed under what [deepCopy1] visits: each holds a
    date, a regular expression, or an object with writable data properties
    whose object-valued properties are allocated and, unless they are
    functions, in the set again.  Cycles are allowed. *)
Definition descriptor_closed (h : heap) (dom : loc -> Prop) : Prop :=
  forall l, dom l -> exists o, h !! l = Some o /\
    match o_proto o with
    | DatePrototype => exists t, o_slots o = SDateValue t
    | RegExpPrototype => exists s f, o_slots o = SRegExpMatcher s f
    | _ => writable_data o /\
           forall k p l', (k, p) ∈ own_properties o -> p_value p = VRef l' ->
             exists o', h !! l' = Some o' /\ (is_callable o' = false -> dom l')
    end.

(** A registry whose keys are distinct objects of [h]. *)
Definition registry_ok (h : heap) (es : list (loc * value)) : Prop :=
  NoDup es.*1 /\ forall k, k ∈ es.*1 -> k < length h.

(** The registry [es'] keeps every entry of [es]. *)
Definition registry_grows (es es' : list (loc * value)) : Prop :=
  length es <= length es' /\
  forall k v, weak_lookup k es = Some v -> weak_lookup k es' = Some v.

(** What a call of [deepCopy1] with the registry at [w] does on an object of
    a closed set: it returns, keeps the original objects, and leaves a
    registry that has grown. *)
Definition deepCopy1_spec (h : heap) (dom : loc -> Prop) (fuel : nat) : Prop :=
  forall a g w es,
    dom a -> extends h g -> h !! w = None ->
    g !! w = Some (registry es) -> registry_ok h es ->
    length h - length es < fuel ->
    exists g' c es',
      deepCopy1 fuel (VRef a) (Some w) g = (g', Return c) /\
      extends h g' /\ g' !! w = Some (registry es') /\
      registry_ok h es' /\ registry_grows es es'.

(** ** What a run of deepCopy1 leaves in its registry *)

(** A reference to an object allocated at [n] or later. *)
Definition fresh_from (n : nat) (v : value) : Prop :=
  exists l, v = VRef l /\ n <= l.

(** A registry whose values are such references. *)
Definition registry_fresh (n : nat) (es : list (loc * value)) : Prop :=
  Forall (fun kv => fresh_from n kv.2) es.

(** The attributes of the own properties, without the values. *)
Definition attributes (ps : list (key * property))
  : list (key * (bool * bool * bool)) :=
  (fun kp => (kp.1, (p_writable kp.2, p_enumerable kp.2, p_configurable kp.2)))
    <$> ps.

(** [deepCopy1] descends into [v]: [v && typeof v === "object"]. *)
Definition descends (g : heap) (v : value) : Prop :=
  exists l o, v = VRef l /\ g !! l = Some o /\ is_callable o = false.

(** [shared = {v: 1}; root = {a: shared, b: shared}], [root] at location 1. *)
Definition shared_heap : heap :=
  [ record [("v", num 1)]; record [("a", VRef 0); ("b", VRef 0)] ].

(** [f = function () {}; o = Object.create(proto, {n: {value: 1,
    writable: true, configurable: true}}); o[Symbol()] = f], [o] at
    location 1: [n] is not enumerable. *)
Definition descriptor_heap : heap :=
  [ Obj FunctionPrototype SCallable [];
    Obj (OtherPrototype None) SOrdinary
        [(KString "n", Property (num 1) true false true);
         (KSymbol 0, data_property (VRef 0))] ].

(** [[1, 2]] *)
Definition array_heap : heap := [ array_of [num 1; num 2] ].

(** [new Map([["k", 1]])] *)
Definition map_heap : heap :=
  [ Obj MapPrototype (SMapData [(VString "k", num 1)]) [] ].

(** ** What deepCopy returns *)

(** A computation that returns the object at [A], if it returns. *)
Definition returns_loc (A : loc) (m : M value) : Prop :=
  forall g g' c, m g = (g', Return c) -> c = VRef A.

(** ** More on isObjectEqual *)

(** Every key [excludes] excludes, [excludes'] excludes too. *)
Definition exclusion_le (excludes excludes' : exclusion) : Prop :=
  forall k, excluded excludes k = true -> excluded excludes' k = true.

(** The tags [isObjectEqual] has a case for. *)
Definition compared_tags : list string :=
  ["array"; "object"; "string"; "number"; "boolean"; "date"; "function";
   "map"; "set"; "regexp"].

(** [[{key: 1, val: 2}]] and [[{key: 99, val: 2}]], at locations 3 and 4. *)
Definition nested_exclusion_heap : heap :=
  exclusion_heap ++ [ array_of [VRef 0]; array_of [VRef 1] ].

(** Two registries (of type [WeakMap]) with different entries. *)
Definition weakmap_heap : heap :=
  [ registry []; registry [(0, VNull)] ].

(** The objects [isObjectEqual] finds equal to themselves: well-formed
    objects whose dates are valid and whose sets and maps hold no [NaN]. *)
Definition comparable_object (o : object) : Prop :=
  wf_object o /\
  (forall es, is_set o es -> Forall (fun v => v <> VNumber S754_nan) es) /\
  (forall es, is_map o es ->
     Forall (fun kv => kv.1 <> VNumber S754_nan /\ kv.2 <> VNumber S754_nan) es) /\
  (forall t, is_date o t -> t <> S754_nan).

(** A graph without cycles of such objects, holding no [NaN]. *)
Definition comparable (h : heap) : value -> Prop :=
  graph (fun p => p <> VNumber S754_nan) comparable_object h.

(** [a = {self: a}] at location 0, and [{self: 1}] at location 1. *)
Definition cyclic_second_heap : heap :=
  [ record [("self", VRef 0)]; record [("self", num 1)] ].

(** [new Array(2)] and [[1, "x"]]. *)
Definition holes_heap : heap :=
  [ Obj ArrayPrototype (SArray [None; None]) [];
    array_of [num 1; VString "x"] ].

(** [{a: undefined}] and [{b: 1}]. *)
Definition missing_key_heap : heap :=
  [ record [("a", VUndefined)]; record [("b", num 1)] ].

(** [new Date(NaN)] and [new Set([NaN])]. *)
Definition nan_heap : heap :=
  [ Obj DatePrototype (SDateValue S754_nan) [];
    set_of [VNumber S754_nan] ].
(** [a = {key: 1, n: 2}; a.self = a] at location 0 and
    [b = {key: 1, n: NaN}; b.self = b] at location 1. *)
Definition self_later_heap : heap :=
  [ record [("key", num 1); ("n", num 2); ("self", VRef 0)];
    record [("key", num 1); ("n", VNumber S754_nan); ("self", VRef 1)] ].

(** ** The shape of what deepCopy returns *)

(** A value of one of the six types [deepCopy] copies. *)
Definition composite (g : heap) (v : value) : Prop :=
  exists s os, v = VRef s /\ g !! s = Some os /\ tag os ∈ composite_tags.

(** What the clone of an element is to the element: the element itself, or
    a new object where [deepCopy] copies. *)
Definition element_clone (g : heap) (c v : value) : Prop :=
  (~ composite g v /\ c = v) \/
  (composite g v /\ exists lc, c = VRef lc /\ length g <= lc).

(** A hole for a hole, an element for an element. *)
Definition hole_for_hole (c e : option value) : Prop := c = None <-> e = None.

(** The references among [vs] are allocated in [g]. *)
Definition allocated (g : heap) (vs : list value) : Prop :=
  forall s, VRef s ∈ vs -> s < length g.

(** All attributes set: what an assignment to a new key makes. *)
Definition plain_property (p : property) : Prop :=
  p_writable p = true /\ p_enumerable p = true /\ p_configurable p = true.

(** [a = [1, , {}]; a.note = "x"]: an array with a hole and an own property
    that is not an index, at location 1. *)
Definition sparse_heap : heap :=
  [ record [];
    Obj ArrayPrototype (SArray [Some (num 1); None; Some (VRef 0)])
        [(KString "note", data_property (VString "x"))] ].

(** [k = {}; new Map([[k, {}], ["n", 1]])], the map at location 2. *)
Definition object_key_heap : heap :=
  [ record []; record [];
    Obj MapPrototype (SMapData [(VRef 0, VRef 1); (VString "n", num 1)]) [] ].

(** [f = function () {}; new Set([1, "a", f, {}])], the set at location 2. *)
Definition mixed_set_heap : heap :=
  [ Obj FunctionPrototype SCallable []; record [];
    set_of [num 1; VString "a"; VRef 0; VRef 1] ].

(** ** distinctArray, index.js lines 206-209 *)

(** [arr instanceof Array]: false on a primitive. *)
Definition instanceof_Array (arr : value) (h : heap) : outcome bool :=
  match arr with
  | VRef l =>
      o ← lookup_object l h;
      Return (match o_proto o with ArrayPrototype => true | _ => false end)
  | _ => Return false
  end.

(** What the iterator of an array yields: the elements in index order,
    [undefined] for a hole.  An object that inherits from [Array.prototype]
    without being an array is outside the model. *)
Definition array_values (arr : value) (h : heap) : outcome (list value) :=
  '(_, o) ← deref arr h;
  match o_slots o with
  | SArray elements => Return (default VUndefined <$> elements)
  | _ => Fail Unmodelled
  end.

(** [Set.prototype.add] stores [+0] for [-0]. *)
Definition normalize_zero (v : value) : value :=
  match v with
  | VNumber (S754_zero true) => VNumber (S754_zero false)
  | _ => v
  end.

(** The elements of [new Set(values)]: each value is added in turn. *)
Definition new_Set_elements (values : list value) : list value :=
  foldl (fun elements v => set_add_element (normalize_zero v) elements) [] values.

(** [if (!arr || !(arr instanceof Array)) return arr;
    return [...new Set(arr)]] *)
Definition distinctArray (arr : value) : M value :=
  if negb (to_boolean arr) then mret arr else
  isArray ← reading (instanceof_Array arr);
  if negb (isArray : bool) then mret arr else
  values ← reading (array_values arr);
  let elements := new_Set_elements values in
  _ ← alloc (Obj SetPrototype (SSetData elements) []);
  A ← alloc (Obj ArrayPrototype (SArray (Some <$> elements)) []);
  mret (VRef A).

(** The values of [vs] in the order of their first occurrence: a value is
    kept unless one of the values before it ([seen], then those of [vs]) is
    the same value (for SameValueZero, the comparison of [Set]). *)
Fixpoint first_occurrences (seen vs : list value) : list value :=
  match vs with
  | [] => []
  | v :: rest =>
      if existsb (fun e => same_value_zero e v) seen
      then first_occurrences (seen ++ [v]) rest
      else v :: first_occurrences (seen ++ [v]) rest
  end.

(** [[1, "a", 1, , NaN, -0, NaN, 0, undefined]] *)
Definition duplicates_heap : heap :=
  [ Obj ArrayPrototype
        (SArray [Some (num 1); Some (VString "a"); Some (num 1); None;
                 Some (VNumber S754_nan); Some (VNumber (S754_zero true));
                 Some (VNumber S754_nan); Some (VNumber (S754_zero false));
                 Some VUndefined]) [] ].

(** ** formatMoneyReg, index.js lines 381-383 *)

(** [\d] *)
Definition is_digit (c : ascii) : bool :=
  let n := Ascii.nat_of_ascii c in (48 <=? n)%nat && (n <=? 57)%nat.

(** [money.includes('.')] *)
Fixpoint includes_dot (s : string) : bool :=
  match s with
  | EmptyString => false
  | String c r => Ascii.eqb c "." || includes_dot r
  end.

(** What follows the groups of digits: [$], the end of the input ... *)
Definition at_end (s : string) : bool :=
  match s with
  | EmptyString => true
  | String _ _ => false
  end.

(** ... or [\.], a dot. *)
Definition at_dot (s : string) : bool :=
  match s with
  | EmptyString => false
  | String c _ => Ascii.eqb c "."
  end.

(** The lookahead [(?=(\d{3})+X)] at the start of [s]: three digits, and
    then [X] or three digits again. *)
Fixpoint groups_then (X : string -> bool) (s : string) : bool :=
  match s with
  | String a (String b (String c r)) =>
      is_digit a && is_digit b && is_digit c && (X r || groups_then X r)
  | _ => false
  end.

(** [s.replace(/(?!^)(?=(\d{3})+X)/g, ',')]: the pattern matches the empty
    string, at every position but the first where the lookahead holds, and
    a comma is put there. *)
Fixpoint replace_matches (X : string -> bool) (at_start : bool) (s : string)
  : string :=
  match s with
  | EmptyString => EmptyString
  | String c r =>
      let rest := String c (replace_matches X false r) in
      if negb at_start && groups_then X s then String "," rest else rest
  end.

(** [formatMoneyReg(money)].  A primitive that is not a string has no
    [includes] and no [replace]; an object is outside the model. *)
Definition formatMoneyReg (money : value) : outcome value :=
  match money with
  | VString s =>
      let X := if includes_dot s then at_dot else at_end in
      Return (VString (replace_matches X true s))
  | VRef _ => Fail Unmodelled
  | _ => Fail TypeError
  end.

(** The input without its commas. *)
Fixpoint remove_commas (s : string) : string :=
  match s with
  | EmptyString => EmptyString
  | String c r =>
      if Ascii.eqb c "," then remove_commas r else String c (remove_commas r)
  end.

Fixpoint all_digits (s : string) : bool :=
  match s with
  | EmptyString => true
  | String c r => is_digit c && all_digits r
  end.

(** Neither a digit nor a dot anywhere. *)
Fixpoint no_digit_no_dot (s : string) : bool :=
  match s with
  | EmptyString => true
  | String c r => negb (is_digit c) && negb (Ascii.eqb c ".") && no_digit_no_dot r
  end.

(** Digits in groups of three counted from the right: a comma before a
    digit when the digits from there on are a multiple of three. *)
Fixpoint grouped (at_start : bool) (ds : string) : string :=
  match ds with
  | EmptyString => EmptyString
  | String c r =>
      let rest := String c (grouped false r) in
      if negb at_start && (String.length ds mod 3 =? 0)%nat
      then String "," rest else rest
  end.

(** ** throttle, index.js lines 38-47 *)

(** A call of [fn]: its [this] and its arguments. *)
Record invocation := Invocation {
  i_this : value;
  i_args : list value
}.

(** [_this ? fn.call(_this, ...args) : fn(...args)]: a falsy [_this] is not
    bound, and [this] is [undefined] in the strict code of a module. *)
Definition bound_this (_this : value) : value :=
  if to_boolean _this then _this else VUndefined.

(** One call of the function [throttle] returns, when the clock reads
    [curr].  The state of the closure is [prev], set to the reading of the
    clock when [throttle] was called.  Clock readings are whole numbers of
    milliseconds, as [+new Date()] gives them, and so is [interval]; the
    result is the new [prev] and the call of [fn], if there is one.
    [if (curr - prev > interval) { prev = curr; fn(...) }] *)
Definition throttled (interval : Z) (_this : value) (prev curr : Z)
    (args : list value) : Z * option invocation :=
  if (curr - prev >? interval)%Z
  then (curr, Some (Invocation (bound_this _this) args))
  else (prev, None).

(** A sequence of calls, each with the reading of the clock at the call:
    the calls of [fn] made, with their readings. *)
Fixpoint throttled_run (interval : Z) (_this : value) (prev : Z)
    (calls : list (Z * list value)) : list (Z * invocation) :=
  match calls with
  | [] => []
  | (curr, args) :: rest =>
      match throttled interval _this prev curr args with
      | (prev', Some i) => (curr, i) :: throttled_run interval _this prev' rest
      | (prev', None) => throttled_run interval _this prev' rest
      end
  end.

(** [throttle(fn)]: [interval = 300]. *)
Definition throttled_run_default := throttled_run 300.

(** Each reading is more than [interval] after the one before, [prev] for
    the first. *)
Fixpoint spaced (interval prev : Z) (times : list Z) : Prop :=
  match times with
  | [] => True
  | t :: rest => (t - prev > interval)%Z /\ spaced interval t rest
  end.

(** ** getType, index.js lines 23-26 *)

(** The tag [T] of [Object.prototype.toString.call(value)], which is
    ["[object T]"]. *)
Definition toString_tag (value : value) (h : heap) : outcome string :=
  match value with
  | VUndefined => Return "Undefined"
  | VNull => Return "Null"
  | VBoolean _ => Return "Boolean"
  | VNumber _ => Return "Number"
  | VString _ => Return "String"
  | VRef l => o ← lookup_object l h; Return (class_of o)
  end.

(** [\w] *)
Definition is_word (c : ascii) : bool :=
  let n := Ascii.nat_of_ascii c in
  ((48 <=? n)%nat && (n <=? 57)%nat) || ((65 <=? n)%nat && (n <=? 90)%nat)
  || ((97 <=? n)%nat && (n <=? 122)%nat) || (n =? 95)%nat.

(** [(\w+)] at the start of [s]: the longest run of word characters. *)
Fixpoint word_prefix (s : string) : string :=
  match s with
  | EmptyString => EmptyString
  | String c r => if is_word c then String c (word_prefix r) else EmptyString
  end.

Definition starts_with_word (s : string) : bool :=
  match s with
  | EmptyString => false
  | String c _ => is_word c
  end.

(** [s.match(/ (\w+)/)]: the group of the leftmost match, [None] where
    there is no match. *)
Fixpoint match_space_word (s : string) : option string :=
  match s with
  | EmptyString => None
  | String c r =>
      if Ascii.eqb c " " && starts_with_word r then Some (word_prefix r)
      else match_space_word r
  end.

Section GetType.
(** [String.prototype.toLocaleLowerCase], which depends on the locale of
    the host. *)
Variable toLocaleLowerCase : string -> string.

(** [const match = Object.prototype.toString.call(value).match(/ (\w+)/);
    return match[1].toLocaleLowerCase()] *)
Definition getType (value : value) (h : heap) : outcome string :=
  T ← toString_tag value h;
  match match_space_word ("[object " +:+ T +:+ "]") with
  | Some w => Return (toLocaleLowerCase w)
  | None => Fail TypeError
  end.
End GetType.

Fixpoint all_word (s : string) : bool :=
  match s with
  | EmptyString => true
  | String c r => is_word c && all_word r
  end.

Fixpoint no_word (s : string) : bool :=
  match s with
  | EmptyString => true
  | String c r => negb (is_word c) && no_word r
  end.

(** No line terminator anywhere. *)
Fixpoint one_line (s : string) : bool :=
  match s with
  | EmptyString => true
  | String c r => negb (is_line_terminator c) && one_line r
  end.

(** An object whose class sets [Symbol.toStringTag] to [""], one whose
    class sets it to ["My-Class"], and a [div] element. *)
Definition tagged_heap : heap :=
  [ Obj (OtherPrototype (Some "")) SOrdinary [];
    Obj (OtherPrototype (Some "My-Class")) SOrdinary [];
    Obj (ElementPrototype (Some "HTMLDivElement")) SOrdinary [] ].

(** * Properties *)

(** ** Evaluation lemmas *)

Lemma every_true {A} (f : A -> outcome bool) l :
  every f l = Return true <-> Forall (fun a => f a = Return true) l.
Proof.
  induction l as [|a l IH]; simpl.
  - split; auto.
  - destruct (f a) as [[]|e] eqn:E.
    + rewrite IH. split; [intros; constructor; auto | inversion 1; auto].
    + split; [discriminate | inversion 1; congruence].
    + split; [discriminate | inversion 1; congruence].
Qed.

Lemma every_false {A} (f : A -> outcome bool) l :
  Forall (fun a => exists b, f a = Return b) l ->
  Exists (fun a => f a = Return false) l ->
  every f l = Return false.
Proof.
  induction 1 as [|a l [b Hb] Hl IH]; intros Hex.
  - inversion Hex.
  - simpl. rewrite Hb. destruct b; [|done].
    apply IH. inversion Hex; subst; [congruence | done].
Qed.

Lemma mTypeof_ref h l o :
  h !! l = Some o -> mTypeof (VRef l) h = Return (tag o).
Proof. intros H. simpl. unfold lookup_object. now rewrite H. Qed.

Lemma mTypeof_record h l o :
  h !! l = Some o -> is_record o -> mTypeof (VRef l) h = Return "object".
Proof. intros H T. now rewrite (mTypeof_ref _ _ _ H), T. Qed.

Lemma tag_array o es : is_array o es -> tag o = "array".
Proof.
  intros [P S]. unfold tag, instanceof_Element, class_of, builtinTag.
  now rewrite P, S.
Qed.

Lemma tag_set o es : is_set o es -> tag o = "set".
Proof. intros [P S]. unfold tag, instanceof_Element, class_of. now rewrite P. Qed.

Lemma tag_map o es : is_map o es -> tag o = "map".
Proof. intros [P S]. unfold tag, instanceof_Element, class_of. now rewrite P. Qed.

Lemma tag_date o t : is_date o t -> tag o = "date".
Proof.
  intros [P S]. unfold tag, instanceof_Element, class_of, builtinTag.
  now rewrite P, S.
Qed.


Lemma mTypeof_array h l o es :
  h !! l = Some o -> is_array o es -> mTypeof (VRef l) h = Return "array".
Proof. intros H T. now rewrite (mTypeof_ref _ _ _ H), (tag_array _ _ T). Qed.

Lemma mTypeof_set h l o es :
  h !! l = Some o -> is_set o es -> mTypeof (VRef l) h = Return "set".
Proof. intros H T. now rewrite (mTypeof_ref _ _ _ H), (tag_set _ _ T). Qed.

Lemma mTypeof_map h l o es :
  h !! l = Some o -> is_map o es -> mTypeof (VRef l) h = Return "map".
Proof. intros H T. now rewrite (mTypeof_ref _ _ _ H), (tag_map _ _ T). Qed.

Lemma mTypeof_date h l o t :
  h !! l = Some o -> is_date o t -> mTypeof (VRef l) h = Return "date".
Proof. intros H T. now rewrite (mTypeof_ref _ _ _ H), (tag_date _ _ T). Qed.


Lemma deref_ref h l o : h !! l = Some o -> deref (VRef l) h = Return (l, o).
Proof. intros H. simpl. unfold lookup_object. now rewrite H. Qed.

Lemma entries_set h l o es :
  h !! l = Some o -> is_set o es -> entries (VRef l) h = Return (set_entry <$> es).
Proof.
  intros H [P S]. unfold entries. rewrite (deref_ref _ _ _ H). simpl.
  now rewrite P, S.
Qed.

Lemma entries_map h l o es :
  h !! l = Some o -> is_map o es -> entries (VRef l) h = Return es.
Proof.
  intros H [P S]. unfold entries. rewrite (deref_ref _ _ _ H). simpl.
  now rewrite P, S.
Qed.

Lemma array_elements_ref h l o es :
  h !! l = Some o -> is_array o es -> array_elements (VRef l) h = Return es.
Proof.
  intros H [P S]. unfold array_elements. rewrite (deref_ref _ _ _ H). simpl.
  now rewrite P, S.
Qed.

(** The switch of [isObjectEqual], case by case. *)
Lemma isObjectEqual_records fuel h l1 l2 o1 o2 ex :
  h !! l1 = Some o1 -> h !! l2 = Some o2 -> is_record o1 -> is_record o2 ->
  isObjectEqual (S fuel) h (VRef l1) (VRef l2) ex =
  equal_objects (fun a b => isObjectEqual fuel h a b ex) h ex (VRef l1) (VRef l2).
Proof.
  intros H1 H2 R1 R2. cbn [isObjectEqual].
  now rewrite (mTypeof_record _ _ _ H1 R1), (mTypeof_record _ _ _ H2 R2).
Qed.

Lemma isObjectEqual_arrays fuel h l1 l2 o1 o2 e1 e2 ex :
  h !! l1 = Some o1 -> h !! l2 = Some o2 -> is_array o1 e1 -> is_array o2 e2 ->
  isObjectEqual (S fuel) h (VRef l1) (VRef l2) ex =
  equal_arrays (fun a b => isObjectEqual fuel h a b ex) h (VRef l1) (VRef l2).
Proof.
  intros H1 H2 R1 R2. cbn [isObjectEqual].
  now rewrite (mTypeof_array _ _ _ _ H1 R1), (mTypeof_array _ _ _ _ H2 R2).
Qed.

Lemma isObjectEqual_sets fuel h l1 l2 o1 o2 e1 e2 ex :
  h !! l1 = Some o1 -> h !! l2 = Some o2 -> is_set o1 e1 -> is_set o2 e2 ->
  isObjectEqual (S fuel) h (VRef l1) (VRef l2) ex =
  equal_entries h (VRef l1) (VRef l2).
Proof.
  intros H1 H2 R1 R2. cbn [isObjectEqual].
  now rewrite (mTypeof_set _ _ _ _ H1 R1), (mTypeof_set _ _ _ _ H2 R2).
Qed.

Lemma isObjectEqual_maps fuel h l1 l2 o1 o2 e1 e2 ex :
  h !! l1 = Some o1 -> h !! l2 = Some o2 -> is_map o1 e1 -> is_map o2 e2 ->
  isObjectEqual (S fuel) h (VRef l1) (VRef l2) ex =
  equal_entries h (VRef l1) (VRef l2).
Proof.
  intros H1 H2 R1 R2. cbn [isObjectEqual].
  now rewrite (mTypeof_map _ _ _ _ H1 R1), (mTypeof_map _ _ _ _ H2 R2).
Qed.

Lemma entries_loop_true e1 e2 :
  length e1 = length e2 ->
  entries_loop e1 e2 = true <-> Forall2 identical_entries e1 e2.
Proof.
  revert e2. induction e1 as [|p e1 IH]; intros [|q e2] Hlen; simpl in *;
    try discriminate.
  - split; auto.
  - destruct (strict_equal p.1 q.1) eqn:K; simpl.
    + destruct (strict_equal p.2 q.2) eqn:V; simpl.
      * rewrite IH by lia.
        split; [intros; constructor; [split|]; auto | inversion 1; auto].
      * split; [discriminate|]. inversion 1 as [|? ? ? ? [_ HV]]. congruence.
    + split; [discriminate|]. inversion 1 as [|? ? ? ? [HK _]]. congruence.
Qed.

Lemma equal_entries_spec h a b ea eb :
  entries a h = Return ea -> entries b h = Return eb ->
  exists r, equal_entries h a b = Return r /\
            (r = true <-> length ea = length eb /\ Forall2 identical_entries ea eb).
Proof.
  intros Ha Hb. unfold equal_entries. rewrite Ha, Hb. simpl.
  destruct (Nat.eqb_spec (length ea) (length eb)) as [E|E]; simpl.
  - eexists; split; [reflexivity|]. rewrite (entries_loop_true _ _ E). tauto.
  - eexists; split; [reflexivity|]. split; [discriminate | tauto].
Qed.

(** ** Structural equality *)

Lemma every_imap_true {A B} (f : B -> outcome bool) (g : nat -> A -> B) l :
  every f (imap g l) = Return true <->
  forall i x, l !! i = Some x -> f (g i x) = Return true.
Proof.
  rewrite every_true, Forall_lookup. split.
  - intros H i x Hx. apply (H i). now rewrite list_lookup_imap, Hx.
  - intros H i y. rewrite list_lookup_imap.
    destruct (l !! i) as [x|] eqn:Hx; simpl; [|discriminate].
    intros [= <-]. eauto.
Qed.

Lemma equal_arrays_true rec h a b e1 e2 :
  array_elements a h = Return e1 -> array_elements b h = Return e2 ->
  equal_arrays rec h a b = Return true <->
  length e1 = length e2 /\
  forall i v, e1 !! i = Some (Some v) -> rec v (Get_index e2 i) = Return true.
Proof.
  intros Ha Hb. unfold equal_arrays. rewrite Ha, Hb. simpl.
  destruct (Nat.eqb_spec (length e1) (length e2)) as [E|E]; simpl.
  - rewrite every_imap_true. split.
    + intros H. split; [done|]. intros i v Hv. apply (H i _ Hv).
    + intros [_ H] i [v|] Hx; [eauto | done].
  - split; [discriminate | tauto].
Qed.

Lemma equal_objects_unfold rec h ex l1 l2 o1 o2 :
  h !! l1 = Some o1 -> h !! l2 = Some o2 ->
  equal_objects rec h ex (VRef l1) (VRef l2) =
  if negb (length (Object_keys o1) =? length (Object_keys o2))%nat
  then Return false
  else every (fun k =>
                if excluded ex k then Return true
                else v1 ← Get o1 (KString k);
                     v2 ← Get o2 (KString k);
                     rec v1 v2) (Object_keys o1).
Proof.
  intros H1 H2. unfold equal_objects.
  now rewrite (deref_ref _ _ _ H1), (deref_ref _ _ _ H2).
Qed.

(** C5.  Set and Map equality: on two maps, or on two sets,
    [isObjectEqual] returns a boolean, and it is [true] exactly when both
    hold the same number of entries and the entries met at each step of the
    two insertion-order iterations have identical keys and identical
    values.  The comparison follows positions, not membership. *)
Theorem set_map_equality_is_positional
    fuel h (a b : loc) oa ob ea eb excludes :
  h !! a = Some oa -> h !! b = Some ob ->
  (is_map oa ea /\ is_map ob eb) \/
  (exists xs ys, is_set oa xs /\ is_set ob ys /\
                 ea = set_entry <$> xs /\ eb = set_entry <$> ys) ->
  exists r,
    isObjectEqual (S fuel) h (VRef a) (VRef b) excludes = Return r /\
    (r = true <-> length ea = length eb /\ Forall2 identical_entries ea eb).
Proof.
  intros Ha Hb [[Ma Mb] | (xs & ys & Sa & Sb & -> & ->)].
  - rewrite (isObjectEqual_maps fuel h a b oa ob ea eb excludes Ha Hb Ma Mb).
    apply equal_entries_spec; eauto using entries_map.
  - rewrite (isObjectEqual_sets fuel h a b oa ob xs ys excludes Ha Hb Sa Sb).
    apply equal_entries_spec; eauto using entries_set.
Qed.

(** Order sensitivity: the sets [{1, 2}] and [{2, 1}] compare unequal. *)
Lemma set_equality_order_sensitive :
  isObjectEqual 1 order_heap (VRef 0) (VRef 1) (Some ["key"]) = Return false.
Proof.
  destruct (set_map_equality_is_positional 0 order_heap 0 1
              (set_of [num 1; num 2]) (set_of [num 2; num 1])
              (set_entry <$> [num 1; num 2]) (set_entry <$> [num 2; num 1])
              (Some ["key"]) eq_refl eq_refl) as [r [Hr Hiff]].
  - right. exists [num 1; num 2], [num 2; num 1]. repeat split.
  - destruct r; [|exact Hr].
    destruct Hiff as [Hiff _]. destruct (Hiff eq_refl) as [_ HF].
    inversion HF as [|? ? ? ? [HK _] _]. vm_compute in HK. discriminate.
Defined.

(** C6.  Exclusion list: two records compare equal exactly when they have
    the same number of keys and every key of the first is excluded or holds
    recursively equal values; an excluded key matches whatever the two
    values are.  A different number of keys, or a key that is not excluded
    and holds unequal values, makes the records unequal. *)
Theorem record_equality_with_exclusions
    fuel h (l1 l2 : loc) o1 o2 excludes :
  h !! l1 = Some o1 -> h !! l2 = Some o2 -> is_record o1 -> is_record o2 ->
  let keys1 := Object_keys o1 in
  let keys2 := Object_keys o2 in
  let compared k b :=
    exists v1 v2, Get o1 (KString k) = Return v1 /\
                  Get o2 (KString k) = Return v2 /\
                  isObjectEqual fuel h v1 v2 excludes = Return b in
  let result := isObjectEqual (S fuel) h (VRef l1) (VRef l2) excludes in
  (result = Return true <->
     length keys1 = length keys2 /\
     forall k, k ∈ keys1 -> excluded excludes k = true \/ compared k true) /\
  (length keys1 <> length keys2 -> result = Return false) /\
  (length keys1 = length keys2 ->
   (forall k, k ∈ keys1 -> excluded excludes k = false -> exists b, compared k b) ->
   (exists k, k ∈ keys1 /\ excluded excludes k = false /\ compared k false) ->
   result = Return false).
Proof.
  intros H1 H2 R1 R2 keys1 keys2 compared result.
  assert (Hres : result =
    if negb (length keys1 =? length keys2)%nat then Return false
    else every (fun k =>
                  if excluded excludes k then Return true
                  else v1 ← Get o1 (KString k);
                       v2 ← Get o2 (KString k);
                       isObjectEqual fuel h v1 v2 excludes) keys1).
  { unfold result. rewrite (isObjectEqual_records fuel h l1 l2 o1 o2 excludes H1 H2 R1 R2).
    now rewrite (equal_objects_unfold _ h excludes l1 l2 o1 o2 H1 H2). }
  assert (Hcmp : forall k b, excluded excludes k = false ->
            ((v1 ← Get o1 (KString k); v2 ← Get o2 (KString k);
              isObjectEqual fuel h v1 v2 excludes) = Return b <-> compared k b)).
  { intros k b _. unfold compared. split.
    - destruct (Get o1 (KString k)) as [v1|]; simpl; [|discriminate].
      destruct (Get o2 (KString k)) as [v2|]; simpl; [|discriminate]. eauto.
    - intros (v1 & v2 & -> & -> & E). exact E. }
  rewrite Hres. clear Hres.
  destruct (Nat.eqb_spec (length keys1) (length keys2)) as [E|E]; simpl.
  - split; [|split; [tauto|]].
    + rewrite every_true, Forall_forall. split.
      * intros H. split; [done|]. intros k Hk. specialize (H k Hk).
        destruct (excluded excludes k) eqn:X; [tauto|].
        right. now apply Hcmp.
      * intros [_ H] k Hk. destruct (excluded excludes k) eqn:X; [done|].
        destruct (H k Hk) as [?|?]; [congruence|]. now apply Hcmp.
    + intros _ Hall (k & Hk & X & Hf). apply every_false.
      * apply Forall_forall. intros k' Hk'.
        destruct (excluded excludes k') eqn:X'; [eauto|].
        destruct (Hall k' Hk' X') as [b Hb]. exists b. now apply Hcmp.
      * apply Exists_exists. exists k. split; [done|]. rewrite X. now apply Hcmp.
  - split; [|split; [tauto|tauto]].
    split; [discriminate | tauto].
Qed.

(** The two examples of the specification:
    [equal({key:1, val:2}, {key:99, val:2}, ["key"])] is [true] and
    [equal({key:1, val:2}, {key:1, val:3}, ["key"])] is [false]. *)
Lemma exclusion_examples :
  isObjectEqual 2 exclusion_heap (VRef 0) (VRef 1) (Some ["key"]) = Return true /\
  isObjectEqual 2 exclusion_heap (VRef 0) (VRef 2) (Some ["key"]) = Return false.
Proof.
  split.
  - apply (record_equality_with_exclusions 1 exclusion_heap 0 1 _ _ (Some ["key"])
             eq_refl eq_refl eq_refl eq_refl).
    split; [reflexivity|]. intros k Hk.
    apply list_elem_of_In in Hk. destruct Hk as [<-|[<-|[]]].
    + left. reflexivity.
    + right. exists (num 2), (num 2). repeat split.
  - apply (record_equality_with_exclusions 1 exclusion_heap 0 2 _ _ (Some ["key"])
             eq_refl eq_refl eq_refl eq_refl).
    + reflexivity.
    + intros k Hk X. apply list_elem_of_In in Hk. destruct Hk as [<-|[<-|[]]].
      * discriminate.
      * exists false, (num 2), (num 3). repeat split.
    + exists "val". split; [apply list_elem_of_In; simpl; tauto|].
      split; [reflexivity|]. exists (num 2), (num 3). repeat split.
Defined.

Lemma distinct_objects_not_identical p q :
  distinct_objects p q -> ~ identical_entries p q.
Proof.
  intros [(x & y & Hp & Hq & Hne) | (x & y & Hp & Hq & Hne)] [HK HV].
  - rewrite Hp, Hq in HK. simpl in HK. apply Nat.eqb_eq in HK. contradiction.
  - rewrite Hp, Hq in HV. simpl in HV. apply Nat.eqb_eq in HV. contradiction.
Qed.

Lemma entries_comparison fuel h (a b : loc) oa ob ea eb excludes :
  h !! a = Some oa -> h !! b = Some ob ->
  (is_map oa ea /\ is_map ob eb) \/
  (exists xs ys, is_set oa xs /\ is_set ob ys /\
                 ea = set_entry <$> xs /\ eb = set_entry <$> ys) ->
  exists r,
    isObjectEqual (S fuel) h (VRef a) (VRef b) excludes = Return r /\
    (r = true <-> length ea = length eb /\ Forall2 identical_entries ea eb).
Proof.
  intros Ha Hb [[Ma Mb] | (xs & ys & Sa & Sb & -> & ->)].
  - rewrite (isObjectEqual_maps fuel h a b oa ob ea eb excludes Ha Hb Ma Mb).
    apply equal_entries_spec; eauto using entries_map.
  - rewrite (isObjectEqual_sets fuel h a b oa ob xs ys excludes Ha Hb Sa Sb).
    apply equal_entries_spec; eauto using entries_set.
Qed.

(** C8.  The entries of two sets (or two maps) are compared by identity and
    not recursively.  Take two sets, or two maps, whose entries hold place
    by place values that [isObjectEqual] finds equal, so that the arrays of
    these values compare equal.  The two collections compare equal when
    their entries are identical ([===]) place by place, and unequal as soon
    as some place holds two entries that are not identical, two distinct
    objects in particular, however the two objects compare. *)
Theorem set_map_entries_compared_by_identity
    fuel h (s1 s2 a1 a2 : loc) os1 os2 oa1 oa2 e1 e2 excludes :
  h !! s1 = Some os1 -> h !! s2 = Some os2 ->
  (is_map os1 e1 /\ is_map os2 e2) \/
  (exists xs ys, is_set os1 xs /\ is_set os2 ys /\
                 e1 = set_entry <$> xs /\ e2 = set_entry <$> ys) ->
  h !! a1 = Some oa1 -> h !! a2 = Some oa2 ->
  is_array oa1 (Some <$> e1.*2) -> is_array oa2 (Some <$> e2.*2) ->
  Forall2 (fun x y => isObjectEqual fuel h x y excludes = Return true)
          e1.*2 e2.*2 ->
  isObjectEqual (S fuel) h (VRef a1) (VRef a2) excludes = Return true /\
  (Forall2 identical_entries e1 e2 ->
   isObjectEqual (S fuel) h (VRef s1) (VRef s2) excludes = Return true) /\
  ((exists i p q, e1 !! i = Some p /\ e2 !! i = Some q /\
                  (distinct_objects p q \/ ~ identical_entries p q)) ->
   isObjectEqual (S fuel) h (VRef s1) (VRef s2) excludes = Return false).
Proof.
  intros Hs1 Hs2 Hkind Ha1 Ha2 A1 A2 Heq.
  destruct (entries_comparison fuel h s1 s2 os1 os2 e1 e2 excludes
              Hs1 Hs2 Hkind) as [r [Hr Hiff]].
  split; [|split].
  - rewrite (isObjectEqual_arrays fuel h a1 a2 oa1 oa2 _ _ excludes Ha1 Ha2 A1 A2).
    apply (equal_arrays_true _ h (VRef a1) (VRef a2) (Some <$> e1.*2) (Some <$> e2.*2)).
    + eapply array_elements_ref; eauto.
    + eapply array_elements_ref; eauto.
    + split.
      * rewrite !length_fmap. rewrite <- !(length_fmap snd).
        eapply Forall2_length; eauto.
      * intros j v Hv. rewrite list_lookup_fmap in Hv.
        destruct (e1.*2 !! j) as [x|] eqn:Hx; simpl in Hv; [|discriminate].
        injection Hv as ->.
        destruct (Forall2_lookup_l _ _ _ j v Heq Hx) as (y & Hy & Hxy).
        unfold Get_index. rewrite list_lookup_fmap, Hy. exact Hxy.
  - intros HF. rewrite Hr. f_equal. apply Hiff.
    split; [eapply Forall2_length; eauto | exact HF].
  - intros (i & p & q & Hp & Hq & Hd).
    destruct r; [|exact Hr]. exfalso.
    destruct Hiff as [Hiff _]. destruct (Hiff eq_refl) as [_ HF].
    pose proof (Forall2_lookup_lr _ _ _ i p q HF Hp Hq) as Hid.
    destruct Hd as [Hd | Hd]; [|now apply Hd].
    now apply (distinct_objects_not_identical p q Hd).
Qed.

(** The example of the claim: [equal(new Set([{a:1}]), new Set([{a:1}]))]
    is [false] and [equal([{a:1}], [{a:1}])] is [true]; two sets that hold
    the same record, [r = {a:1}; equal(new Set([r]), new Set([r]))], are
    equal. *)
Lemma set_of_equal_records_unequal :
  isObjectEqual 3 identity_heap (VRef 2) (VRef 3) (Some ["key"]) = Return false /\
  isObjectEqual 3 identity_heap (VRef 4) (VRef 5) (Some ["key"]) = Return true /\
  isObjectEqual 3 identity_heap (VRef 2) (VRef 6) (Some ["key"]) = Return true.
Proof.
  destruct (set_map_entries_compared_by_identity 2 identity_heap 2 3 4 5
              (set_of [VRef 0]) (set_of [VRef 1])
              (array_of [VRef 0]) (array_of [VRef 1])
              (set_entry <$> [VRef 0]) (set_entry <$> [VRef 1]) (Some ["key"])
              eq_refl eq_refl) as (Harr & _ & Hne).
  - right. exists [VRef 0], [VRef 1]. repeat split.
  - reflexivity.
  - reflexivity.
  - split; reflexivity.
  - split; reflexivity.
  - repeat constructor.
  - destruct (set_map_entries_compared_by_identity 2 identity_heap 2 6 4 4
                (set_of [VRef 0]) (set_of [VRef 0])
                (array_of [VRef 0]) (array_of [VRef 0])
                (set_entry <$> [VRef 0]) (set_entry <$> [VRef 0]) (Some ["key"])
                eq_refl eq_refl) as (_ & Hsame & _).
    + right. exists [VRef 0], [VRef 0]. repeat split.
    + reflexivity.
    + reflexivity.
    + split; reflexivity.
    + split; reflexivity.
    + repeat constructor.
    + split; [|split; [exact Harr|]].
      * apply Hne. exists 0, (VRef 0, VRef 0), (VRef 1, VRef 1).
        repeat split. left. left. exists 0, 1. repeat split. discriminate.
      * apply Hsame. repeat constructor.
Defined.

(** C9.  With a non-empty exclusion list the comparison is not symmetric:
    [{key: 1}] equals [{other: 2}] under the list [["key"]], since every key
    of the first argument is excluded, and [{other: 2}] does not equal
    [{key: 1}], since [other] is not excluded and is read as [2] on one
    side and [undefined] on the other.  Only the keys of the first argument
    are traversed and tested against the list. *)
Theorem equality_with_exclusion_not_symmetric :
  exists (h : heap) (a b : loc) oa ob (excludes : list string),
    h !! a = Some oa /\ h !! b = Some ob /\ is_record oa /\ is_record ob /\
    excludes <> [] /\
    Forall (fun k => excluded (Some excludes) k = true) (Object_keys oa) /\
    Exists (fun k => excluded (Some excludes) k = false) (Object_keys ob) /\
    forall fuel,
      isObjectEqual (S (S fuel)) h (VRef a) (VRef b) (Some excludes) = Return true /\
      isObjectEqual (S (S fuel)) h (VRef b) (VRef a) (Some excludes) = Return false.
Proof.
  exists asymmetry_heap, 0, 1, (record [("key", num 1)]),
    (record [("other", num 2)]), ["key"].
  repeat split; try discriminate.
  - repeat constructor.
  - repeat constructor.
Qed.

(** ** The heap monad *)

Lemma bind_unfold {A B} (m : M A) (f : A -> M B) h :
  (m ≫= f) h = match m h with
                | (h', Return a) => f a h'
                | (h', Fail e) => (h', Fail e)
                end.
Proof. reflexivity. Qed.

Lemma bind_inv {A B} (m : M A) (f : A -> M B) h h' r :
  (m ≫= f) h = (h', r) ->
  (exists h1 a, m h = (h1, Return a) /\ f a h1 = (h', r)) \/
  (exists e, m h = (h', Fail e) /\ r = Fail e).
Proof.
  rewrite bind_unfold. destruct (m h) as [h1 [a|e]]; intros H.
  - left. eauto.
  - right. injection H as <- <-. eauto.
Qed.

Lemma bind_return {A B} (m : M A) (f : A -> M B) h h1 a :
  m h = (h1, Return a) -> (m ≫= f) h = f a h1.
Proof. intros H. now rewrite bind_unfold, H. Qed.

Lemma bind_fail {A B} (m : M A) (f : A -> M B) h h1 e :
  m h = (h1, Fail e) -> (m ≫= f) h = (h1, Fail e).
Proof. intros H. now rewrite bind_unfold, H. Qed.

Lemma bind_reading {A B} (g : heap -> outcome A) (f : A -> M B) h :
  (reading g ≫= f) h = match g h with
                        | Return a => f a h
                        | Fail e => (h, Fail e)
                        end.
Proof. rewrite bind_unfold. unfold reading. now destruct (g h). Qed.

Lemma bind_alloc {B} o (f : loc -> M B) h :
  (alloc o ≫= f) h = f (length h) (h ++ [o]).
Proof. reflexivity. Qed.

(** ** Frame rules *)

Lemma preserved_refl P h : preserved P h h.
Proof. split; auto. Qed.

Lemma preserved_trans P h1 h2 h3 :
  preserved P h1 h2 -> preserved P h2 h3 -> preserved P h1 h3.
Proof.
  intros [L1 H1] [L2 H2]. split; [lia|].
  intros l Pl Hl. rewrite H2 by (auto; lia). auto.
Qed.

Lemma preserved_weaken (P Q : loc -> Prop) h h' :
  (forall l, Q l -> P l) -> preserved P h h' -> preserved Q h h'.
Proof. intros HPQ [L H]. split; auto. Qed.

Lemma preserved_prefix h h' : preserved (fun _ => True) h h' -> h `prefix_of` h'.
Proof.
  intros [L H]. exists (drop (length h) h').
  rewrite <- (take_drop (length h) h') at 1. f_equal.
  apply list_eq. intros i. destruct (decide (i < length h)) as [Hi|Hi].
  - rewrite lookup_take_lt by lia. auto.
  - rewrite lookup_take_ge by lia. symmetry. apply lookup_ge_None. lia.
Qed.

Lemma framed_weaken {A} (P Q : loc -> Prop) (m : M A) :
  (forall l, Q l -> P l) -> framed P m -> framed Q m.
Proof. intros HPQ Hm h h' r E. eapply preserved_weaken; eauto. Qed.

Lemma framed_ret {A} P (a : A) : framed P (mret a).
Proof. intros h h' r [= <- <-]. apply preserved_refl. Qed.

Lemma framed_fail {A} P e : framed P (@fail A e).
Proof. intros h h' r [= <- <-]. apply preserved_refl. Qed.

Lemma framed_reading {A} P (g : heap -> outcome A) : framed P (reading g).
Proof. intros h h' r [= <- <-]. apply preserved_refl. Qed.

Lemma framed_bind {A B} P (m : M A) (f : A -> M B) :
  framed P m -> (forall a, framed P (f a)) -> framed P (m ≫= f).
Proof.
  intros Hm Hf h h' r E.
  apply bind_inv in E as [(h1 & a & E1 & E2) | (e & E1 & _)].
  - eapply preserved_trans; [eapply Hm | eapply Hf]; eauto.
  - eapply Hm; eauto.
Qed.

(** What is allocated is not an existing location: the rest of the
    computation may write to it. *)
Lemma framed_alloc {B} P o (f : loc -> M B) :
  (forall s, framed (fun l => P l /\ l <> s) (f s)) -> framed P (alloc o ≫= f).
Proof.
  intros Hf h h' r E. rewrite bind_alloc in E.
  apply Hf in E as [L H]. rewrite length_app in L. simpl in L.
  split; [lia|]. intros l Pl Hl.
  rewrite H; [apply lookup_app_l; lia | split; [done | lia] |].
  rewrite length_app. lia.
Qed.

Lemma framed_store P s o : ~ P s -> framed P (store s o).
Proof.
  intros HP h h' r [= <- <-]. split; [now rewrite length_insert|].
  intros l Pl _. apply list_lookup_insert_ne. congruence.
Qed.

Lemma framed_iterate {A} P (body : A -> M unit) items :
  (forall a, framed P (body a)) -> framed P (iterate body items).
Proof.
  intros Hb. induction items as [|a items IH]; simpl.
  - apply framed_ret.
  - apply framed_bind; auto.
Qed.

Ltac framed_step :=
  first
    [ apply framed_ret
    | apply framed_fail
    | apply framed_reading
    | apply framed_store; tauto
    | apply framed_iterate; intros
    | apply framed_alloc; intros
    | apply framed_bind; [|intros] ].

Lemma framed_Put P s k v : ~ P s -> framed P (Put s k v).
Proof.
  intros HP. unfold Put. framed_step; [framed_step|].
  destruct (o_slots a), (assoc k (o_props a)) as [p|];
    try destruct (p_writable p); try destruct (o_proto a);
    try destruct (key_eqb _ _); try destruct v;
    first [ apply framed_fail | apply framed_ret | now apply framed_store ].
Qed.

Lemma framed_define_element P s k v : ~ P s -> framed P (define_element s k v).
Proof.
  intros HP. unfold define_element. framed_step; [framed_step|].
  destruct (o_slots a); first [ apply framed_fail | now apply framed_store ].
Qed.

Lemma framed_Map_set P s k v : ~ P s -> framed P (Map_set s k v).
Proof.
  intros HP. unfold Map_set. framed_step; [framed_step|].
  destruct (o_slots a); first [ apply framed_fail | now apply framed_store ].
Qed.

Lemma framed_Set_add P s v : ~ P s -> framed P (Set_add s v).
Proof.
  intros HP. unfold Set_add. framed_step; [framed_step|].
  destruct (o_slots a); first [ apply framed_fail | now apply framed_store ].
Qed.

Section FramedCases.
Variable rec : value -> M value.
Hypothesis rec_framed : forall P v, framed P (rec v).

Lemma framed_copy_array P val : framed P (copy_array rec val).
Proof.
  unfold copy_array. framed_step; [framed_step|]. destruct a as [l o].
  destruct (o_proto o), (o_slots o); try apply framed_fail.
  framed_step. framed_step; [|framed_step].
  framed_step. destruct a as [k [v|]]; [|framed_step].
  framed_step; [apply rec_framed|]. apply framed_define_element. tauto.
Qed.

Lemma framed_copy_object P val : framed P (copy_object rec val).
Proof.
  unfold copy_object. framed_step; [framed_step|]. destruct a as [l o].
  framed_step. framed_step; [|framed_step].
  framed_step. framed_step; [framed_step|].
  framed_step; [framed_step|].
  framed_step; [apply rec_framed|]. apply framed_Put. tauto.
Qed.

Lemma framed_copy_map P val : framed P (copy_map rec val).
Proof.
  unfold copy_map. framed_step. framed_step; [framed_step|].
  destruct a as [l o].
  destruct (o_proto o), (o_slots o); try apply framed_fail.
  framed_step; [|framed_step].
  framed_step. destruct a as [k v].
  framed_step; [apply rec_framed|]. apply framed_Map_set. tauto.
Qed.

Lemma framed_copy_set P val : framed P (copy_set rec val).
Proof.
  unfold copy_set. framed_step. framed_step; [framed_step|].
  destruct a as [l o].
  destruct (o_proto o), (o_slots o); try apply framed_fail.
  framed_step; [|framed_step].
  framed_step.
  framed_step; [apply rec_framed|]. apply framed_Set_add. tauto.
Qed.
End FramedCases.

Lemma framed_new_RegExp P val : framed P (new_RegExp val).
Proof.
  unfold new_RegExp. framed_step; [framed_step|]. destruct a as [l o].
  destruct (o_slots o); try apply framed_fail. repeat framed_step.
Qed.

Lemma framed_copy_date P val : framed P (copy_date val).
Proof.
  unfold copy_date. framed_step; [framed_step|]. destruct a as [l o].
  destruct (o_proto o), (o_slots o); try apply framed_fail. repeat framed_step.
Qed.

Lemma framed_new_Date P val : framed P (new_Date val).
Proof.
  unfold new_Date. framed_step; [framed_step|]. destruct a as [l o].
  destruct (o_slots o); try apply framed_fail. repeat framed_step.
Qed.

Lemma framed_deepCopy fuel : forall P val, framed P (deepCopy fuel val).
Proof.
  induction fuel as [|fuel IH]; intros P val; simpl.
  - apply framed_fail.
  - framed_step; [framed_step|].
    repeat (match goal with |- framed _ (if ?c then _ else _) => destruct c end);
      auto using framed_copy_array, framed_copy_object, framed_copy_map,
        framed_copy_set, framed_new_RegExp, framed_copy_date, framed_ret.
Qed.

Lemma framed_WeakMap_set P hash obj v : ~ P hash -> framed P (WeakMap_set hash obj v).
Proof.
  intros HP. unfold WeakMap_set. framed_step; [framed_step|].
  destruct obj; try apply framed_fail.
  framed_step; [framed_step|]. now apply framed_store.
Qed.

Lemma framed_copy_property (P : loc -> Prop) rec obj hash cloneObj key :
  (forall v, framed P (rec v (Some hash))) -> ~ P cloneObj ->
  framed P (copy_property rec obj hash cloneObj key).
Proof.
  intros Hrec HP. unfold copy_property.
  repeat first
    [ apply framed_ret | apply framed_reading | apply Hrec
    | apply framed_Put; tauto
    | apply framed_bind; [|intros]
    | match goal with |- framed _ (if ?c then _ else _) => destruct c end ].
Qed.

Lemma framed_deepCopy1 fuel :
  forall obj hash, framed (fun l => Some l <> hash) (deepCopy1 fuel obj hash).
Proof.
  induction fuel as [|fuel IH]; intros obj hash; [apply framed_fail|].
  assert (Hbody : forall (P : loc -> Prop) w, ~ P w ->
    framed P (
      isDate ← reading (instanceof_Date obj);
      if (isDate : bool) then new_Date obj else
      isRegExp ← reading (instanceof_RegExp obj);
      if (isRegExp : bool) then new_RegExp obj else
      seen ← reading (WeakMap_has w obj);
      if (seen : bool) then reading (WeakMap_get w obj) else
      allDesc ← reading (getOwnPropertyDescriptors obj);
      proto ← reading (getPrototypeOf obj);
      cloneObj ← alloc (Obj proto SOrdinary allDesc);
      WeakMap_set w obj (VRef cloneObj);;
      keys ← reading (Reflect_ownKeys obj);
      iterate (copy_property (deepCopy1 fuel) obj w cloneObj) keys;;
      mret (VRef cloneObj))).
  { intros P w HP.
    repeat first
      [ apply framed_ret | apply framed_fail | apply framed_reading
      | apply framed_new_Date | apply framed_new_RegExp
      | apply framed_WeakMap_set; tauto
      | apply framed_iterate; intros
      | apply framed_alloc; intros
      | apply framed_copy_property; [intros|tauto]
      | apply framed_bind; [|intros]
      | match goal with |- framed _ (if ?c then _ else _) => destruct c end ].
    eapply framed_weaken; [|apply IH]. intros l [Pl _] [= ->]. tauto. }
  destruct hash as [w|].
  - apply (Hbody (fun l => Some l <> Some w) w). congruence.
  - cbn [deepCopy1]. unfold new_WeakMap. apply framed_alloc. intros s.
    apply (Hbody _ s). tauto.
Qed.

(** ** The clone functions and the heap *)

Lemma lookup_object_app_l h k l o :
  h !! l = Some o -> lookup_object l (h ++ k) = Return o.
Proof.
  intros H. unfold lookup_object.
  rewrite lookup_app_l by (eapply lookup_lt_Some; eauto). now rewrite H.
Qed.

Lemma lookup_object_new h o : lookup_object (length h) (h ++ [o]) = Return o.
Proof. unfold lookup_object. now rewrite list_lookup_middle. Qed.

Lemma deepCopy_frame fuel val h h' r :
  deepCopy fuel val h = (h', r) -> h `prefix_of` h'.
Proof. intros E. apply preserved_prefix. eapply framed_deepCopy; eauto. Qed.

Lemma deepCopy1_frame fuel val h h' r :
  deepCopy1 fuel val None h = (h', r) -> h `prefix_of` h'.
Proof.
  intros E. apply preserved_prefix.
  eapply preserved_weaken; [|eapply framed_deepCopy1; eauto]. done.
Qed.

(** A call without second argument runs with a registry that is new and
    empty. *)
Lemma deepCopy1_default fuel obj h :
  deepCopy1 (S fuel) obj None h =
  deepCopy1 (S fuel) obj (Some (length h)) (h ++ [empty_WeakMap]).
Proof. reflexivity. Qed.

Lemma WeakMap_has_empty h obj :
  WeakMap_has (length h) obj (h ++ [empty_WeakMap]) = Return false.
Proof.
  unfold WeakMap_has, weak_entries. rewrite lookup_object_new. simpl.
  now destruct obj.
Qed.

(** What a call without second argument returns is an object the call
    allocated. *)
Lemma deepCopy1_result_fresh fuel obj h h' r :
  deepCopy1 fuel obj None h = (h', Return r) ->
  exists c, r = VRef c /\ length h <= c < length h'.
Proof.
  destruct fuel as [|fuel]; [discriminate|].
  rewrite deepCopy1_default. cbn [deepCopy1].
  set (h0 := h ++ [empty_WeakMap]).
  assert (L0 : length h0 = S (length h))
    by (unfold h0; rewrite length_app; simpl; lia).
  change (mret (length h) ≫= ?f) with (f (length h)). cbv beta.
  rewrite bind_reading. destruct (instanceof_Date obj h0) as [[]|]; [| |discriminate].
  { unfold new_Date. rewrite bind_reading.
    destruct (deref obj h0) as [[l o]|]; [|discriminate].
    destruct (o_slots o); try discriminate.
    rewrite bind_alloc. intros [= <- <-]. eexists; split; [reflexivity|].
    rewrite length_app. simpl. lia. }
  rewrite bind_reading. destruct (instanceof_RegExp obj h0) as [[]|]; [| |discriminate].
  { unfold new_RegExp. rewrite bind_reading.
    destruct (deref obj h0) as [[l o]|]; [|discriminate].
    destruct (o_slots o); try discriminate.
    rewrite bind_alloc. intros [= <- <-]. eexists; split; [reflexivity|].
    rewrite length_app. simpl. lia. }
  rewrite bind_reading. unfold h0 at 1. rewrite WeakMap_has_empty.
  rewrite bind_reading. destruct (getOwnPropertyDescriptors obj h0); [|discriminate].
  rewrite bind_reading. destruct (getPrototypeOf obj h0); [|discriminate].
  rewrite bind_alloc. intros E.
  apply bind_inv in E as [(h1 & [] & E1 & E) | (e & _ & ?)]; [|discriminate].
  apply bind_inv in E as [(h2 & ks & E2 & E) | (e & _ & ?)]; [|discriminate].
  apply bind_inv in E as [(h3 & [] & E3 & E) | (e & _ & ?)]; [|discriminate].
  injection E as <- <-. eexists; split; [reflexivity|].
  apply (framed_WeakMap_set (fun _ => False)) in E1 as [LE1 _]; [|tauto].
  apply (framed_reading (fun _ => False)) in E2 as [LE2 _].
  assert (LE3 : length h2 <= length h3).
  { eapply (framed_iterate (fun _ => False)) in E3 as [LE3 _]; [exact LE3|].
    intros key. apply framed_copy_property; [|tauto].
    intros v. eapply framed_weaken; [|apply framed_deepCopy1]. intros ? []. }
  rewrite length_app in LE1. simpl in LE1. lia.
Qed.

(** C7.  The input is never mutated: whatever the outcome, the heap either
    clone function leaves behind extends the heap it started from, so every
    object that existed before the call is unchanged and the only effect is
    allocation.  The registry of [deepCopy1] is a new, empty [WeakMap] at
    each call without second argument, and it does not persist: a second
    call on the same input returns another clone. *)
Theorem clone_leaves_input_unchanged fuel val h :
  h `prefix_of` (deepCopy fuel val h).1 /\
  h `prefix_of` (deepCopy1 fuel val None h).1 /\
  deepCopy1 (S fuel) val None h =
    deepCopy1 (S fuel) val (Some (length h)) (h ++ [empty_WeakMap]) /\
  (forall h1 c1 fuel' h2 c2,
     deepCopy1 fuel val None h = (h1, Return c1) ->
     deepCopy1 fuel' val None h1 = (h2, Return c2) ->
     c1 <> c2).
Proof.
  repeat split.
  - destruct (deepCopy fuel val h) as [h' r] eqn:E. eapply deepCopy_frame; eauto.
  - destruct (deepCopy1 fuel val None h) as [h' r] eqn:E.
    eapply deepCopy1_frame; eauto.
  - intros h1 c1 fuel' h2 c2 E1 E2.
    apply deepCopy1_result_fresh in E1 as (l1 & -> & H1).
    apply deepCopy1_result_fresh in E2 as (l2 & -> & H2).
    intros [= ->]. lia.
Qed.

(** On the self-referential record both calls keep the record as it was,
    and two calls of [deepCopy1] return the distinct clones at locations 2
    and 4. *)
Lemma clone_leaves_self_reference_unchanged :
  (deepCopy 3 (VRef 0) self_heap).1 !! 0 = Some (record [("self", VRef 0)]) /\
  (deepCopy1 3 (VRef 0) None self_heap).1 !! 0 = Some (record [("self", VRef 0)]) /\
  VRef 2 <> VRef 4.
Proof.
  destruct (clone_leaves_input_unchanged 3 (VRef 0) self_heap)
    as (F1 & F2 & _ & Hfresh).
  split; [|split].
  - exact (prefix_lookup_Some self_heap _ 0 (record [("self", VRef 0)]) eq_refl F1).
  - exact (prefix_lookup_Some self_heap _ 0 (record [("self", VRef 0)]) eq_refl F2).
  - refine (Hfresh _ (VRef 2) 3 _ (VRef 4) _ _); reflexivity.
Defined.

(** ** Primitives *)

Lemma SFeqb_refl x : x <> S754_nan -> SFeqb x x = true.
Proof.
  intros Hx. unfold SFeqb, SFcompare.
  destruct x as [s|s| |s m e]; try destruct s; try reflexivity; try congruence;
    rewrite Z.compare_refl, Pos.compare_cont_refl; reflexivity.
Qed.

Lemma strict_equal_refl v : v <> VNumber S754_nan -> strict_equal v v = true.
Proof.
  destruct v as [| |b|n|s|l]; simpl; intros Hv; try reflexivity.
  - now destruct b.
  - apply SFeqb_refl. congruence.
  - apply String.eqb_refl.
  - apply Nat.eqb_refl.
Qed.

Lemma deepCopy_primitive fuel h p :
  is_primitive p -> deepCopy (S fuel) p h = (h, Return p).
Proof. now destruct p. Qed.

Lemma deepCopy1_primitive fuel h p :
  is_primitive p -> (deepCopy1 (S fuel) p None h).2 = Fail TypeError.
Proof.
  intros Hp. rewrite deepCopy1_default. cbn [deepCopy1].
  change (mret (length h) ≫= ?f) with (f (length h)). cbv beta.
  assert (Hw : forall o, weak_entries (length h) ((h ++ [empty_WeakMap]) ++ [o])
                         = Return []).
  { intros o. unfold weak_entries.
    rewrite (lookup_object_app_l _ _ _ empty_WeakMap); [done|].
    apply list_lookup_middle. done. }
  destruct p as [| |b|n|s|l]; try contradiction;
    rewrite bind_reading; cbn [instanceof_Date]; cbv beta iota;
    rewrite bind_reading; cbn [instanceof_RegExp]; cbv beta iota;
    rewrite bind_reading, WeakMap_has_empty; cbv beta iota;
    rewrite bind_reading; cbn [getOwnPropertyDescriptors]; cbv beta iota;
    try reflexivity;
    rewrite bind_reading; cbn [getPrototypeOf]; cbv beta iota;
    rewrite bind_alloc;
    unfold WeakMap_set; rewrite !bind_unfold; unfold reading; rewrite Hw;
    reflexivity.
Qed.

(** C4, as amended.  [deepCopy] returns a primitive as it is, leaving the
    heap as it was, so that [deepCopy(p) === p] for every primitive other
    than [NaN] (which is not [===] to itself).  [deepCopy1] called on a
    primitive throws a [TypeError]: it keeps primitives as they are only
    where they are property values. *)
Theorem primitives_are_returned_as_is fuel h p :
  is_primitive p ->
  deepCopy (S fuel) p h = (h, Return p) /\
  (p <> VNumber S754_nan -> strict_equal p p = true) /\
  (deepCopy1 (S fuel) p None h).2 = Fail TypeError.
Proof.
  intros Hp. split; [|split].
  - now apply deepCopy_primitive.
  - apply strict_equal_refl.
  - now apply deepCopy1_primitive.
Qed.

(** [deepCopy("ab")] is ["ab"]; [deepCopy1("ab")] throws. *)
Lemma string_is_returned_as_is :
  deepCopy 1 (VString "ab") [] = ([], Return (VString "ab")) /\
  strict_equal (VString "ab") (VString "ab") = true /\
  (deepCopy1 1 (VString "ab") None []).2 = Fail TypeError.
Proof.
  destruct (primitives_are_returned_as_is 0 [] (VString "ab") I) as (H1 & H2 & H3).
  split; [exact H1|]. split; [|exact H3]. apply H2. discriminate.
Defined.

(** [deepCopy1(5)] does not return [5]: [hash.set(5, cloneObj)] throws. *)
Lemma deepCopy1_rejects_number :
  (deepCopy1 1 (num 5) None []).2 = Fail TypeError.
Proof. reflexivity. Qed.


(** ** Self-reference *)



Lemma step_reading {A B} (g : heap -> outcome A) (f : A -> M B) h a :
  g h = Return a -> (reading g ≫= f) h = f a h.
Proof. intros E. now rewrite bind_reading, E. Qed.

(** [deepCopy1] on [a = {}; a.self = a], step by step. *)
Lemma deepCopy1_self fuel h a :
  h !! a = Some (record [("self", VRef a)]) ->
  deepCopy1 (S (S fuel)) (VRef a) None h =
    (h ++ [registry [(a, VRef (S (length h)))];
           record [("self", VRef (S (length h)))]],
     Return (VRef (S (length h)))).
Proof.
  intros Ha. pose proof (lookup_lt_Some _ _ _ Ha) as La.
  rewrite deepCopy1_default.
  set (w := length h). set (c := S (length h)).
  set (oa := record [("self", VRef a)]) in *.
  set (h0 := h ++ [empty_WeakMap]).
  set (h1 := h0 ++ [oa]).
  set (h2 := <[w := registry [(a, VRef c)]]> h1).
  assert (A0 : h0 !! a = Some oa) by (unfold h0; rewrite lookup_app_l; auto).
  assert (A1 : h1 !! a = Some oa).
  { unfold h1. rewrite lookup_app_l; auto. unfold h0. rewrite length_app. simpl. lia. }
  assert (L0 : length h0 = c) by (unfold h0, c; rewrite length_app; simpl; lia).
  assert (W1 : h1 !! w = Some empty_WeakMap).
  { unfold h1. rewrite lookup_app_l by lia. apply list_lookup_middle. done. }
  assert (A2 : h2 !! a = Some oa).
  { unfold h2. rewrite list_lookup_insert_ne; auto. unfold w. lia. }
  assert (W2 : h2 !! w = Some (registry [(a, VRef c)])).
  { unfold h2. apply list_lookup_insert_eq. eapply lookup_lt_Some; eauto. }
  assert (C2 : h2 !! c = Some oa).
  { unfold h2. rewrite list_lookup_insert_ne by (unfold w, c; lia).
    unfold h1. rewrite <- L0. apply list_lookup_middle. done. }
  cbn [deepCopy1].
  change (mret w ≫= ?f) with (f w). cbv beta.
  rewrite (step_reading _ _ h0 false) by (simpl; unfold lookup_object; now rewrite A0).
  cbv iota.
  rewrite (step_reading _ _ h0 false) by (simpl; unfold lookup_object; now rewrite A0).
  cbv iota.
  rewrite (step_reading _ _ h0 false) by apply WeakMap_has_empty.
  cbv iota.
  rewrite (step_reading _ _ h0 [(KString "self", data_property (VRef a))])
    by (simpl; unfold lookup_object; now rewrite A0).
  rewrite (step_reading _ _ h0 ObjectPrototype)
    by (simpl; unfold lookup_object; now rewrite A0).
  rewrite bind_alloc. rewrite L0. fold oa. change (Obj ObjectPrototype SOrdinary _) with oa.
  fold h1.
  assert (S1 : WeakMap_set w (VRef a) (VRef c) h1 = (h2, Return tt)).
  { unfold WeakMap_set.
    rewrite (step_reading _ _ h1 []) by (unfold weak_entries, lookup_object; now rewrite W1).
    rewrite (step_reading _ _ h1 empty_WeakMap) by (unfold lookup_object; now rewrite W1).
    reflexivity. }
  rewrite (bind_return _ _ _ _ _ S1).
  rewrite (step_reading _ _ h2 [KString "self"])
    by (simpl; unfold lookup_object; now rewrite A2).
  assert (G2 : Get_value (VRef a) (KString "self") h2 = Return (VRef a)).
  { unfold Get_value. now rewrite (deref_ref _ _ _ A2). }
  cbn [iterate]. unfold copy_property at 1.
  rewrite bind_unfold. rewrite bind_unfold.
  rewrite (step_reading _ _ h2 (VRef a)) by exact G2.
  cbn [to_boolean]. rewrite bind_unfold.
  rewrite (step_reading _ _ h2 (VRef a)) by exact G2.
  rewrite (step_reading _ _ h2 "object")
    by (simpl; unfold lookup_object; now rewrite A2).
  cbn [mret M_ret String.eqb Ascii.eqb Bool.eqb]. cbv iota.
  rewrite (step_reading _ _ h2 (VRef a)) by exact G2.
  rewrite bind_unfold.
  change (mret w ≫= ?f) with (f w). cbv beta.
  rewrite (step_reading _ _ h2 false) by (simpl; unfold lookup_object; now rewrite A2).
  cbv iota.
  rewrite (step_reading _ _ h2 false) by (simpl; unfold lookup_object; now rewrite A2).
  cbv iota.
  assert (E2 : weak_entries w h2 = Return [(a, VRef c)])
    by (unfold weak_entries, lookup_object; now rewrite W2).
  rewrite (step_reading _ _ h2 true).
  2:{ unfold WeakMap_has. rewrite E2. simpl. now rewrite Nat.eqb_refl. }
  cbv iota.
  assert (R2 : reading (WeakMap_get w (VRef a)) h2 = (h2, Return (VRef c))).
  { unfold reading, WeakMap_get. rewrite E2. simpl. now rewrite Nat.eqb_refl. }
  rewrite R2.
  assert (P2 : Put c (KString "self") (VRef c) h2 =
               (<[c := record [("self", VRef c)]]> h2, Return tt)).
  { unfold Put.
    rewrite (step_reading _ _ h2 oa) by (unfold lookup_object; now rewrite C2).
    reflexivity. }
  rewrite P2. cbn [mret M_ret]. f_equal.
  unfold h2, h1, h0. rewrite <- app_assoc. cbn [app].
  rewrite !insert_app_r_alt by (rewrite ?length_insert; unfold w, c; lia).
  unfold w, c. replace (length h - length h) with 0 by lia.
  replace (S (length h) - length h) with 1 by lia. reflexivity.
Qed.

(** On the record [a = {}; a.self = a], in any heap: the heap after
    [deepCopy1(a)], for any fuel from 2 on. *)
Lemma deepCopy1_self_record fuel h (a : loc) :
  h !! a = Some (record [("self", VRef a)]) ->
  exists h' (c : loc),
    deepCopy1 (S (S fuel)) (VRef a) None h = (h', Return (VRef c)) /\
    c <> a /\
    h' !! c = Some (record [("self", VRef c)]) /\
    h' !! a = Some (record [("self", VRef a)]) /\
    h' !! length h = Some (registry [(a, VRef c)]).
Proof.
  intros Ha. pose proof (lookup_lt_Some _ _ _ Ha) as La.
  eexists _, (S (length h)). split; [now apply deepCopy1_self|].
  split; [lia|]. split; [|split].
  - rewrite lookup_app_r by lia.
    now replace (S (length h) - length h) with 1 by lia.
  - rewrite lookup_app_l; auto.
  - rewrite lookup_app_r by lia. now rewrite Nat.sub_diag.
Qed.

(** ** Termination and absence of errors of deepCopy *)

Lemma extends_refl h : extends h h.
Proof. intros l o H. exact H. Qed.


Lemma extends_fresh h g : extends h g -> h !! length g = None.
Proof.
  intros E. destruct (h !! length g) as [o|] eqn:Ho; [|done].
  apply E, lookup_lt_Some in Ho. lia.
Qed.

Lemma extends_preserved (P : loc -> Prop) h g g' :
  extends h g -> preserved P g g' -> (forall l o, h !! l = Some o -> P l) ->
  extends h g'.
Proof.
  intros E [_ HP] HhP l o Ho. rewrite HP; eauto.
  eapply lookup_lt_Some, E, Ho.
Qed.

Lemma extends_prefix h g : h `prefix_of` g -> extends h g.
Proof. intros Hp l o Ho. eapply prefix_lookup_Some; eauto. Qed.

Lemma assoc_elem k ps p :
  assoc k ps = Some p -> exists k', (k', p) ∈ ps.
Proof.
  induction ps as [|[k' p'] ps IH]; simpl; [discriminate|].
  destruct (key_eqb k k').
  - intros [= <-]. exists k'. left.
  - intros H. destruct (IH H) as [k'' Hk]. exists k''. now right.
Qed.

Lemma key_eqb_refl k : key_eqb k k = true.
Proof. destruct k; simpl; [apply String.eqb_refl | apply Nat.eqb_refl]. Qed.

Lemma assoc_is_Some k p ps : (k, p) ∈ ps -> is_Some (assoc k ps).
Proof.
  induction ps as [|[k' p'] ps IH]; intros H; [inversion H|]. simpl.
  destruct (key_eqb k k') eqn:E; [eauto|].
  apply elem_of_cons in H as [[= <- <-]|H]; [|auto].
  rewrite key_eqb_refl in E. discriminate.
Qed.

Lemma held_property o k p : (k, p) ∈ own_properties o -> p_value p ∈ held_values o.
Proof.
  intros H. unfold held_values. apply elem_of_app. left.
  apply list_elem_of_fmap. exists (k, p). split; [done|exact H].
Qed.

(** The values [deepCopy] visits are held values. *)
Lemma Object_keys_Get o k :
  k ∈ Object_keys o ->
  exists v, Get o (KString k) = Return v /\ v ∈ held_values o.
Proof.
  intros H. unfold Object_keys in H. apply list_elem_of_omap in H.
  destruct H as ([k' p] & Hin & Hk).
  destruct k' as [s|]; [|discriminate]. destruct (p_enumerable p); [|discriminate].
  injection Hk as ->.
  destruct (assoc_is_Some _ _ _ Hin) as [p' Hp'].
  exists (p_value p'). unfold Get. rewrite Hp'. split; [done|].
  destruct (assoc_elem _ _ _ Hp') as [k'' Hk'']. eapply held_property; eauto.
Qed.

Lemma array_element_held o es k v :
  is_array o es -> es !! k = Some (Some v) -> v ∈ held_values o.
Proof.
  intros [_ S] Hk.
  apply (held_property o (KString (pretty k)) (data_property v)).
  unfold own_properties. rewrite S. apply elem_of_app. left.
  unfold index_properties. apply list_elem_of_omap.
  exists (k, Some v). split; [|done].
  apply list_elem_of_lookup. exists k. now rewrite list_lookup_imap, Hk.
Qed.

Lemma map_value_held o es k v : is_map o es -> (k, v) ∈ es -> v ∈ held_values o.
Proof.
  intros [_ S] H. unfold held_values. rewrite S. apply elem_of_app. right.
  apply elem_of_app. right. apply list_elem_of_fmap. now exists (k, v).
Qed.

Lemma set_element_held o es v : is_set o es -> v ∈ es -> v ∈ held_values o.
Proof.
  intros [_ S] H. unfold held_values. rewrite S. apply elem_of_app. now right.
Qed.

(** A loop ends well when each round does, under an invariant of the heap. *)
Lemma iterate_good {A} tolerated (I : heap -> Prop) (body : A -> M unit) items :
  (forall a g g' r, a ∈ items -> I g -> body a g = (g', r) ->
     good tolerated r /\ (r = Return tt -> I g')) ->
  forall g, I g -> good tolerated (iterate body items g).2.
Proof.
  induction items as [|a items IH]; intros Hb g Hg; simpl; [done|].
  rewrite bind_unfold. destruct (body a g) as [g' r] eqn:E.
  destruct (Hb a g g' r (list_elem_of_here _ _) Hg E) as [Hr HI].
  destruct r as [[]|e]; [|exact Hr].
  apply IH; [|auto]. intros a' g1 g1' r' Ha'. apply Hb. now right.
Qed.

Lemma extends_insert h g s x :
  extends h g -> h !! s = None -> extends h (<[s := x]> g).
Proof.
  intros E Hs l o Hl. rewrite list_lookup_insert_ne; [auto|]. congruence.
Qed.

Lemma extends_alloc h g x : extends h g -> extends h (g ++ [x]).
Proof.
  intros E l o Hl. rewrite lookup_app_l; [auto|]. eapply lookup_lt_Some; eauto.
Qed.

Lemma update_property_writable k v ps :
  Forall (fun kp => p_writable kp.2 = true) ps ->
  Forall (fun kp => p_writable kp.2 = true) (update_property k v ps).
Proof.
  induction 1 as [|[k' p] ps Hp Hps IH]; simpl; [constructor|].
  destruct (key_eqb k k'); constructor; auto.
Qed.

Lemma bounded_forall {A} (P : nat -> A -> Prop) (l : list A) :
  (forall a, a ∈ l -> exists n, forall m, n <= m -> P m a) ->
  exists n, forall m, n <= m -> forall a, a ∈ l -> P m a.
Proof.
  induction l as [|a l IH]; intros H.
  - exists 0. intros m _ a Ha. inversion Ha.
  - destruct (H a (list_elem_of_here _ _)) as [n1 H1].
    destruct IH as [n2 H2]; [intros a' Ha'; apply H; now right|].
    exists (n1 `max` n2). intros m Hm a' Ha'.
    apply elem_of_cons in Ha' as [->|Ha']; [apply H1 | apply H2]; auto; lia.
Qed.

Lemma imap_pair_elem {A} (l : list A) k a :
  (k, a) ∈ imap pair l -> l !! k = Some a.
Proof.
  intros H. apply list_elem_of_lookup in H as [i Hi].
  rewrite list_lookup_imap in Hi.
  destruct (l !! i) as [x|] eqn:Hx; simpl in Hi; [|discriminate].
  now injection Hi as <- <-.
Qed.

Section TotalityCases.
Variable h : heap.
Variable tolerated : failure -> Prop.
Variable rec : value -> M value.
Hypothesis rec_framed : forall P v, framed P (rec v).
Variable l : loc.
Variable o : object.
Hypothesis Ho : h !! l = Some o.
Hypothesis Hwf : (forall e, e <> OutOfFuel -> tolerated e) \/ wf_object o.
Hypothesis Hrec :
  forall v, v ∈ held_values o ->
  forall g, extends h g -> good tolerated (rec v g).2.

(** A branch the program takes only on an object that is not well
    formed. *)
Ltac ill_formed Htag :=
  cbn; destruct Hwf as [T|(Wa & Wo & Wm & Ws & Wr & Wd)];
  [ apply T; discriminate
  | exfalso;
    first [ destruct (Wa Htag) as (? & P' & S')
          | destruct (Wm Htag) as (? & P' & S')
          | destruct (Ws Htag) as (? & P' & S')
          | destruct (Wr Htag) as (? & ? & P' & S')
          | destruct (Wd Htag) as (? & P' & S') ];
    congruence ].

Lemma good_then_ret {A B} (m : M A) (b : B) g :
  good tolerated (m g).2 -> good tolerated ((m ≫= fun _ => mret b) g).2.
Proof. rewrite bind_unfold. now destruct (m g) as [g' [a|e]]. Qed.

Lemma rec_step v g g' r :
  v ∈ held_values o -> extends h g -> rec v g = (g', r) ->
  good tolerated r /\ extends h g' /\ preserved (fun _ => True) g g'.
Proof.
  intros Hv Hg E. pose proof (Hrec v Hv g Hg) as G. rewrite E in G.
  pose proof (rec_framed (fun _ => True) v g g' r E) as F.
  split; [exact G|]. split; [|exact F].
  eapply extends_preserved; [exact Hg | exact F | done].
Qed.

Lemma copy_array_good g :
  extends h g -> tag o = "array" ->
  good tolerated (copy_array rec (VRef l) g).2.
Proof.
  intros Hg Htag. unfold copy_array.
  rewrite bind_reading, (deref_ref g l o (Hg l o Ho)). cbv beta iota.
  destruct (o_proto o) eqn:P; try (ill_formed Htag).
  destruct (o_slots o) as [|es| | | | | |] eqn:S; try (ill_formed Htag).
  rewrite bind_alloc. apply good_then_ret.
  set (A := length g).
  assert (HA : h !! A = None) by apply (extends_fresh h g Hg).
  apply (iterate_good tolerated
           (fun g1 => extends h g1 /\
                      exists cs, g1 !! A = Some (Obj ArrayPrototype (SArray cs) []))).
  - intros [k [v|]] g1 g' r Hin [Hg1 [cs Hcs]] E.
    + apply imap_pair_elem in Hin.
      apply bind_inv in E as [(g2 & c & E1 & E2) | (e & E1 & ->)].
      * destruct (rec_step v g1 g2 _ (array_element_held o es k v (conj P S) Hin) Hg1 E1)
          as (_ & Hg2 & [_ F]).
        unfold define_element in E2. rewrite bind_reading in E2.
        unfold lookup_object in E2.
        rewrite F, Hcs in E2 by (auto; eapply lookup_lt_Some; eauto).
        cbn in E2. injection E2 as <- <-. split; [done|]. intros _. split.
        -- intros l' o' Hl'. rewrite list_lookup_insert_ne; [auto|].
           intros Heq. rewrite <- Heq in Hl'. congruence.
        -- eexists. apply list_lookup_insert_eq.
           destruct (rec_framed (fun _ => True) v g1 g2 _ E1) as [L _].
           apply lookup_lt_Some in Hcs. lia.
      * destruct (rec_step v g1 g' _ (array_element_held o es k v (conj P S) Hin) Hg1 E1)
          as (G & _). split; [exact G | discriminate].
    + injection E as <- <-. split; [done|]. eauto.
  - split.
    + intros l' o' Hl'. rewrite lookup_app_l; [auto|]. eapply lookup_lt_Some; eauto.
    + eexists. unfold A. apply list_lookup_middle. done.
Qed.
Lemma copy_object_good g :
  extends h g -> tag o = "object" ->
  good tolerated (copy_object rec (VRef l) g).2.
Proof.
  intros Hg Htag. unfold copy_object.
  rewrite bind_reading, (deref_ref g l o (Hg l o Ho)). cbv beta iota zeta.
  rewrite bind_alloc. apply good_then_ret.
  set (prev := length g).
  assert (Hprev : h !! prev = None) by apply (extends_fresh h g Hg).
  apply (iterate_good tolerated
           (fun g1 => extends h g1 /\
                      exists p ps, g1 !! prev = Some (Obj p SOrdinary ps) /\
                        (p = ObjectPrototype \/ p = NullPrototype) /\
                        Forall (fun kp => p_writable kp.2 = true) ps)).
  - intros curr g1 g' r Hin [Hg1 (p & ps & Hps & Hp & Hw)] E.
    destruct (Object_keys_Get o curr Hin) as (v & Hv & Hheld).
    rewrite bind_reading in E. unfold lookup_object in E.
    rewrite (Hg1 l o Ho) in E. rewrite bind_reading, Hv in E.
    apply bind_inv in E as [(g2 & c & E1 & E2) | (e & E1 & ->)].
    + destruct (rec_step v g1 g2 _ Hheld Hg1 E1) as (_ & Hg2 & [L F]).
      unfold Put in E2. rewrite bind_reading in E2. unfold lookup_object in E2.
      rewrite F, Hps in E2 by (auto; eapply lookup_lt_Some; eauto).
      assert (Lp : prev < length g2) by (apply lookup_lt_Some in Hps; lia).
      assert (Hps2 : g2 !! prev = Some (Obj p SOrdinary ps))
        by (rewrite F; auto; eapply lookup_lt_Some; eauto).
      cbn [o_slots o_props o_proto] in E2.
      destruct (assoc (KString curr) ps) as [p'|] eqn:Hassoc.
      * destruct (assoc_elem _ _ _ Hassoc) as [k' Hk'].
        rewrite Forall_forall in Hw. pose proof (Hw _ Hk') as Hw'.
        cbn in Hw'. rewrite Hw' in E2.
        injection E2 as <- <-. split; [done|]. intros _.
        split; [now apply extends_insert|].
        eexists _, _. split; [now apply list_lookup_insert_eq|].
        split; [exact Hp|]. apply update_property_writable.
        now apply Forall_forall.
      * destruct Hp as [-> | ->].
        -- destruct (key_eqb (KString curr) (KString "__proto__")) eqn:K.
           ++ destruct c;
                try solve [ injection E2 as <- <-; split; [done|]; intros _;
                            split; [done|]; eexists _, _; eauto ].
              all: clear Hps2.
              ** injection E2 as <- <-. split; [done|]. intros _.
                 split; [now apply extends_insert|].
                 eexists _, _. split; [now apply list_lookup_insert_eq|]. eauto.
              ** injection E2 as <- <-. split; [|discriminate]. cbn.
                 destruct Hwf as [T|(_ & Wo & _)]; [apply T; discriminate|].
                 exfalso. apply (Wo Htag). cbn in K. apply String.eqb_eq in K.
                 now subst curr.
           ++ injection E2 as <- <-. split; [done|]. intros _.
              split; [now apply extends_insert|].
              eexists _, _. split; [now apply list_lookup_insert_eq|].
              split; [eauto|]. apply Forall_app. split; [exact Hw|].
              now repeat constructor.
        -- injection E2 as <- <-. split; [done|]. intros _.
           split; [now apply extends_insert|].
           eexists _, _. split; [now apply list_lookup_insert_eq|].
           split; [eauto|]. apply Forall_app. split; [exact Hw|].
           now repeat constructor.
    + destruct (rec_step v g1 g' _ Hheld Hg1 E1) as (G & _).
      split; [exact G | discriminate].
  - split; [now apply extends_alloc|].
    eexists _, _. split; [apply list_lookup_middle; done|]. eauto.
Qed.

Lemma copy_map_good g :
  extends h g -> tag o = "map" ->
  good tolerated (copy_map rec (VRef l) g).2.
Proof.
  intros Hg Htag. unfold copy_map. rewrite bind_alloc.
  set (tmpMap := length g).
  assert (Htmp : h !! tmpMap = None) by apply (extends_fresh h g Hg).
  pose proof (extends_alloc h g (Obj MapPrototype (SMapData []) []) Hg) as Hg0.
  rewrite bind_reading, (deref_ref _ l o (Hg0 l o Ho)). cbv beta iota.
  destruct (o_proto o) eqn:P; try (ill_formed Htag).
  destruct (o_slots o) as [| | | | |es| |] eqn:S; try (ill_formed Htag).
  apply good_then_ret.
  apply (iterate_good tolerated
           (fun g1 => extends h g1 /\
                      exists es', g1 !! tmpMap = Some (Obj MapPrototype (SMapData es') []))).
  - intros [k v] g1 g' r Hin [Hg1 [es' Hes']] E.
    pose proof (map_value_held o es k v (conj P S) Hin) as Hheld.
    apply bind_inv in E as [(g2 & c & E1 & E2) | (e & E1 & ->)].
    + destruct (rec_step v g1 g2 _ Hheld Hg1 E1) as (_ & Hg2 & [L F]).
      unfold Map_set in E2. rewrite bind_reading in E2. unfold lookup_object in E2.
      rewrite F, Hes' in E2 by (auto; eapply lookup_lt_Some; eauto).
      cbn in E2. injection E2 as <- <-. split; [done|]. intros _.
      split; [now apply extends_insert|].
      eexists. apply list_lookup_insert_eq. apply lookup_lt_Some in Hes'. lia.
    + destruct (rec_step v g1 g' _ Hheld Hg1 E1) as (G & _).
      split; [exact G | discriminate].
  - split; [exact Hg0|]. eexists. apply list_lookup_middle. done.
Qed.

Lemma copy_set_good g :
  extends h g -> tag o = "set" ->
  good tolerated (copy_set rec (VRef l) g).2.
Proof.
  intros Hg Htag. unfold copy_set. rewrite bind_alloc.
  set (tmpSet := length g).
  assert (Htmp : h !! tmpSet = None) by apply (extends_fresh h g Hg).
  pose proof (extends_alloc h g (Obj SetPrototype (SSetData []) []) Hg) as Hg0.
  rewrite bind_reading, (deref_ref _ l o (Hg0 l o Ho)). cbv beta iota.
  destruct (o_proto o) eqn:P; try (ill_formed Htag).
  destruct (o_slots o) as [| | | | | |es|] eqn:S; try (ill_formed Htag).
  apply good_then_ret.
  apply (iterate_good tolerated
           (fun g1 => extends h g1 /\
                      exists es', g1 !! tmpSet = Some (Obj SetPrototype (SSetData es') []))).
  - intros v g1 g' r Hin [Hg1 [es' Hes']] E.
    pose proof (set_element_held o es v (conj P S) Hin) as Hheld.
    apply bind_inv in E as [(g2 & c & E1 & E2) | (e & E1 & ->)].
    + destruct (rec_step v g1 g2 _ Hheld Hg1 E1) as (_ & Hg2 & [L F]).
      unfold Set_add in E2. rewrite bind_reading in E2. unfold lookup_object in E2.
      rewrite F, Hes' in E2 by (auto; eapply lookup_lt_Some; eauto).
      cbn in E2. injection E2 as <- <-. split; [done|]. intros _.
      split; [now apply extends_insert|].
      eexists. apply list_lookup_insert_eq. apply lookup_lt_Some in Hes'. lia.
    + destruct (rec_step v g1 g' _ Hheld Hg1 E1) as (G & _).
      split; [exact G | discriminate].
  - split; [exact Hg0|]. eexists. apply list_lookup_middle. done.
Qed.

Lemma new_RegExp_good g :
  extends h g -> tag o = "regexp" -> good tolerated (new_RegExp (VRef l) g).2.
Proof.
  intros Hg Htag. unfold new_RegExp.
  rewrite bind_reading, (deref_ref g l o (Hg l o Ho)). cbv beta iota.
  destruct (o_slots o) eqn:S; try (ill_formed Htag). done.
Qed.

Lemma copy_date_good g :
  extends h g -> tag o = "date" -> good tolerated (copy_date (VRef l) g).2.
Proof.
  intros Hg Htag. unfold copy_date.
  rewrite bind_reading, (deref_ref g l o (Hg l o Ho)). cbv beta iota.
  destruct (o_proto o) eqn:P; try (ill_formed Htag).
  destruct (o_slots o) eqn:S; try (ill_formed Htag). done.
Qed.
End TotalityCases.

Lemma deepCopy_ref fuel g l o :
  g !! l = Some o ->
  deepCopy (S fuel) (VRef l) g =
  (if tag o =? "array" then copy_array (deepCopy fuel) (VRef l)
   else if tag o =? "object" then copy_object (deepCopy fuel) (VRef l)
   else if tag o =? "map" then copy_map (deepCopy fuel) (VRef l)
   else if tag o =? "set" then copy_set (deepCopy fuel) (VRef l)
   else if tag o =? "regexp" then new_RegExp (VRef l)
   else if tag o =? "date" then copy_date (VRef l)
   else mret (VRef l)) g.
Proof.
  intros H. cbn [deepCopy]. now rewrite bind_reading, (mTypeof_ref _ _ _ H).
Qed.

(** On a graph without cycles, enough fuel gives [deepCopy] a good outcome:
    every failure is tolerated, or the objects of the graph are well formed
    and there is no failure. *)
Lemma deepCopy_good okp ok tolerated h :
  (forall e, e <> OutOfFuel -> tolerated e) \/ (forall o, ok o -> wf_object o) ->
  forall v, graph okp ok h v ->
  exists n, forall fuel, n <= fuel ->
  forall g, extends h g -> good tolerated (deepCopy fuel v g).2.
Proof.
  intros Hmode v Hv. induction Hv as [p Hp _ | l o Ho Hok Hheld IH].
  - exists 1. intros [|fuel] Hf g Hg; [lia|]. now rewrite deepCopy_primitive.
  - destruct (bounded_forall
                (fun m w => forall g, extends h g -> good tolerated (deepCopy m w g).2)
                (held_values o) IH) as [n Hn].
    exists (S n). intros [|fuel] Hf g Hg; [lia|].
    rewrite (deepCopy_ref fuel g l o (Hg l o Ho)).
    assert (Hwf : (forall e, e <> OutOfFuel -> tolerated e) \/ wf_object o)
      by (destruct Hmode; auto).
    assert (Hrec : forall v, v ∈ held_values o ->
                   forall g, extends h g -> good tolerated (deepCopy fuel v g).2)
      by (intros; apply Hn; auto; lia).
    pose proof (framed_deepCopy fuel) as Hfr.
    destruct (String.eqb_spec (tag o) "array"); [eapply copy_array_good; eauto|].
    destruct (String.eqb_spec (tag o) "object"); [eapply copy_object_good; eauto|].
    destruct (String.eqb_spec (tag o) "map"); [eapply copy_map_good; eauto|].
    destruct (String.eqb_spec (tag o) "set"); [eapply copy_set_good; eauto|].
    destruct (String.eqb_spec (tag o) "regexp"); [eapply new_RegExp_good; eauto|].
    destruct (String.eqb_spec (tag o) "date"); [eapply copy_date_good; eauto|].
    done.
Qed.

(** C10.  Termination of the strict-dispatch clone: on an input whose graph
    is finite and has no cycle, [deepCopy] does not run out of fuel once the
    fuel exceeds a bound that depends on the input alone.  Each recursive
    call is on a value held by the object in hand. *)
Theorem deepCopy_terminates_on_acyclic_input h val :
  acyclic h val ->
  exists n, forall fuel, n <= fuel ->
    (deepCopy fuel val h).2 <> Fail OutOfFuel.
Proof.
  intros Hv.
  destruct (deepCopy_good _ _ not_out_of_fuel h (or_introl (fun e H => H)) val Hv)
    as [n Hn].
  exists n. intros fuel Hf. specialize (Hn fuel Hf h (extends_refl h)).
  destruct (deepCopy fuel val h).2 as [c|e]; [discriminate|].
  intros [= ->]. now apply Hn.
Qed.

Lemma deepCopy_passes_through fuel h l o :
  h !! l = Some o -> tag o ∉ composite_tags ->
  deepCopy (S fuel) (VRef l) h = (h, Return (VRef l)).
Proof.
  intros Ho Ht. rewrite (deepCopy_ref fuel h l o Ho).
  repeat (match goal with
          | |- context [String.eqb (tag o) ?s] =>
              destruct (String.eqb_spec (tag o) s) as [E|_];
              [exfalso; apply Ht; rewrite E; unfold composite_tags;
               repeat (first [apply list_elem_of_here | apply list_elem_of_further])|]
          end).
  reflexivity.
Qed.

(** Membership in an explicit list, case by case. *)
Ltac elements H :=
  repeat (let E := fresh "E" in
          apply elem_of_cons in H as [E|H];
          [first [discriminate E | subst | idtac]|]);
  try (apply elem_of_nil in H; contradiction).

Ltac wf_object_tac :=
  unfold wf_object; cbn;
  repeat split; intros T; try discriminate T;
  first [ eexists; split; reflexivity
        | eexists _, _; split; reflexivity
        | let H := fresh in intros H; elements H ].

Ltac graph_tac ok_tac :=
  repeat first
    [ apply graph_primitive; [exact I | ok_tac]
    | eapply graph_object;
      [ reflexivity | ok_tac | let w := fresh "w" in let Hw := fresh "Hw" in
                                intros w Hw; cbn in Hw; elements Hw ] ].


(** [deepCopy] terminates on the sample. *)
Lemma deepCopy_terminates_on_sample :
  acyclic sample_heap (VRef 6) /\
  exists n, forall fuel, n <= fuel ->
    (deepCopy fuel (VRef 6) sample_heap).2 <> Fail OutOfFuel.
Proof.
  assert (H : acyclic sample_heap (VRef 6))
    by (unfold acyclic; graph_tac ltac:(exact I)).
  split; [exact H|].
  exact (deepCopy_terminates_on_acyclic_input sample_heap (VRef 6) H).
Defined.

(** ** Round trip: the clone compares equal to the original *)

(** A loop that returns has kept its invariant, round by round. *)
Lemma iterate_invariant {A} (Inv : nat -> heap -> Prop) (body : A -> M unit) items :
  (forall k a g g', items !! k = Some a -> Inv k g ->
     body a g = (g', Return tt) -> Inv (S k) g') ->
  forall g g', Inv 0 g -> iterate body items g = (g', Return tt) ->
  Inv (length items) g'.
Proof.
  revert Inv. induction items as [|a items IH]; intros Inv Hb g g' H0 E; simpl in *.
  - now injection E as <-.
  - apply bind_inv in E as [(g1 & [] & E1 & E2) | (e & _ & ?)]; [|discriminate].
    apply (IH (fun k => Inv (S k))) with g1; [|eapply (Hb 0); eauto; done|done].
    intros k a' g2 g2' Hk. apply (Hb (S k)). exact Hk.
Qed.




Lemma isObjectEqual_primitive h' p excludes fuel :
  is_primitive p -> p <> VNumber S754_nan ->
  isObjectEqual (S fuel) h' p p excludes = Return true.
Proof.
  intros Hp Hn. pose proof (strict_equal_refl p Hn) as E.
  destruct p; try contradiction; cbn in *; rewrite ?E; reflexivity.
Qed.


Lemma isObjectEqual_dates fuel h l1 l2 o1 o2 t1 t2 ex :
  h !! l1 = Some o1 -> h !! l2 = Some o2 -> is_date o1 t1 -> is_date o2 t2 ->
  isObjectEqual (S fuel) h (VRef l1) (VRef l2) ex = Return (SFeqb t1 t2).
Proof.
  intros H1 H2 R1 R2. cbn [isObjectEqual].
  rewrite (mTypeof_date _ _ _ _ H1 R1), (mTypeof_date _ _ _ _ H2 R2).
  cbn [mbind outcome_bind String.eqb Ascii.eqb Bool.eqb negb orb].
  unfold getTime. rewrite (deref_ref _ _ _ H1), (deref_ref _ _ _ H2).
  destruct R1 as [P1 S1], R2 as [P2 S2]. cbn. now rewrite P1, S1, P2, S2.
Qed.





Section RoundTripCases.
Variable h : heap.
Variable excludes : exclusion.


Lemma entries_loop_refl es :
  Forall (fun p => strict_equal p.1 p.1 = true /\ strict_equal p.2 p.2 = true) es ->
  entries_loop es es = true.
Proof.
  induction 1 as [|p es [H1 H2] _ IH]; simpl; [done|]. now rewrite H1, H2.
Qed.

Lemma set_add_element_new v es :
  (forall i e, es !! i = Some e -> same_value_zero e v = false) ->
  set_add_element v es = es ++ [v].
Proof.
  intros H. unfold set_add_element.
  replace (existsb (fun e => same_value_zero e v) es) with false; [done|].
  symmetry. apply not_true_is_false. intros Hex.
  apply existsb_exists in Hex as (e & Hin & He).
  apply list_elem_of_In, list_elem_of_lookup in Hin as [i Hi].
  rewrite (H i e Hi) in He. discriminate.
Qed.

Lemma map_set_entry_new k v es :
  (forall i e, es !! i = Some e -> same_value_zero e.1 k = false) ->
  map_set_entry k v es = es ++ [(k, v)].
Proof.
  induction es as [|[k' v'] es IH]; intros H; simpl; [done|].
  pose proof (H 0 (k', v') eq_refl) as H0. cbn in H0. rewrite H0. f_equal. apply IH.
  intros i e Hi. exact (H (S i) e Hi).
Qed.



Lemma insert_shell {A} (cs : list (option A)) k n x :
  length cs = k -> k < n ->
  <[k := x]> (cs ++ replicate (n - k) None) = (cs ++ [x]) ++ replicate (n - S k) None.
Proof.
  intros Hk Hn. rewrite insert_app_r_alt by lia.
  replace (k - length cs) with 0 by lia.
  replace (n - k) with (S (n - S k)) by lia. cbn. now rewrite <- app_assoc.
Qed.

Lemma hole_shell {A} (cs : list (option A)) k n :
  k < n ->
  cs ++ replicate (n - k) None = (cs ++ [None]) ++ replicate (n - S k) None.
Proof.
  intros Hn. replace (n - k) with (S (n - S k)) by lia. cbn.
  now rewrite <- app_assoc.
Qed.

Lemma assoc_clone_props_None k ks cs :
  k ∉ ks -> assoc (KString k) (clone_props ks cs) = None.
Proof.
  revert cs. induction ks as [|k' ks IH]; intros [|c cs] Hk; try reflexivity.
  apply not_elem_of_cons in Hk as [Hne Hk]. cbn.
  destruct (String.eqb_spec k k'); [congruence|]. now apply IH.
Qed.

Lemma assoc_clone_props ks cs i k c :
  NoDup ks -> ks !! i = Some k -> cs !! i = Some c ->
  assoc (KString k) (clone_props ks cs) = Some (data_property c).
Proof.
  intros Hnd. revert cs i. induction Hnd as [|k' ks Hk' Hnd IH];
    intros [|c' cs] [|i] Hk Hc; try discriminate; cbn in *.
  - injection Hk as ->. injection Hc as ->. now rewrite String.eqb_refl.
  - destruct (String.eqb_spec k k') as [->|_]; [|eauto].
    exfalso. apply Hk', list_elem_of_lookup. eauto.
Qed.

Lemma clone_props_snoc ks cs k c :
  length ks = length cs ->
  clone_props (ks ++ [k]) (cs ++ [c]) = clone_props ks cs ++ [(KString k, data_property c)].
Proof. intros H. unfold clone_props. now rewrite zip_with_app. Qed.


Lemma NoDup_not_in_take {A} (ks : list A) k x :
  NoDup ks -> ks !! k = Some x -> x ∉ take k ks.
Proof.
  intros Hnd Hk Hin. apply list_elem_of_lookup in Hin as [i Hi].
  apply lookup_take_Some in Hi as [Hi Hlt].
  pose proof (NoDup_lookup ks i k x Hnd Hi Hk). lia.
Qed.

End RoundTripCases.





Ltac distinct_tac :=
  let i := fresh "i" in let j := fresh "j" in
  intros i j ? ? Hi Hj Hs;
  do 4 (try (destruct i as [|i]; cbn in Hi; try discriminate Hi));
  do 4 (try (destruct j as [|j]; cbn in Hj; try discriminate Hj));
  try reflexivity;
  injection Hi as <-; injection Hj as <-; vm_compute in Hs; discriminate Hs.

Ltac faithful_object_tac :=
  split; [wf_object_tac|];
  split; [cbn; intros T; try discriminate T; repeat constructor;
          intros H; elements H |];
  split; [intros es [P S];
          first [ discriminate P
                | injection S as <-;
                  split; [distinct_tac | repeat constructor; vm_compute; discriminate] ] |];
  split; [intros es [P S];
          first [ discriminate P
                | injection S as <-;
                  split; [distinct_tac | repeat constructor; vm_compute; discriminate] ] |];
  intros t [P S];
  first [ discriminate P | injection S as <-; vm_compute; discriminate ].

Lemma sample_faithful : faithful sample_heap (VRef 6).
Proof.
  unfold faithful.
  graph_tac ltac:(first [ vm_compute; discriminate | faithful_object_tac ]).
Qed.



(** ** Termination of deepCopy1 and cycle preservation *)

Lemma key_eqb_eq a b : key_eqb a b = true <-> a = b.
Proof.
  destruct a, b; simpl; split; try discriminate; intros H.
  - apply String.eqb_eq in H. now subst.
  - injection H as ->. apply String.eqb_refl.
  - apply Nat.eqb_eq in H. now subst.
  - injection H as ->. apply Nat.eqb_refl.
Qed.

Lemma update_property_keys k v ps : (update_property k v ps).*1 = ps.*1.
Proof.
  induction ps as [|[k' p] ps IH]; csimpl; [done|].
  destruct (key_eqb k k'); csimpl; [done|]. now rewrite IH.
Qed.

Lemma assoc_update_same k v ps p :
  assoc k ps = Some p -> assoc k (update_property k v ps) = Some (set_value v p).
Proof.
  induction ps as [|[k' p'] ps IH]; simpl; [discriminate|].
  destruct (key_eqb k k') eqn:E; simpl; rewrite E; [now intros [= ->] | auto].
Qed.

Lemma assoc_update_other k k' v ps :
  k' <> k -> assoc k' (update_property k v ps) = assoc k' ps.
Proof.
  intros Hne. induction ps as [|[k'' p] ps IH]; simpl; [done|].
  destruct (key_eqb k k'') eqn:E; simpl; [|now rewrite IH].
  apply key_eqb_eq in E as <-.
  destruct (key_eqb k' k) eqn:E'; [apply key_eqb_eq in E'; congruence | done].
Qed.

Lemma assoc_key_is_Some k (ps : list (key * property)) :
  k ∈ ps.*1 -> is_Some (assoc k ps).
Proof.
  intros H. apply list_elem_of_fmap in H as ([k' p] & -> & Hin).
  eapply assoc_is_Some; eauto.
Qed.

Lemma weak_lookup_elem k es : is_Some (weak_lookup k es) -> k ∈ es.*1.
Proof.
  induction es as [|[k' v] es IH]; simpl; intros [x H]; [discriminate|].
  destruct (Nat.eqb_spec k k') as [->|_]; [left | right; eauto].
Qed.

Lemma weak_insert_new k v es :
  weak_lookup k es = None -> weak_insert k v es = es ++ [(k, v)].
Proof.
  induction es as [|[k' v'] es IH]; simpl; [done|].
  destruct (k =? k')%nat; [discriminate|]. intros H. now rewrite IH.
Qed.

Lemma weak_lookup_app k es es' v :
  weak_lookup k es = Some v -> weak_lookup k (es ++ es') = Some v.
Proof.
  induction es as [|[k' v'] es IH]; simpl; [discriminate|].
  destruct (k =? k')%nat; auto.
Qed.

Lemma weak_lookup_snoc k v es :
  weak_lookup k es = None -> weak_lookup k (es ++ [(k, v)]) = Some v.
Proof.
  induction es as [|[k' v'] es IH]; simpl.
  - now rewrite Nat.eqb_refl.
  - destruct (k =? k')%nat; [discriminate | auto].
Qed.

(** Distinct numbers below [n] are at most [n]. *)
Lemma distinct_below (ks : list nat) n :
  NoDup ks -> (forall k, k ∈ ks -> k < n) -> length ks <= n.
Proof.
  intros Hnd Hb. replace n with (length (seq 0 n)) at 1 by apply length_seq.
  apply submseteq_length, NoDup_submseteq; [done|].
  intros k Hk. apply elem_of_seq. specialize (Hb k Hk). lia.
Qed.

Lemma weak_lookup_None k es : weak_lookup k es = None -> k ∉ es.*1.
Proof.
  induction es as [|[k' v] es IH]; csimpl; intros H Hin; [inversion Hin|].
  destruct (Nat.eqb_spec k k') as [->|Hne]; [discriminate|].
  apply elem_of_cons in Hin as [->|Hin]; [done | now apply IH].
Qed.

Lemma registry_room h es a :
  registry_ok h es -> a < length h -> weak_lookup a es = None ->
  length es < length h.
Proof.
  intros [Hnd Hb] Ha Hnone. apply weak_lookup_None in Hnone.
  pose proof (distinct_below (a :: es.*1) (length h)) as H.
  rewrite <- (length_fmap fst es). simpl in H. apply H.
  - now constructor.
  - intros k Hk. apply elem_of_cons in Hk as [->|Hk]; auto.
Qed.

Lemma registry_ok_insert h es a v :
  registry_ok h es -> a < length h -> weak_lookup a es = None ->
  registry_ok h (es ++ [(a, v)]).
Proof.
  intros [Hnd Hb] Ha Hnone. apply weak_lookup_None in Hnone. split.
  - rewrite fmap_app. apply NoDup_app. split; [done|]. split.
    + intros k Hk Hk'. apply list_elem_of_singleton in Hk'. now subst k.
    + apply NoDup_singleton.
  - intros k Hk. rewrite fmap_app in Hk. apply elem_of_app in Hk as [Hk|Hk]; [auto|].
    apply list_elem_of_singleton in Hk. now subst.
Qed.

Lemma registry_grows_refl es : registry_grows es es.
Proof. split; auto. Qed.

Lemma registry_grows_trans es1 es2 es3 :
  registry_grows es1 es2 -> registry_grows es2 es3 -> registry_grows es1 es3.
Proof. intros [L1 H1] [L2 H2]. split; [lia | auto]. Qed.

(** A loop returns when each round does, with a positional invariant. *)
Lemma iterate_returns {A} (Inv : nat -> heap -> Prop) (body : A -> M unit) items :
  (forall k a g, items !! k = Some a -> Inv k g ->
     exists g', body a g = (g', Return tt) /\ Inv (S k) g') ->
  forall g, Inv 0 g ->
  exists g', iterate body items g = (g', Return tt) /\ Inv (length items) g'.
Proof.
  revert Inv. induction items as [|a items IH]; intros Inv Hb g H0; simpl.
  - exists g. split; [reflexivity | done].
  - destruct (Hb 0 a g eq_refl H0) as (g1 & E1 & H1).
    destruct (IH (fun k => Inv (S k)) (fun k => Hb (S k)) g1 H1) as (g' & E & H').
    exists g'. split; [|done]. rewrite bind_unfold, E1. exact E.
Qed.

Lemma deepCopy1_unfold f obj w :
  deepCopy1 (S f) obj (Some w) =
  (isDate ← reading (instanceof_Date obj);
   if (isDate : bool) then new_Date obj else
   isRegExp ← reading (instanceof_RegExp obj);
   if (isRegExp : bool) then new_RegExp obj else
   seen ← reading (WeakMap_has w obj);
   if (seen : bool) then reading (WeakMap_get w obj) else
   allDesc ← reading (getOwnPropertyDescriptors obj);
   proto ← reading (getPrototypeOf obj);
   cloneObj ← alloc (Obj proto SOrdinary allDesc);
   WeakMap_set w obj (VRef cloneObj);;
   keys ← reading (Reflect_ownKeys obj);
   iterate (copy_property (deepCopy1 f) obj w cloneObj) keys;;
   mret (VRef cloneObj)).
Proof. reflexivity. Qed.

Lemma ordinary_not_Date g a o :
  g !! a = Some o -> is_ordinary_instance o ->
  instanceof_Date (VRef a) g = Return false /\
  instanceof_RegExp (VRef a) g = Return false.
Proof.
  intros Ho Hord. unfold instanceof_Date, instanceof_RegExp, lookup_object.
  rewrite Ho. cbn. unfold is_ordinary_instance in Hord.
  now destruct (o_proto o).
Qed.

Lemma weak_entries_registry g w es :
  g !! w = Some (registry es) -> weak_entries w g = Return es.
Proof. intros H. unfold weak_entries, lookup_object. now rewrite H. Qed.

(** A registered object is returned from the registry, the heap untouched. *)
Lemma deepCopy1_seen f g a o w es v :
  g !! a = Some o -> is_ordinary_instance o ->
  g !! w = Some (registry es) -> weak_lookup a es = Some v ->
  deepCopy1 (S f) (VRef a) (Some w) g = (g, Return v).
Proof.
  intros Ho Hord Hw Hv. rewrite deepCopy1_unfold.
  destruct (ordinary_not_Date g a o Ho Hord) as [HD HR].
  rewrite bind_reading, HD. cbv iota. rewrite bind_reading, HR. cbv iota.
  rewrite bind_reading. unfold WeakMap_has. rewrite (weak_entries_registry _ _ _ Hw).
  cbn [mbind outcome_bind]. rewrite Hv.
  rewrite bool_decide_true by eauto.
  unfold reading, WeakMap_get. rewrite (weak_entries_registry _ _ _ Hw).
  cbn [mbind outcome_bind]. now rewrite Hv.
Qed.

(** [cloneObj[key] = x] on the clone, whose properties are those of the
    original and writable. *)
Lemma Put_clone g c proto ps key x :
  g !! c = Some (Obj proto SOrdinary ps) -> key ∈ ps.*1 ->
  Forall (fun kp => p_writable kp.2 = true) ps ->
  Put c key x g =
  (<[c := Obj proto SOrdinary (update_property key x ps)]> g, Return tt).
Proof.
  intros Hc Hkey Hw. unfold Put. rewrite bind_reading. unfold lookup_object.
  rewrite Hc. cbn [o_slots o_props].
  destruct (assoc_key_is_Some key ps Hkey) as [p Hp]. rewrite Hp.
  destruct (assoc_elem _ _ _ Hp) as [k' Hk'].
  rewrite Forall_forall in Hw. pose proof (Hw _ Hk') as Hw'. cbn in Hw'.
  now rewrite Hw'.
Qed.

(** Whether [deepCopy1] descends into a value: into an object that is not
    a function. *)
Lemma composite_test obj key v g :
  Get_value obj key g = Return v ->
  (forall l', v = VRef l' -> is_Some (g !! l')) ->
  (if to_boolean v
   then v ← reading (Get_value obj key);
        ty ← reading (typeof v);
        mret (ty =? "object")
   else (mret false : M bool)) g =
  (g, Return (match v with
              | VRef l' => match g !! l' with
                           | Some o' => negb (is_callable o')
                           | None => false
                           end
              | _ => false
              end)).
Proof.
  intros HG Hv. destruct (to_boolean v) eqn:Hb.
  - rewrite bind_reading, HG, bind_reading.
    destruct v as [| |b|n|s|l']; try discriminate; try reflexivity.
    destruct (Hv l' eq_refl) as [o' Ho']. cbn. unfold lookup_object.
    rewrite Ho'. cbn. now destruct (is_callable o').
  - destruct v as [| |b|n|s|l']; try discriminate; reflexivity.
Qed.

Section CopyProperty.
Variable h : heap.
Variable dom : loc -> Prop.
Variable f : nat.
Hypothesis IH : deepCopy1_spec h dom f.
Variable a : loc.
Variable o : object.
Variables w c : loc.
Hypothesis Ho : h !! a = Some o.
Hypothesis Hord : is_ordinary_instance o.
Hypothesis Hclosed :
  forall k p l', (k, p) ∈ own_properties o -> p_value p = VRef l' ->
    exists o', h !! l' = Some o' /\ (is_callable o' = false -> dom l').
Hypothesis Hw : h !! w = None.
Hypothesis Hc : h !! c = None.
Hypothesis Hcw : c <> w.

(** One round of the loop over the own keys of [a]: the property of the
    clone receives some [x], which is the clone itself where the property of
    [a] is [a]. *)
Lemma copy_property_returns gk key p esk ps :
  extends h gk ->
  gk !! w = Some (registry esk) -> registry_ok h esk ->
  length h - length esk < f ->
  gk !! c = Some (Obj (o_proto o) SOrdinary ps) ->
  key ∈ ps.*1 -> Forall (fun kp => p_writable kp.2 = true) ps ->
  assoc key (own_properties o) = Some p ->
  exists g' x es',
    copy_property (deepCopy1 f) (VRef a) w c key gk = (g', Return tt) /\
    extends h g' /\ g' !! w = Some (registry es') /\
    registry_ok h es' /\ registry_grows esk es' /\
    g' !! c = Some (Obj (o_proto o) SOrdinary (update_property key x ps)) /\
    (is_callable o = false -> p_value p = VRef a ->
     weak_lookup a esk = Some (VRef c) -> x = VRef c).
Proof.
  intros Hgk Hwk Hok Hfuel Hck Hkey Hwr Hp.
  assert (HG : Get_value (VRef a) key gk = Return (p_value p)).
  { unfold Get_value. rewrite (deref_ref _ _ _ (Hgk a o Ho)).
    cbn [mbind outcome_bind]. unfold Get. now rewrite Hp. }
  destruct (assoc_elem _ _ _ Hp) as [k' Hin].
  assert (Hval : forall l', p_value p = VRef l' -> is_Some (gk !! l')).
  { intros l' Hl'. destruct (Hclosed k' p l' Hin Hl') as (o' & Ho' & _). eauto. }
  unfold copy_property. rewrite bind_reading, HG.
  rewrite bind_unfold, (composite_test (VRef a) key (p_value p) gk HG Hval).
  (* the round without a recursive call *)
  assert (Hstore :
    (is_callable o = false -> p_value p = VRef a -> False) ->
    exists g' x es',
      (v ← reading (Get_value (VRef a) key); Put c key v) gk = (g', Return tt) /\
      extends h g' /\ g' !! w = Some (registry es') /\
      registry_ok h es' /\ registry_grows esk es' /\
      g' !! c = Some (Obj (o_proto o) SOrdinary (update_property key x ps)) /\
      (is_callable o = false -> p_value p = VRef a ->
       weak_lookup a esk = Some (VRef c) -> x = VRef c)).
  { intros Hno. eexists _, (p_value p), esk. split.
    - rewrite bind_reading, HG.
      exact (Put_clone gk c (o_proto o) ps key _ Hck Hkey Hwr).
    - split; [now apply extends_insert|].
      split; [rewrite list_lookup_insert_ne; done|].
      split; [done|]. split; [apply registry_grows_refl|].
      split; [apply list_lookup_insert_eq; eapply lookup_lt_Some; eauto|].
      intros Hcall Hself. destruct (Hno Hcall Hself). }
  destruct (p_value p) as [| |b|n|s|l'] eqn:Hv;
    try (apply Hstore; intros _ [=]).
  destruct (Hclosed k' p l' Hin Hv) as (o' & Ho' & Hdom').
  rewrite (Hgk l' o' Ho').
  destruct (is_callable o') eqn:Hcall'; cbn [negb].
  { apply Hstore. intros Hcall [= ->]. congruence. }
  (* the recursive call *)
  rewrite bind_reading, HG.
  destruct (IH l' gk w esk (Hdom' eq_refl) Hgk Hw Hwk Hok Hfuel)
    as (g3 & x & es3 & E3 & Hg3 & Hw3 & Hok3 & Hgrow3).
  destruct (framed_deepCopy1 f (VRef l') (Some w) gk g3 _ E3) as [L F].
  assert (Hc3 : g3 !! c = Some (Obj (o_proto o) SOrdinary ps)).
  { rewrite F; [done | congruence | eapply lookup_lt_Some; eauto]. }
  exists (<[c := Obj (o_proto o) SOrdinary (update_property key x ps)]> g3), x, es3.
  split; [rewrite bind_unfold, E3;
          exact (Put_clone g3 c (o_proto o) ps key _ Hc3 Hkey Hwr)|].
  split; [now apply extends_insert|].
  split; [rewrite list_lookup_insert_ne; done|].
  split; [done|]. split; [done|].
  split; [apply list_lookup_insert_eq; eapply lookup_lt_Some; eauto|].
  intros Hcall [= ->] Hreg.
  destruct f as [|f']; [lia|].
  assert (Ho'a : o' = o) by congruence. subst o'.
  rewrite (deepCopy1_seen f' gk a o w esk (VRef c) (Hgk a o Ho) Hord Hwk Hreg) in E3.
  now injection E3.
Qed.
End CopyProperty.

Lemma assoc_Some_key k ps p : assoc k ps = Some p -> k ∈ ps.*1.
Proof.
  induction ps as [|[k' p'] ps IH]; simpl; [discriminate|].
  destruct (key_eqb k k') eqn:E.
  - intros _. apply key_eqb_eq in E as ->. left.
  - intros H. right. auto.
Qed.

(** The first visit of an object: the shell is allocated and registered
    before the loop over the keys starts. *)
Lemma deepCopy1_first_visit f g a o w es :
  g !! a = Some o -> is_ordinary_instance o -> w <> a ->
  g !! w = Some (registry es) -> weak_lookup a es = None ->
  deepCopy1 (S f) (VRef a) (Some w) g =
  (iterate (copy_property (deepCopy1 f) (VRef a) w (length g)) (ownKeys o);;
   mret (VRef (length g)))
    (<[w := registry (es ++ [(a, VRef (length g))])]>
       (g ++ [Obj (o_proto o) SOrdinary (own_properties o)])).
Proof.
  intros Ho Hord Hwa Hw Hnone. rewrite deepCopy1_unfold.
  destruct (ordinary_not_Date g a o Ho Hord) as [HD HR].
  rewrite bind_reading, HD. cbv iota. rewrite bind_reading, HR. cbv iota.
  rewrite bind_reading. unfold WeakMap_has. rewrite (weak_entries_registry _ _ _ Hw).
  cbn [mbind outcome_bind]. rewrite Hnone.
  rewrite bool_decide_false by (intros [x Hx]; discriminate).
  rewrite bind_reading. unfold getOwnPropertyDescriptors, lookup_object.
  rewrite Ho. cbn [mbind outcome_bind].
  rewrite bind_reading. unfold getPrototypeOf, lookup_object.
  rewrite Ho. cbn [mbind outcome_bind].
  rewrite bind_alloc.
  set (g1 := g ++ [Obj (o_proto o) SOrdinary (own_properties o)]).
  assert (Hw1 : g1 !! w = Some (registry es)).
  { unfold g1. rewrite lookup_app_l; [done|]. eapply lookup_lt_Some; eauto. }
  assert (Ho1 : g1 !! a = Some o).
  { unfold g1. rewrite lookup_app_l; [done|]. eapply lookup_lt_Some; eauto. }
  assert (EW : WeakMap_set w (VRef a) (VRef (length g)) g1 =
               (<[w := registry (es ++ [(a, VRef (length g))])]> g1, Return tt)).
  { unfold WeakMap_set. rewrite bind_reading, (weak_entries_registry _ _ _ Hw1).
    rewrite bind_reading. unfold lookup_object. rewrite Hw1.
    now rewrite (weak_insert_new _ _ _ Hnone). }
  rewrite bind_unfold, EW. rewrite bind_reading.
  unfold Reflect_ownKeys, lookup_object.
  rewrite list_lookup_insert_ne by done. rewrite Ho1. reflexivity.
Qed.

(** The first visit of an object of a closed set returns a new object with
    the keys of the original; a property of the original that holds the
    original holds the clone in the clone. *)
Lemma clone_ordinary h dom f :
  deepCopy1_spec h dom f ->
  forall a o g w es,
    h !! a = Some o -> is_ordinary_instance o ->
    writable_data o ->
    (forall k p l', (k, p) ∈ own_properties o -> p_value p = VRef l' ->
       exists o', h !! l' = Some o' /\ (is_callable o' = false -> dom l')) ->
    extends h g -> h !! w = None ->
    g !! w = Some (registry es) -> registry_ok h es ->
    weak_lookup a es = None ->
    length h - length es < S f ->
    exists g' es' ps',
      deepCopy1 (S f) (VRef a) (Some w) g = (g', Return (VRef (length g))) /\
      extends h g' /\ g' !! w = Some (registry es') /\
      registry_ok h es' /\ registry_grows es es' /\
      g' !! length g = Some (Obj (o_proto o) SOrdinary ps') /\
      ps'.*1 = ownKeys o /\
      weak_lookup a es' = Some (VRef (length g)) /\
      (is_callable o = false -> forall key p,
         assoc key (own_properties o) = Some p -> p_value p = VRef a ->
         exists p', assoc key ps' = Some p' /\ p_value p' = VRef (length g)).
Proof.
  intros IH a o g w es Ho Hord [Hnd Hwr] Hclosed Hg Hw Hwg Hok Hnone Hfuel.
  set (c := length g).
  assert (Hc : h !! c = None) by now apply extends_fresh.
  assert (Hcw : c <> w).
  { intros E. apply lookup_lt_Some in Hwg. unfold c in E. lia. }
  assert (Ha : a < length h) by (eapply lookup_lt_Some; eauto).
  pose proof (registry_room h es a Hok Ha Hnone) as Hroom.
  assert (Hwa : w <> a) by congruence.
  rewrite (deepCopy1_first_visit f g a o w es (Hg a o Ho) Hord Hwa Hwg Hnone).
  fold c.
  set (g1 := g ++ [Obj (o_proto o) SOrdinary (own_properties o)]).
  set (g2 := <[w := registry (es ++ [(a, VRef c)])]> g1).
  set (Inv := fun (k : nat) (gk : heap) =>
    extends h gk /\ exists esk psk,
      gk !! w = Some (registry esk) /\ registry_ok h esk /\
      registry_grows (es ++ [(a, VRef c)]) esk /\
      gk !! c = Some (Obj (o_proto o) SOrdinary psk) /\
      psk.*1 = ownKeys o /\
      Forall (fun kp => p_writable kp.2 = true) psk /\
      (is_callable o = false -> forall j key p, j < k ->
         ownKeys o !! j = Some key ->
         assoc key (own_properties o) = Some p -> p_value p = VRef a ->
         exists p', assoc key psk = Some p' /\ p_value p' = VRef c)).
  assert (Hlw : w < length g1).
  { unfold g1. rewrite length_app. apply lookup_lt_Some in Hwg. lia. }
  assert (H0 : Inv 0 g2).
  { split.
    - unfold g2, g1. apply extends_insert; [|done]. now apply extends_alloc.
    - exists (es ++ [(a, VRef c)]), (own_properties o).
      split; [unfold g2; now apply list_lookup_insert_eq|].
      split; [now apply registry_ok_insert|].
      split; [apply registry_grows_refl|].
      split.
      { unfold g2. rewrite list_lookup_insert_ne by done.
        unfold g1, c. now rewrite list_lookup_middle. }
      split; [done|]. split; [done|]. intros _ j key p Hj. lia. }
  destruct (iterate_returns Inv
              (copy_property (deepCopy1 f) (VRef a) w c) (ownKeys o)) with (g := g2)
    as (g' & E & Hg' & es' & ps' & Hw' & Hok' & Hgrow' & Hc' & Hkeys' & _ & Hself);
    [|exact H0|].
  - intros k key gk Hk (Hgk & esk & psk & Hwk & Hokk & Hgrowk & Hck & Hkeysk & Hwrk & Hselfk).
    assert (Hin : key ∈ ownKeys o) by (eapply list_elem_of_lookup_2; eauto).
    destruct (assoc_key_is_Some key (own_properties o) Hin) as [p Hp].
    destruct Hgrowk as [Hlen Hkeep].
    assert (Hfuelk : length h - length esk < f).
    { rewrite length_app in Hlen. simpl in Hlen. lia. }
    assert (Hkeyk : key ∈ psk.*1) by now rewrite Hkeysk.
    destruct (copy_property_returns h dom f IH a o w c Ho Hord Hclosed Hw Hc Hcw
                gk key p esk psk Hgk Hwk Hokk Hfuelk Hck Hkeyk Hwrk Hp)
      as (g3 & x & es3 & E3 & Hg3 & Hw3 & Hok3 & Hgrow3 & Hc3 & Hx).
    exists g3. split; [exact E3|]. split; [exact Hg3|].
    exists es3, (update_property key x psk).
    split; [done|]. split; [done|].
    split; [eapply registry_grows_trans; [split; eauto | eauto]|].
    split; [done|]. split; [now rewrite update_property_keys|].
    split; [now apply update_property_writable|].
    intros Hcall j key' p' Hj Hkj Hp' Hv'.
    destruct (decide (j = k)) as [->|Hne].
    + assert (key' = key) by congruence. subst key'.
      assert (p' = p) by congruence. subst p'.
      destruct (assoc_key_is_Some key psk Hkeyk) as [p0 Hp0].
      exists (set_value x p0). split; [now apply assoc_update_same|].
      simpl. apply Hx; [done|done|]. apply Hkeep, weak_lookup_snoc, Hnone.
    + assert (Hkk : key' <> key).
      { intros ->. apply Hne. eapply NoDup_lookup; eauto. }
      rewrite (assoc_update_other key key' x psk Hkk).
      apply (Hselfk Hcall j key' p'); [lia|done..].
  - exists g', es', ps'. split; [rewrite bind_unfold, E; reflexivity|].
    split; [done|]. split; [done|]. split; [done|].
    split.
    { eapply registry_grows_trans; [|exact Hgrow']. split.
      - rewrite length_app. lia.
      - intros k v Hkv. now apply weak_lookup_app. }
    split; [done|]. split; [done|].
    split; [apply Hgrow', weak_lookup_snoc, Hnone|].
    intros Hcall key p Hp Hv.
    pose proof (assoc_Some_key _ _ _ Hp) as Hin.
    apply list_elem_of_lookup in Hin as [j Hj].
    apply (Hself Hcall j key p); [|done..].
    eapply lookup_lt_Some; eauto.
Qed.

Lemma closed_cases h dom a :
  descriptor_closed h dom -> dom a ->
  exists o, h !! a = Some o /\
    ((o_proto o = DatePrototype /\ exists t, o_slots o = SDateValue t) \/
     (o_proto o = RegExpPrototype /\ exists s f, o_slots o = SRegExpMatcher s f) \/
     (is_ordinary_instance o /\ writable_data o /\
      forall k p l', (k, p) ∈ own_properties o -> p_value p = VRef l' ->
        exists o', h !! l' = Some o' /\ (is_callable o' = false -> dom l'))).
Proof.
  intros Hdom Ha. destruct (Hdom a Ha) as (o & Ho & H). exists o. split; [done|].
  unfold is_ordinary_instance. destruct (o_proto o); auto.
Qed.

(** [deepCopy1] returns on every object of a closed set, cyclic or not: each
    call that does not find its argument in the registry adds it, and the
    registry holds objects of the input only. *)
Lemma deepCopy1_total h dom :
  descriptor_closed h dom -> forall fuel, deepCopy1_spec h dom fuel.
Proof.
  intros Hdom fuel. induction fuel as [|f IH];
    intros a g w es Ha Hg Hw Hwg Hok Hfuel; [lia|].
  destruct (closed_cases h dom a Hdom Ha)
    as (o & Ho & [[Hp [t Ht]] | [[Hp (s & fl & Ht)] | (Hord & Hwd & Hcl)]]).
  - (* a date *)
    exists (g ++ [Obj DatePrototype (SDateValue t) []]), (VRef (length g)), es.
    split.
    { rewrite deepCopy1_unfold, bind_reading.
      unfold instanceof_Date, lookup_object. rewrite (Hg a o Ho).
      cbn [mbind outcome_bind]. rewrite Hp. cbv iota.
      unfold new_Date. rewrite bind_reading. unfold deref, lookup_object.
      rewrite (Hg a o Ho). cbn [mbind outcome_bind]. now rewrite Ht. }
    split; [now apply extends_alloc|].
    split; [rewrite lookup_app_l; [done | eapply lookup_lt_Some; eauto]|].
    split; [done | apply registry_grows_refl].
  - (* a regular expression *)
    exists (g ++ [Obj RegExpPrototype (SRegExpMatcher s fl)
                      [(KString "lastIndex", lastIndex_property)]]),
           (VRef (length g)), es.
    split.
    { rewrite deepCopy1_unfold, bind_reading.
      unfold instanceof_Date, lookup_object. rewrite (Hg a o Ho).
      cbn [mbind outcome_bind]. rewrite Hp. cbv iota.
      rewrite bind_reading.
      unfold instanceof_RegExp, lookup_object. rewrite (Hg a o Ho).
      cbn [mbind outcome_bind]. rewrite Hp. cbv iota.
      unfold new_RegExp. rewrite bind_reading. unfold deref, lookup_object.
      rewrite (Hg a o Ho). cbn [mbind outcome_bind]. now rewrite Ht. }
    split; [now apply extends_alloc|].
    split; [rewrite lookup_app_l; [done | eapply lookup_lt_Some; eauto]|].
    split; [done | apply registry_grows_refl].
  - destruct (weak_lookup a es) as [v|] eqn:Hreg.
    + (* already visited *)
      exists g, v, es. split; [|split; [done|split; [done|split; [done|]]]].
      * now apply (deepCopy1_seen f g a o w es v (Hg a o Ho)).
      * apply registry_grows_refl.
    + destruct (clone_ordinary h dom f IH a o g w es Ho Hord Hwd Hcl
                  Hg Hw Hwg Hok Hreg Hfuel)
        as (g' & es' & ps' & E & Hg' & Hw' & Hok' & Hgrow' & _).
      exists g', (VRef (length g)), es'. done.
Qed.

Lemma registry_ok_nil h : registry_ok h [].
Proof. split; [constructor | intros k Hk; inversion Hk]. Qed.

(** A top-level call, which makes its own registry, returns on every object
    of a closed set. *)
Lemma deepCopy1_returns h dom a :
  descriptor_closed h dom -> dom a ->
  forall fuel, length h < fuel ->
    exists h' c, deepCopy1 fuel (VRef a) None h = (h', Return c).
Proof.
  intros Hdom Ha [|f] Hf; [lia|]. rewrite deepCopy1_default.
  destruct (deepCopy1_total h dom Hdom (S f) a (h ++ [empty_WeakMap])
              (length h) [])
    as (g' & c & es' & E & _);
    [done | apply extends_alloc, extends_refl | apply lookup_ge_None_2; lia
    | apply list_lookup_middle; reflexivity | apply registry_ok_nil
    | simpl; lia | eauto].
Qed.








(** ** Shared references *)

Lemma weak_lookup_Some_elem k v es : weak_lookup k es = Some v -> (k, v) ∈ es.
Proof.
  induction es as [|[k' v'] es IH]; simpl; [discriminate|].
  destruct (Nat.eqb_spec k k') as [->|_].
  - intros [= ->]. left.
  - intros H. right. auto.
Qed.

(** The two ways a round of the loop of [deepCopy1] returns. *)
Lemma copy_property_inv rec obj w c key g g' :
  copy_property rec obj w c key g = (g', Return tt) ->
  exists v, Get_value obj key g = Return v /\
    ((descends g v /\ exists g1 x,
        rec v (Some w) g = (g1, Return x) /\ Put c key x g1 = (g', Return tt)) \/
     (~ descends g v /\ Put c key v g = (g', Return tt))).
Proof.
  unfold copy_property. rewrite bind_reading.
  destruct (Get_value obj key g) as [v|e] eqn:HG; [|discriminate].
  intros E. exists v. split; [done|].
  set (test := if to_boolean v
     then v ← reading (Get_value obj key); ty ← reading (typeof v);
          mret (ty =? "object")
     else (mret false : M bool)) in *.
  assert (Hcomp : forall g0 b, test g = (g0, Return b) ->
            g0 = g /\ (b = true <-> descends g v)).
  { intros g0 b. unfold test. destruct (to_boolean v) eqn:Hb.
    - rewrite bind_reading, HG, bind_reading.
      destruct v as [| |b'|n|s|l]; cbn; try discriminate.
      + intros [= <- <-]. split; [done|].
        split; [discriminate | intros (? & ? & [=] & _)].
      + intros [= <- <-]. split; [done|].
        split; [discriminate | intros (? & ? & [=] & _)].
      + intros [= <- <-]. split; [done|].
        split; [discriminate | intros (? & ? & [=] & _)].
      + unfold lookup_object. destruct (g !! l) as [o|] eqn:Ho; [|discriminate].
        cbn. destruct (is_callable o) eqn:Hc; intros [= <- <-]; (split; [done|]).
        * split; [discriminate|]. intros (l' & o' & [= <-] & Ho' & Hc').
          congruence.
        * split; [|done]. intros _. exists l, o. done.
    - intros [= <- <-]. split; [done|]. split; [discriminate|].
      intros (l & o & -> & _). discriminate. }
  rewrite bind_unfold in E.
  destruct (test g) as [g0 [b|e]] eqn:Et; [|discriminate].
  destruct (Hcomp g0 b eq_refl) as [-> Hb]. destruct b.
  - left. split; [now apply Hb|].
    rewrite bind_reading, HG in E.
    apply bind_inv in E as [(g1 & x & E1 & E2) | (e & _ & ?)]; [|discriminate].
    eauto.
  - right. split; [intros H; apply Hb in H; discriminate|].
    now rewrite bind_reading, HG in E.
Qed.

Lemma Put_frame c key x g g' w :
  Put c key x g = (g', Return tt) -> w <> c -> w < length g ->
  g' !! w = g !! w /\ length g <= length g'.
Proof.
  intros E Hw Hl.
  destruct (framed_Put (fun l => l <> c) c key x (fun H => H eq_refl) g g' _ E)
    as [L F].
  split; [now apply F | done].
Qed.

(** The first visit of an object, up to the loop over its keys. *)
Lemma deepCopy1_visit f g a o w es :
  g !! a = Some o -> is_ordinary_instance o ->
  g !! w = Some (registry es) -> weak_lookup a es = None ->
  deepCopy1 (S f) (VRef a) (Some w) g =
  (keys ← reading (Reflect_ownKeys (VRef a));
   iterate (copy_property (deepCopy1 f) (VRef a) w (length g)) keys;;
   mret (VRef (length g)))
    (<[w := registry (es ++ [(a, VRef (length g))])]>
       (g ++ [Obj (o_proto o) SOrdinary (own_properties o)])).
Proof.
  intros Ho Hord Hw Hnone. rewrite deepCopy1_unfold.
  destruct (ordinary_not_Date g a o Ho Hord) as [HD HR].
  rewrite bind_reading, HD. cbv iota. rewrite bind_reading, HR. cbv iota.
  rewrite bind_reading. unfold WeakMap_has. rewrite (weak_entries_registry _ _ _ Hw).
  cbn [mbind outcome_bind]. rewrite Hnone.
  rewrite bool_decide_false by (intros [x Hx]; discriminate).
  rewrite bind_reading. unfold getOwnPropertyDescriptors, lookup_object.
  rewrite Ho. cbn [mbind outcome_bind].
  rewrite bind_reading. unfold getPrototypeOf, lookup_object.
  rewrite Ho. cbn [mbind outcome_bind].
  rewrite bind_alloc.
  set (g1 := g ++ [Obj (o_proto o) SOrdinary (own_properties o)]).
  assert (Hw1 : g1 !! w = Some (registry es)).
  { unfold g1. rewrite lookup_app_l; [done|]. eapply lookup_lt_Some; eauto. }
  assert (EW : WeakMap_set w (VRef a) (VRef (length g)) g1 =
               (<[w := registry (es ++ [(a, VRef (length g))])]> g1, Return tt)).
  { unfold WeakMap_set. rewrite bind_reading, (weak_entries_registry _ _ _ Hw1).
    rewrite bind_reading. unfold lookup_object. rewrite Hw1.
    now rewrite (weak_insert_new _ _ _ Hnone). }
  rewrite bind_unfold, EW. reflexivity.
Qed.

Lemma registry_fresh_lookup n es k v :
  registry_fresh n es -> weak_lookup k es = Some v -> fresh_from n v.
Proof.
  intros H Hk. apply weak_lookup_Some_elem in Hk.
  unfold registry_fresh in H. rewrite Forall_forall in H. exact (H _ Hk).
Qed.

Lemma proto_cases o :
  o_proto o = DatePrototype \/ o_proto o = RegExpPrototype \/
  is_ordinary_instance o.
Proof. unfold is_ordinary_instance. destruct (o_proto o); auto. Qed.

(** With a registry too, a primitive argument is rejected. *)
Lemma deepCopy1_primitive_throws f w g es p :
  is_primitive p -> g !! w = Some (registry es) ->
  (deepCopy1 (S f) p (Some w) g).2 = Fail TypeError.
Proof.
  intros Hp Hw. rewrite deepCopy1_unfold.
  assert (Hw' : forall o, weak_entries w (g ++ [o]) = Return es).
  { intros o. apply weak_entries_registry. rewrite lookup_app_l; [done|].
    eapply lookup_lt_Some; eauto. }
  destruct p as [| |b|n|s|l]; try contradiction;
    rewrite bind_reading; cbn [instanceof_Date]; cbv beta iota;
    rewrite bind_reading; cbn [instanceof_RegExp]; cbv beta iota;
    rewrite bind_reading; unfold WeakMap_has;
    rewrite (weak_entries_registry _ _ _ Hw); cbn [mbind outcome_bind];
    cbv beta iota;
    rewrite bind_reading; cbn [getOwnPropertyDescriptors]; cbv beta iota;
    try reflexivity;
    rewrite bind_reading; cbn [getPrototypeOf]; cbv beta iota;
    rewrite bind_alloc;
    unfold WeakMap_set; rewrite !bind_unfold; unfold reading; rewrite Hw';
    reflexivity.
Qed.

(** What every run of [deepCopy1] that returns has done: the result is an
    object made during the call or found in the registry, the registry has
    kept its entries, and an argument that is neither a date nor a regular
    expression is registered with the result. *)
Lemma deepCopy1_run fuel :
  forall obj w g g' c es n,
    deepCopy1 fuel obj (Some w) g = (g', Return c) ->
    g !! w = Some (registry es) -> registry_fresh n es -> n <= length g ->
    length g <= length g' /\
    fresh_from n c /\
    exists es', g' !! w = Some (registry es') /\
      registry_grows es es' /\ registry_fresh n es' /\
      (forall a o, obj = VRef a -> g !! a = Some o -> is_ordinary_instance o ->
         weak_lookup a es' = Some c).
Proof.
  induction fuel as [|f IH]; intros obj w g g' c es n E Hw Hfr Hn;
    [discriminate|].
  pose proof (lookup_lt_Some _ _ _ Hw) as Lw.
  destruct obj as [| |b|x|s|a].
  1-5: match type of E with deepCopy1 _ ?p _ _ = _ =>
         pose proof (deepCopy1_primitive_throws f w g es p I Hw) as Hthrow end;
       rewrite E in Hthrow; discriminate Hthrow.
  destruct (g !! a) as [o|] eqn:Ho.
  2: { rewrite deepCopy1_unfold, bind_reading in E.
       unfold instanceof_Date, lookup_object in E. rewrite Ho in E.
       discriminate. }
  assert (Hnew : fresh_from n (VRef (length g))) by (exists (length g); done).
  assert (Halloc : forall x, (g ++ [x]) !! w = Some (registry es))
    by (intros x; rewrite lookup_app_l; [exact Hw | exact Lw]).
  destruct (proto_cases o) as [Hp|[Hp|Hord]].
  { (* a date *)
    rewrite deepCopy1_unfold, bind_reading in E.
    unfold instanceof_Date, lookup_object in E. rewrite Ho in E.
    cbn [mbind outcome_bind] in E. rewrite Hp in E. cbv iota in E.
    unfold new_Date in E. rewrite bind_reading in E.
    unfold deref, lookup_object in E. rewrite Ho in E.
    cbn [mbind outcome_bind] in E.
    destruct (o_slots o); try discriminate E. injection E as <- <-.
    split; [rewrite length_app; lia|]. split; [done|].
    exists es. split; [apply Halloc|]. split; [apply registry_grows_refl|].
    split; [done|]. intros a' o' [= <-] Ho' Hord.
    assert (o' = o) by congruence. subst o'.
    unfold is_ordinary_instance in Hord. now rewrite Hp in Hord. }
  { (* a regular expression *)
    rewrite deepCopy1_unfold, bind_reading in E.
    unfold instanceof_Date, lookup_object in E. rewrite Ho in E.
    cbn [mbind outcome_bind] in E. rewrite Hp in E. cbv iota in E.
    rewrite bind_reading in E.
    unfold instanceof_RegExp, lookup_object in E. rewrite Ho in E.
    cbn [mbind outcome_bind] in E. rewrite Hp in E. cbv iota in E.
    unfold new_RegExp in E. rewrite bind_reading in E.
    unfold deref, lookup_object in E. rewrite Ho in E.
    cbn [mbind outcome_bind] in E.
    destruct (o_slots o); try discriminate E. injection E as <- <-.
    split; [rewrite length_app; lia|]. split; [done|].
    exists es. split; [apply Halloc|]. split; [apply registry_grows_refl|].
    split; [done|]. intros a' o' [= <-] Ho' Hord.
    assert (o' = o) by congruence. subst o'.
    unfold is_ordinary_instance in Hord. now rewrite Hp in Hord. }
  destruct (weak_lookup a es) as [v|] eqn:Hreg.
  { (* already visited *)
    rewrite (deepCopy1_seen f g a o w es v Ho Hord Hw Hreg) in E.
    injection E as <- <-.
    split; [done|]. split; [eapply registry_fresh_lookup; eauto|].
    exists es. split; [done|]. split; [apply registry_grows_refl|].
    split; [done|]. intros a' o' [= <-] _ _. done. }
  rewrite (deepCopy1_visit f g a o w es Ho Hord Hw Hreg) in E.
  set (cl := length g) in *.
  set (g1 := g ++ [Obj (o_proto o) SOrdinary (own_properties o)]) in *.
  set (es1 := es ++ [(a, VRef cl)]) in *.
  rewrite bind_reading in E.
  destruct (Reflect_ownKeys (VRef a) (<[w:=registry es1]> g1)) as [keys|e];
    [|discriminate E].
  apply bind_inv in E as [(g3 & [] & E1 & E2) | (e & _ & ?)]; [|discriminate].
  injection E2 as <- <-.
  assert (Hcw : w <> cl) by (unfold cl; lia).
  assert (L1 : length g1 = S (length g))
    by (unfold g1; rewrite length_app; simpl; lia).
  apply (iterate_invariant
         (fun (k : nat) gk => length g1 <= length gk /\
            exists esk, gk !! w = Some (registry esk) /\
              registry_grows es1 esk /\ registry_fresh n esk)) in E1.
  - destruct E1 as (L3 & es3 & Hw3 & Hgr3 & Hfr3).
    split; [lia|]. split; [done|]. exists es3. split; [done|].
    split.
    { eapply registry_grows_trans; [|exact Hgr3]. split.
      - unfold es1. rewrite length_app. lia.
      - intros k v Hkv. now apply weak_lookup_app. }
    split; [done|].
    intros a' o' [= <-] _ _. apply Hgr3, weak_lookup_snoc, Hreg.
  - intros k key gk gk' Hk (Lk & esk & Hwk & Hgrk & Hfrk) Eb.
    assert (Lwk : w < length gk) by (eapply lookup_lt_Some; eauto).
    apply copy_property_inv in Eb
      as (v & _ & [(_ & g2 & x & Ex & EP) | (_ & EP)]).
    + destruct (IH v w gk g2 x esk n Ex Hwk Hfrk ltac:(lia))
        as (L2 & _ & es2 & Hw2 & Hgr2 & Hfr2 & _).
      destruct (Put_frame cl key x g2 gk' w EP Hcw ltac:(lia)) as [Fw Lp].
      split; [lia|]. exists es2. split; [congruence|].
      split; [eapply registry_grows_trans; eauto | done].
    + destruct (Put_frame cl key v gk gk' w EP Hcw Lwk) as [Fw Lp].
      split; [lia|]. exists esk. split; [congruence|]. done.
  - split; [rewrite length_insert; lia|]. exists es1.
    split; [apply list_lookup_insert_eq; lia|].
    split; [apply registry_grows_refl|].
    unfold registry_fresh, es1. apply Forall_app. split; [done|].
    repeat constructor. exact Hnew.
Qed.

Lemma Put_inv c key x g g' proto ps :
  Put c key x g = (g', Return tt) ->
  g !! c = Some (Obj proto SOrdinary ps) -> key ∈ ps.*1 ->
  g' = <[c := Obj proto SOrdinary (update_property key x ps)]> g.
Proof.
  intros E Hc Hkey. unfold Put in E. rewrite bind_reading in E.
  unfold lookup_object in E. rewrite Hc in E. cbn [o_slots o_props] in E.
  destruct (assoc_key_is_Some key ps Hkey) as [p Hp]. rewrite Hp in E.
  destruct (p_writable p); [|discriminate E].
  unfold store in E. now injection E as <-.
Qed.

Lemma attributes_update k x ps : attributes (update_property k x ps) = attributes ps.
Proof.
  unfold attributes. induction ps as [|[k' p] ps IH]; csimpl; [done|].
  destruct (key_eqb k k'); csimpl; [done|]. now rewrite IH.
Qed.

Lemma attributes_keys ps : (attributes ps).*1 = ps.*1.
Proof. unfold attributes. rewrite <- list_fmap_compose. done. Qed.

(** One round of the loop that returns, on the clone [cl] of [a]: the
    property [key] of the clone receives the value itself, or what the
    recursive call returns. *)
Lemma copy_property_round f a w cl key gk gk' o proto psk p :
  copy_property (deepCopy1 f) (VRef a) w cl key gk = (gk', Return tt) ->
  gk !! a = Some o -> assoc key (own_properties o) = Some p ->
  gk !! cl = Some (Obj proto SOrdinary psk) -> key ∈ psk.*1 ->
  cl <> w -> w < length gk ->
  exists x g2,
    gk' = <[cl := Obj proto SOrdinary (update_property key x psk)]> g2 /\
    g2 !! cl = Some (Obj proto SOrdinary psk) /\
    ((~ descends gk (p_value p) /\ x = p_value p /\ g2 = gk) \/
     (descends gk (p_value p) /\
      deepCopy1 f (p_value p) (Some w) gk = (g2, Return x))).
Proof.
  intros E Ha Hp Hcl Hkey Hcw Lw.
  apply copy_property_inv in E as (v & HG & Hcases).
  assert (v = p_value p) as ->.
  { unfold Get_value in HG. rewrite (deref_ref _ _ _ Ha) in HG.
    cbn [mbind outcome_bind] in HG. unfold Get in HG. rewrite Hp in HG.
    now injection HG. }
  destruct Hcases as [(Hd & g2 & x & Ex & EP) | (Hd & EP)].
  - destruct (framed_deepCopy1 f (p_value p) (Some w) gk g2 _ Ex) as [L F].
    assert (Hcl2 : g2 !! cl = Some (Obj proto SOrdinary psk)).
    { rewrite F; [done | congruence | eapply lookup_lt_Some; eauto]. }
    exists x, g2. split; [eapply Put_inv; eauto|]. split; [done|].
    right. done.
  - exists (p_value p), gk. split; [eapply Put_inv; eauto|]. split; [done|].
    left. done.
Qed.


(** The clone a first visit returns: the prototype and the property
    attributes are those of the original; a property holds what the original
    holds where that is a primitive or a function, and the registered clone
    where it is another object. *)
Lemma first_visit_shape f g a o w es n g' r :
  g !! a = Some o -> is_ordinary_instance o -> w <> a -> NoDup (ownKeys o) ->
  g !! w = Some (registry es) -> weak_lookup a es = None ->
  registry_fresh n es -> n <= length g ->
  deepCopy1 (S f) (VRef a) (Some w) g = (g', Return r) ->
  r = VRef (length g) /\
  exists ps' es',
    g' !! length g = Some (Obj (o_proto o) SOrdinary ps') /\
    g' !! w = Some (registry es') /\ registry_fresh n es' /\
    weak_lookup a es' = Some r /\
    attributes ps' = attributes (own_properties o) /\
    forall key p, assoc key (own_properties o) = Some p ->
      exists q, assoc key ps' = Some q /\
        (is_primitive (p_value p) -> p_value q = p_value p) /\
        (forall s os, p_value p = VRef s -> s <> w -> g !! s = Some os ->
           is_callable os = true -> p_value q = VRef s) /\
        (forall s os, p_value p = VRef s -> s <> w -> g !! s = Some os ->
           is_callable os = false -> is_ordinary_instance os ->
           weak_lookup s es' = Some (p_value q)).
Proof.
  intros Ho Hord Hwa Hnd Hw Hreg Hfr Hn E.
  pose proof (lookup_lt_Some _ _ _ Hw) as Lw.
  pose proof (lookup_lt_Some _ _ _ Ho) as La.
  rewrite (deepCopy1_visit f g a o w es Ho Hord Hw Hreg) in E.
  set (cl := length g) in *.
  set (g1 := g ++ [Obj (o_proto o) SOrdinary (own_properties o)]) in *.
  set (es1 := es ++ [(a, VRef cl)]) in *.
  assert (L1 : length g1 = S (length g))
    by (unfold g1; rewrite length_app; simpl; lia).
  assert (Hcw : cl <> w) by (unfold cl; lia).
  rewrite bind_reading in E. unfold Reflect_ownKeys, lookup_object in E.
  rewrite list_lookup_insert_ne in E by done.
  unfold g1 in E at 1. rewrite lookup_app_l in E by done. rewrite Ho in E.
  cbn [mbind outcome_bind] in E.
  apply bind_inv in E as [(g3 & [] & E1 & E2) | (e & _ & ?)]; [|discriminate].
  injection E2 as <- <-. split; [done|].
  apply (iterate_invariant
    (fun (k : nat) gk =>
       length g < length gk /\
       (forall l, l < length g -> l <> w -> gk !! l = g !! l) /\
       exists esk psk,
         gk !! w = Some (registry esk) /\ registry_grows es1 esk /\
         registry_fresh n esk /\
         gk !! cl = Some (Obj (o_proto o) SOrdinary psk) /\
         attributes psk = attributes (own_properties o) /\
         forall j key p, j < k -> ownKeys o !! j = Some key ->
           assoc key (own_properties o) = Some p ->
           exists q, assoc key psk = Some q /\
             (is_primitive (p_value p) -> p_value q = p_value p) /\
             (forall s os, p_value p = VRef s -> s <> w -> g !! s = Some os ->
                is_callable os = true -> p_value q = VRef s) /\
             (forall s os, p_value p = VRef s -> s <> w -> g !! s = Some os ->
                is_callable os = false -> is_ordinary_instance os ->
                weak_lookup s esk = Some (p_value q)))) in E1.
  - destruct E1 as (L3 & F3 & es3 & ps3 & Hw3 & Hgr3 & Hfr3 & Hc3 & Hat3 & Hkeys).
    exists ps3, es3. repeat (split; [done|]).
    split; [apply Hgr3, weak_lookup_snoc, Hreg|]. split; [done|].
    intros key p Hp. pose proof (assoc_Some_key _ _ _ Hp) as Hin.
    apply list_elem_of_lookup in Hin as [j Hj].
    apply (Hkeys j key p); [eapply lookup_lt_Some; eauto | done..].
  - intros k key gk gk' Hk
      (Lk & Fk & esk & psk & Hwk & Hgrk & Hfrk & Hck & Hatk & Hkeysk) Eb.
    assert (Hin : key ∈ ownKeys o) by (eapply list_elem_of_lookup_2; eauto).
    destruct (assoc_key_is_Some key (own_properties o) Hin) as [p Hp].
    assert (Hak : gk !! a = Some o) by (rewrite Fk; done).
    assert (Hkeyk : key ∈ psk.*1).
    { rewrite <- attributes_keys, Hatk, attributes_keys. exact Hin. }
    assert (Lwk : w < length gk) by (eapply lookup_lt_Some; eauto).
    destruct (copy_property_round f a w cl key gk gk' o (o_proto o) psk p
                Eb Hak Hp Hck Hkeyk Hcw Lwk)
      as (x & g2 & -> & Hc2 & Hcases).
    assert (Hg2 : length gk <= length g2 /\
                  (forall l, l < length gk -> l <> w -> g2 !! l = gk !! l) /\
                  exists es2, g2 !! w = Some (registry es2) /\
                    registry_grows esk es2 /\ registry_fresh n es2).
    { destruct Hcases as [(_ & _ & ->) | (_ & Ex)].
      - split; [done|]. split; [done|]. exists esk.
        split; [done|]. split; [apply registry_grows_refl | done].
      - destruct (framed_deepCopy1 f (p_value p) (Some w) gk g2 _ Ex) as [L F].
        destruct (deepCopy1_run f _ w gk g2 x esk n Ex Hwk Hfrk ltac:(lia))
          as (_ & _ & es2 & Hw2 & Hgr2 & Hfr2 & _).
        split; [done|]. split; [|eauto].
        intros l Hl Hlw. apply F; [congruence | done]. }
    destruct Hg2 as (L2 & F2 & es2 & Hw2 & Hgr2 & Hfr2).
    assert (Lc2 : cl < length g2) by (eapply lookup_lt_Some; eauto).
    split; [rewrite length_insert; lia|].
    split.
    { intros l Hl Hlw. rewrite list_lookup_insert_ne by (unfold cl; lia).
      rewrite F2 by (done || lia). now apply Fk. }
    exists es2, (update_property key x psk).
    split; [rewrite list_lookup_insert_ne; done|].
    split; [eapply registry_grows_trans; eauto|]. split; [done|].
    split; [now apply list_lookup_insert_eq|].
    split; [now rewrite attributes_update|].
    intros j key' p' Hj Hkj Hp'.
    destruct (decide (j = k)) as [->|Hne].
    + assert (key' = key) by congruence. subst key'.
      assert (p' = p) by congruence. subst p'.
      destruct (assoc_key_is_Some key psk Hkeyk) as [p0 Hp0].
      exists (set_value x p0). split; [now apply assoc_update_same|].
      cbn [set_value p_value]. split; [|split].
      * intros Hprim. destruct Hcases as [(_ & -> & _) | ((s & os & Hs & _) & _)];
          [done|]. rewrite Hs in Hprim. destruct Hprim.
      * intros s os Hs Hsw Hos Hcall.
        destruct Hcases as [(_ & -> & _) | ((s' & os' & Hs' & Hos' & Hcall') & _)];
          [done|].
        assert (s' = s) by congruence. subst s'.
        rewrite Fk in Hos' by (done || eapply lookup_lt_Some; eauto).
        congruence.
      * intros s os Hs Hsw Hos Hcall Hords.
        assert (Hsk : gk !! s = Some os)
          by (rewrite Fk; [done | eapply lookup_lt_Some; eauto | done]).
        destruct Hcases as [(Hnd' & _ & _) | (_ & Ex)].
        { destruct Hnd'. exists s, os. done. }
        destruct (deepCopy1_run f _ w gk g2 x esk n Ex Hwk Hfrk ltac:(lia))
          as (_ & _ & es2' & Hw2' & _ & _ & Hregd).
        assert (es2' = es2)
          by (rewrite Hw2 in Hw2'; unfold registry in Hw2'; congruence).
        subst es2'.
        now apply (Hregd s os).
    + assert (Hkk : key' <> key).
      { intros ->. apply Hne. eapply NoDup_lookup; eauto. }
      destruct (Hkeysk j key' p' ltac:(lia) Hkj Hp') as (q & Hq & HC1 & HC2 & HA).
      exists q. split; [now rewrite assoc_update_other|].
      split; [done|]. split; [done|].
      intros s os Hs Hsw Hos Hcall Hords. apply Hgr2. eauto.
  - split; [rewrite length_insert; lia|]. split.
    { intros l Hl Hlw. rewrite list_lookup_insert_ne by done.
      unfold g1. now rewrite lookup_app_l. }
    exists es1, (own_properties o).
    split; [apply list_lookup_insert_eq; lia|].
    split; [apply registry_grows_refl|].
    split.
    { unfold registry_fresh, es1. apply Forall_app. split; [done|].
      repeat constructor. exists cl. split; [done | unfold cl; lia]. }
    split.
    { rewrite list_lookup_insert_ne by done. unfold g1, cl.
      now rewrite list_lookup_middle. }
    split; [done|]. intros j key p Hj. lia.
Qed.

(** A top-level call of [deepCopy1] on an object of a closed set: it
    returns, and the clone has the shape of a first visit. *)
Lemma deepCopy1_top h dom a o fuel :
  descriptor_closed h dom -> dom a ->
  h !! a = Some o -> is_ordinary_instance o -> length h < fuel ->
  exists h' ps' es',
    deepCopy1 fuel (VRef a) None h = (h', Return (VRef (S (length h)))) /\
    h `prefix_of` h' /\
    h' !! S (length h) = Some (Obj (o_proto o) SOrdinary ps') /\
    registry_fresh (S (length h)) es' /\
    attributes ps' = attributes (own_properties o) /\
    forall key p, assoc key (own_properties o) = Some p ->
      exists q, assoc key ps' = Some q /\
        (is_primitive (p_value p) -> p_value q = p_value p) /\
        (forall s os, p_value p = VRef s -> h !! s = Some os ->
           is_callable os = true -> p_value q = VRef s) /\
        (forall s os, p_value p = VRef s -> h !! s = Some os ->
           is_callable os = false -> is_ordinary_instance os ->
           weak_lookup s es' = Some (p_value q)).
Proof.
  intros Hdom Ha Ho Hord Hf.
  destruct (deepCopy1_returns h dom a Hdom Ha fuel Hf) as (h' & c & E).
  pose proof (deepCopy1_frame _ _ _ _ _ E) as Hpre.
  destruct fuel as [|f]; [lia|].
  destruct (closed_cases h dom a Hdom Ha)
    as (o' & Ho' & [[Hd _] | [[Hr _] | (_ & [Hnd _] & _)]]);
    assert (o' = o) by congruence; subst o';
    try (unfold is_ordinary_instance in Hord; rewrite ?Hd, ?Hr in Hord;
         contradiction).
  pose proof (lookup_lt_Some _ _ _ Ho) as La.
  rewrite deepCopy1_default in E.
  assert (Hlen : length (h ++ [empty_WeakMap]) = S (length h))
    by (rewrite length_app; simpl; lia).
  assert (Hg : forall l x, h !! l = Some x -> (h ++ [empty_WeakMap]) !! l = Some x).
  { intros l x Hl. rewrite lookup_app_l; [done | eapply lookup_lt_Some; eauto]. }
  destruct (first_visit_shape f (h ++ [empty_WeakMap]) a o (length h) []
              (S (length h)) h' c)
    as (-> & ps' & es' & Hc & Hw & Hfr & _ & Hat & Hkeys);
    [ now apply Hg | done | lia | done | apply list_lookup_middle; reflexivity
    | reflexivity | constructor | lia | exact E | ].
  rewrite Hlen in *.
  exists h', ps', es'. split; [now rewrite deepCopy1_default|].
  split; [done|]. split; [done|]. split; [done|]. split; [done|].
  intros key p Hp. destruct (Hkeys key p Hp) as (q & Hq & HC1 & HC2 & HA).
  exists q. split; [done|]. split; [done|]. split.
  - intros s os Hs Hos. apply (HC2 s os Hs); [|now apply Hg].
    apply lookup_lt_Some in Hos. lia.
  - intros s os Hs Hos. apply (HA s os Hs); [|now apply Hg].
    apply lookup_lt_Some in Hos. lia.
Qed.


(** Closedness of an explicit heap, object by object. *)
Ltac closed_object_tac :=
  eexists; (split; [reflexivity|]); cbn;
  first
    [ solve [eexists; reflexivity | eexists _, _; reflexivity]
    | split;
      [ split;
        [ repeat (apply NoDup_cons; split; [intros Hin; elements Hin|]);
          apply NoDup_nil_2
        | repeat constructor ]
      | let k := fresh "k" in let p := fresh "p" in let l' := fresh "l'" in
        let Hin := fresh "Hin" in let Hp := fresh "Hp" in
        intros k p l' Hin Hp;
        repeat (let E := fresh "E" in
                apply elem_of_cons in Hin as [E|Hin];
                [ injection E as -> ->; cbn in Hp; try discriminate Hp;
                  injection Hp as <-; eexists; (split; [reflexivity|]);
                  let Hc := fresh "Hc" in
                  intros Hc; cbn in Hc;
                  first [discriminate Hc | lia | reflexivity] |]);
        apply elem_of_nil in Hin; contradiction ] ].






(** The clone [deepCopy1] makes of an array is not an array:
    [Object.create] makes an ordinary object, which [mTypeof] calls
    ['object'], with the indices and [length] as plain properties. *)
Theorem deepCopy1_of_array_is_not_an_array h dom (a : loc) o es :
  descriptor_closed h dom -> dom a ->
  h !! a = Some o -> is_array o es ->
  forall fuel, length h < fuel ->
  exists h' (c : loc) ps',
    deepCopy1 fuel (VRef a) None h = (h', Return (VRef c)) /\
    h' !! c = Some (Obj ArrayPrototype SOrdinary ps') /\
    ps'.*1 = ownKeys o /\
    mTypeof (VRef a) h' = Return "array" /\
    mTypeof (VRef c) h' = Return "object".
Proof.
  intros Hdom Ha Ho [Hp Hs] fuel Hf.
  assert (Hord : is_ordinary_instance o)
    by (unfold is_ordinary_instance; now rewrite Hp).
  destruct (deepCopy1_top h dom a o fuel Hdom Ha Ho Hord Hf)
    as (h' & ps' & es' & E & Hpre & Hc & _ & Hat & _).
  rewrite Hp in Hc.
  exists h', (S (length h)), ps'. split; [done|]. split; [done|].
  split; [unfold ownKeys; now rewrite <- (attributes_keys ps'), Hat, attributes_keys|].
  split.
  - apply (mTypeof_array h' a o es); [|done].
    eapply prefix_lookup_Some; eauto.
  - unfold mTypeof, lookup_object. rewrite Hc. reflexivity.
Qed.

Lemma array_heap_closed : descriptor_closed array_heap (fun l => l = 0).
Proof. intros l ->. closed_object_tac. Qed.

(** [deepCopy1([1, 2])] is an object with the keys [0], [1] and [length]. *)
Lemma deepCopy1_of_array_example :
  exists h' (c : loc) ps',
    deepCopy1 2 (VRef 0) None array_heap = (h', Return (VRef c)) /\
    h' !! c = Some (Obj ArrayPrototype SOrdinary ps') /\
    ps'.*1 = [KString "0"; KString "1"; KString "length"] /\
    mTypeof (VRef 0) h' = Return "array" /\
    mTypeof (VRef c) h' = Return "object".
Proof.
  refine (deepCopy1_of_array_is_not_an_array array_heap (fun l => l = 0) 0 _
            [Some (num 1); Some (num 2)] array_heap_closed eq_refl eq_refl
            (conj eq_refl eq_refl) 2 _).
  simpl. lia.
Defined.

(** The clone [deepCopy1] makes of a [Map] or a [Set] has the prototype but
    not the entries, so that comparing it with the original throws: the
    [size] getter rejects it. *)
Theorem deepCopy1_of_collection_loses_entries h dom (a : loc) o :
  descriptor_closed h dom -> dom a ->
  h !! a = Some o ->
  (exists es, is_map o es) \/ (exists es, is_set o es) ->
  forall fuel, length h < fuel ->
  exists h' (c : loc) ps',
    deepCopy1 fuel (VRef a) None h = (h', Return (VRef c)) /\
    h' !! c = Some (Obj (o_proto o) SOrdinary ps') /\
    mTypeof (VRef c) h' = mTypeof (VRef a) h' /\
    forall fuel2 excludes,
      isObjectEqual (S fuel2) h' (VRef c) (VRef a) excludes = Fail TypeError.
Proof.
  intros Hdom Ha Ho Hcoll fuel Hf.
  assert (Hord : is_ordinary_instance o).
  { unfold is_ordinary_instance.
    destruct Hcoll as [[es [-> _]] | [es [-> _]]]; exact I. }
  destruct (deepCopy1_top h dom a o fuel Hdom Ha Ho Hord Hf)
    as (h' & ps' & es' & E & Hpre & Hc & _ & _ & _).
  assert (Ho' : h' !! a = Some o) by (eapply prefix_lookup_Some; eauto).
  exists h', (S (length h)), ps'. split; [done|]. split; [done|].
  assert (Ht : mTypeof (VRef (S (length h))) h' = mTypeof (VRef a) h').
  { unfold mTypeof, lookup_object. rewrite Hc, Ho'. cbn [mbind outcome_bind].
    destruct Hcoll as [[es [Hp Hs]] | [es [Hp Hs]]];
      unfold instanceof_Element, class_of; cbn [o_proto]; now rewrite Hp. }
  split; [done|]. intros fuel2 excludes.
  cbn [isObjectEqual]. rewrite Ht.
  destruct Hcoll as [[es His] | [es His]].
  - rewrite (mTypeof_map h' a o es Ho' His). cbn [mbind outcome_bind].
    cbn. unfold equal_entries, entries, deref, lookup_object. rewrite Hc.
    cbn. destruct His as [-> _]. reflexivity.
  - rewrite (mTypeof_set h' a o es Ho' His). cbn [mbind outcome_bind].
    cbn. unfold equal_entries, entries, deref, lookup_object. rewrite Hc.
    cbn. destruct His as [-> _]. reflexivity.
Qed.

Lemma map_heap_closed : descriptor_closed map_heap (fun l => l = 0).
Proof. intros l ->. closed_object_tac. Qed.

(** [m = new Map([["k", 1]]); isObjectEqual(deepCopy1(m), m)] throws. *)
Lemma deepCopy1_of_map_example :
  exists h' (c : loc) ps',
    deepCopy1 2 (VRef 0) None map_heap = (h', Return (VRef c)) /\
    h' !! c = Some (Obj MapPrototype SOrdinary ps') /\
    mTypeof (VRef c) h' = mTypeof (VRef 0) h' /\
    forall fuel2 excludes,
      isObjectEqual (S fuel2) h' (VRef c) (VRef 0) excludes = Fail TypeError.
Proof.
  refine (deepCopy1_of_collection_loses_entries map_heap (fun l => l = 0) 0 _
            map_heap_closed eq_refl eq_refl _ 2 _).
  - left. eexists. split; reflexivity.
  - simpl. lia.
Defined.

(** ** deepCopy makes a new object at every occurrence *)

Lemma returns_loc_tail {X} (m : M X) A : returns_loc A (m ≫= fun _ => mret (VRef A)).
Proof.
  intros g g' c E.
  apply bind_inv in E as [(g1 & x & _ & E2) | (e & _ & ?)]; [|discriminate].
  now injection E2.
Qed.

Lemma returns_loc_reading {X} (r : heap -> outcome X) k A :
  (forall x, returns_loc A (k x)) -> returns_loc A (reading r ≫= k).
Proof.
  intros Hk g g' c E. rewrite bind_reading in E.
  destruct (r g) as [x|e]; [|discriminate]. eapply Hk; eauto.
Qed.

Lemma returns_loc_fail e A : returns_loc A (fail e).
Proof. intros g g' c E. discriminate. Qed.

Ltac returns_loc_tac :=
  repeat first
    [ apply returns_loc_tail | apply returns_loc_fail
    | apply returns_loc_reading; intros
    | match goal with
      | |- returns_loc _ (let '(_, _) := ?x in _) => destruct x
      | |- returns_loc _ (match ?x with _ => _ end) => destruct x
      end ].

Ltac framed_tac rec_framed :=
  repeat first
    [ apply framed_ret | apply framed_fail | apply framed_reading
    | apply rec_framed
    | apply framed_Put; tauto | apply framed_define_element; tauto
    | apply framed_Map_set; tauto | apply framed_Set_add; tauto
    | apply framed_iterate; intros | apply framed_alloc; intros
    | apply framed_bind; [|intros]
    | match goal with
      | |- framed _ (let '(_, _) := ?x in _) => destruct x
      | |- framed _ (match ?x with _ => _ end) => destruct x
      end ].

(** After an allocation, a computation that returns the new location. *)
Lemma alloc_result o (k : loc -> M value) g g' c :
  (forall A, returns_loc A (k A)) ->
  (forall A, framed (fun _ => False) (k A)) ->
  (alloc o ≫= k) g = (g', Return c) ->
  c = VRef (length g) /\ length g < length g'.
Proof.
  intros Hr Hf E. rewrite bind_alloc in E. split; [eapply Hr; eauto|].
  apply Hf in E as [L _]. rewrite length_app in L. simpl in L. lia.
Qed.

Section ResultCases.
Variable rec : value -> M value.
Hypothesis rec_framed : forall P v, framed P (rec v).

Lemma copy_array_result val g g' c :
  copy_array rec val g = (g', Return c) ->
  c = VRef (length g) /\ length g < length g'.
Proof.
  unfold copy_array. rewrite bind_reading.
  destruct (deref val g) as [[l o]|e]; [|discriminate].
  destruct (o_proto o), (o_slots o); try discriminate.
  apply alloc_result; intros A; [returns_loc_tac | framed_tac rec_framed].
Qed.

Lemma copy_object_result val g g' c :
  copy_object rec val g = (g', Return c) ->
  c = VRef (length g) /\ length g < length g'.
Proof.
  unfold copy_object. rewrite bind_reading.
  destruct (deref val g) as [[l o]|e]; [|discriminate].
  apply alloc_result; intros A; [returns_loc_tac | framed_tac rec_framed].
Qed.

Lemma copy_map_result val g g' c :
  copy_map rec val g = (g', Return c) ->
  c = VRef (length g) /\ length g < length g'.
Proof.
  unfold copy_map.
  apply alloc_result; intros A; [returns_loc_tac | framed_tac rec_framed].
Qed.

Lemma copy_set_result val g g' c :
  copy_set rec val g = (g', Return c) ->
  c = VRef (length g) /\ length g < length g'.
Proof.
  unfold copy_set.
  apply alloc_result; intros A; [returns_loc_tac | framed_tac rec_framed].
Qed.
End ResultCases.

Lemma new_RegExp_result val g g' c :
  new_RegExp val g = (g', Return c) ->
  c = VRef (length g) /\ length g < length g'.
Proof.
  unfold new_RegExp. rewrite bind_reading.
  destruct (deref val g) as [[l o]|e]; [|discriminate].
  destruct (o_slots o); try discriminate.
  rewrite bind_alloc. intros [= <- <-]. rewrite length_app. simpl. split; [done | lia].
Qed.

Lemma copy_date_result val g g' c :
  copy_date val g = (g', Return c) ->
  c = VRef (length g) /\ length g < length g'.
Proof.
  unfold copy_date. rewrite bind_reading.
  destruct (deref val g) as [[l o]|e]; [|discriminate].
  destruct (o_proto o), (o_slots o); try discriminate.
  rewrite bind_alloc. intros [= <- <-]. rewrite length_app. simpl. split; [done | lia].
Qed.

(** What [deepCopy] returns: the heap has kept its objects, the result is
    allocated, and for a value of one of the six types it is a new object. *)
Lemma deepCopy_result fuel v g g' c :
  deepCopy fuel v g = (g', Return c) ->
  length g <= length g' /\
  (forall l, l < length g -> g' !! l = g !! l) /\
  (forall l, c = VRef l -> l < length g') /\
  (forall s os, v = VRef s -> g !! s = Some os -> tag os ∈ composite_tags ->
     c = VRef (length g)).
Proof.
  intros E.
  destruct (framed_deepCopy fuel (fun _ => True) v g g' _ E) as [L F].
  split; [done|]. split; [auto|].
  destruct fuel as [|fuel]; [discriminate|].
  destruct v as [| |b|n|x|s];
    try (cbn in E; injection E as <- <-; split; [discriminate | discriminate]).
  destruct (g !! s) as [os|] eqn:Hos.
  2: { cbn [deepCopy] in E. rewrite bind_reading in E.
       unfold mTypeof, lookup_object in E. rewrite Hos in E. discriminate. }
  rewrite (deepCopy_ref fuel g s os Hos) in E.
  assert (Hnew : c = VRef (length g) /\ length g < length g' ->
    (forall l, c = VRef l -> l < length g') /\
    (forall s' os', VRef s = VRef s' -> g !! s' = Some os' ->
       tag os' ∈ composite_tags -> c = VRef (length g))).
  { intros [-> Hl]. split; [intros l [= <-]; done | done]. }
  destruct (tag os =? "array") eqn:T1;
    [apply Hnew; eapply copy_array_result; [apply framed_deepCopy | eauto]|].
  destruct (tag os =? "object") eqn:T2;
    [apply Hnew; eapply copy_object_result; [apply framed_deepCopy | eauto]|].
  destruct (tag os =? "map") eqn:T3;
    [apply Hnew; eapply copy_map_result; [apply framed_deepCopy | eauto]|].
  destruct (tag os =? "set") eqn:T4;
    [apply Hnew; eapply copy_set_result; [apply framed_deepCopy | eauto]|].
  destruct (tag os =? "regexp") eqn:T5;
    [apply Hnew; eapply new_RegExp_result; eauto|].
  destruct (tag os =? "date") eqn:T6;
    [apply Hnew; eapply copy_date_result; eauto|].
  injection E as <- <-. split.
  - intros l [= <-]. eapply lookup_lt_Some; eauto.
  - intros s' os' [= <-] Hos' Ht. assert (os' = os) by congruence. subst os'.
    exfalso. unfold composite_tags in Ht. elements Ht;
      rewrite ?E, ?E0, ?E1 in *; 
      first [ rewrite String.eqb_refl in T1; discriminate
            | rewrite String.eqb_refl in T2; discriminate
            | rewrite String.eqb_refl in T3; discriminate
            | rewrite String.eqb_refl in T4; discriminate
            | rewrite String.eqb_refl in T5; discriminate
            | rewrite String.eqb_refl in T6; discriminate ].
Qed.

(** The record [deepCopy] makes of a record: one property per enumerable
    string key, and where the original holds an array, record, map, set,
    date or regular expression, an object made for that property alone. *)
Lemma copy_object_values f g g' c l o :
  g !! l = Some o -> NoDup (Object_keys o) -> "__proto__" ∉ Object_keys o ->
  copy_object (deepCopy f) (VRef l) g = (g', Return c) ->
  exists cs,
    c = VRef (length g) /\
    g' !! length g = Some (Obj ObjectPrototype SOrdinary
                               (clone_props (Object_keys o) cs)) /\
    length cs = length (Object_keys o) /\
    forall j k s os,
      Object_keys o !! j = Some k -> Get o (KString k) = Return (VRef s) ->
      g !! s = Some os -> tag os ∈ composite_tags ->
      exists lc, cs !! j = Some (VRef lc) /\ length g < lc /\
        forall j', j' < j -> cs !! j' <> Some (VRef lc).
Proof.
  intros Ho Hnd Hproto E. unfold copy_object in E.
  rewrite bind_reading, (deref_ref g l o Ho) in E. cbv beta iota zeta in E.
  rewrite bind_alloc in E.
  set (prev := length g) in *. set (keys := Object_keys o) in *.
  pose proof (lookup_lt_Some _ _ _ Ho) as Ll.
  apply bind_inv in E as [(g1 & [] & E1 & E2) | (e & _ & ?)]; [|discriminate].
  injection E2 as <- <-.
  apply (iterate_invariant
    (fun k gk =>
       length g < length gk /\
       (forall l', l' < length g -> gk !! l' = g !! l') /\
       exists cs,
         length cs = k /\
         gk !! prev = Some (Obj ObjectPrototype SOrdinary
                                (clone_props (take k keys) cs)) /\
         (forall j c', cs !! j = Some (VRef c') -> c' < length gk) /\
         forall j key s os, j < k ->
           keys !! j = Some key -> Get o (KString key) = Return (VRef s) ->
           g !! s = Some os -> tag os ∈ composite_tags ->
           exists lc, cs !! j = Some (VRef lc) /\ length g < lc /\
             forall j', j' < j -> cs !! j' <> Some (VRef lc))) in E1.
  - destruct E1 as (L1 & F1 & cs & Hlen & Hshell & _ & Hvals).
    rewrite firstn_all in Hshell.
    exists cs. split; [done|]. split; [done|]. split; [done|].
    intros j k s os Hj.
    apply (Hvals j k s os); [eapply lookup_lt_Some; eauto | done].
  - intros k curr gk gk' Hk (Lk & Fk & cs & Hlen & Hshell & Hbound & Hvals) Eb.
    rewrite bind_reading in Eb. unfold lookup_object in Eb.
    rewrite Fk, Ho in Eb by done.
    rewrite bind_reading in Eb.
    destruct (Get o (KString curr)) as [v|e] eqn:Hv; [|discriminate].
    apply bind_inv in Eb as [(g3 & ci & Eb1 & Eb2) | (e & _ & ?)]; [|discriminate].
    destruct (deepCopy_result f v gk g3 ci Eb1) as (L3 & F3 & Hall & Hcomp).
    assert (Lp : prev < length gk) by (unfold prev; lia).
    unfold Put in Eb2. rewrite bind_reading in Eb2. unfold lookup_object in Eb2.
    rewrite F3, Hshell in Eb2 by done. cbn [o_slots o_props o_proto] in Eb2.
    rewrite (assoc_clone_props_None curr) in Eb2
      by (now apply NoDup_not_in_take).
    assert (K : key_eqb (KString curr) (KString "__proto__") = false).
    { cbn. destruct (String.eqb_spec curr "__proto__") as [->|]; [|done].
      destruct Hproto. eapply list_elem_of_lookup_2; eauto. }
    rewrite K in Eb2. injection Eb2 as <-.
    assert (Hlk : length (take k keys) = length cs).
    { rewrite length_take. apply lookup_lt_Some in Hk. fold keys in Hk. lia. }
    split; [rewrite length_insert; lia|].
    split.
    { intros l' Hl'. rewrite list_lookup_insert_ne by (unfold prev; lia).
      rewrite F3 by lia. now apply Fk. }
    exists (cs ++ [ci]). split; [rewrite length_app; simpl; lia|].
    split.
    { rewrite list_lookup_insert_eq by lia.
      now rewrite (take_S_r keys k _ Hk), clone_props_snoc. }
    split.
    { intros j c' Hj. rewrite length_insert.
      destruct (decide (j < length cs)) as [Hlt|Hge].
      - rewrite lookup_app_l in Hj by done. apply Hbound in Hj. lia.
      - rewrite lookup_app_r in Hj by lia.
        destruct (j - length cs) as [|?]; [|discriminate].
        injection Hj as ->. now apply Hall. }
    intros j key s os Hj Hkj Hget Hos Htag.
    destruct (decide (j = k)) as [->|Hne].
    + assert (key = curr) by congruence. subst key.
      assert (v = VRef s) by congruence. subst v.
      assert (Hsk : gk !! s = Some os)
        by (rewrite Fk; [done | eapply lookup_lt_Some; eauto]).
      rewrite (Hcomp s os eq_refl Hsk Htag).
      exists (length gk). split.
      { rewrite lookup_app_r by lia. now rewrite Hlen, Nat.sub_diag. }
      split; [lia|]. intros j' Hj' Hc'.
      rewrite lookup_app_l in Hc' by lia. apply Hbound in Hc'. lia.
    + destruct (Hvals j key s os ltac:(lia) Hkj Hget Hos Htag)
        as (lc & Hlc & Lc & Hd).
      exists lc. split; [rewrite lookup_app_l; [done|lia]|].
      split; [done|]. intros j' Hj'. rewrite lookup_app_l by lia. auto.
  - split; [rewrite length_app; simpl; lia|].
    split; [intros l' Hl'; now rewrite lookup_app_l|].
    exists []. split; [done|].
    split; [apply list_lookup_middle; done|].
    split; [intros j c' Hj; discriminate | intros j key s os Hj; lia].
Qed.

(** [deepCopy] does not preserve shared references: where two properties of
    a record hold the same array, record, map, set, date or regular
    expression, the two properties of the clone hold two different new
    objects. *)
Theorem deepCopy_duplicates_shared h (a : loc) o k1 k2 (s : loc) os :
  plain h (VRef a) -> h !! a = Some o -> is_record o ->
  NoDup (Object_keys o) ->
  k1 ∈ Object_keys o -> k2 ∈ Object_keys o -> k1 <> k2 ->
  Get o (KString k1) = Return (VRef s) ->
  Get o (KString k2) = Return (VRef s) ->
  h !! s = Some os -> tag os ∈ composite_tags ->
  exists n, forall fuel, n <= fuel ->
    exists h' (c : loc) ps (c1 c2 : loc),
      deepCopy fuel (VRef a) h = (h', Return (VRef c)) /\
      h' !! c = Some (Obj ObjectPrototype SOrdinary ps) /\
      assoc (KString k1) ps = Some (data_property (VRef c1)) /\
      assoc (KString k2) ps = Some (data_property (VRef c2)) /\
      c1 <> c2 /\ h !! c1 = None /\ h !! c2 = None.
Proof.
  intros Hplain Ho Hrec Hnd Hk1 Hk2 Hne Hg1 Hg2 Hos Htag.
  assert (Hproto : "__proto__" ∉ Object_keys o).
  { inversion Hplain as [p Hp _ | l o' Ho' Hwf _]; [destruct Hp|]. subst l.
    assert (o' = o) by congruence. subst o'. now apply Hwf. }
  destruct (deepCopy_good _ _ never h (or_intror (fun o H => H)) _ Hplain)
    as [n Hn].
  exists n. intros fuel Hf. specialize (Hn fuel Hf h (extends_refl h)).
  destruct (deepCopy fuel (VRef a) h) as [h' [c|e]] eqn:E; [|destruct Hn].
  destruct fuel as [|f]; [discriminate|].
  rewrite (deepCopy_ref f h a o Ho) in E. unfold is_record in Hrec.
  rewrite Hrec in E. cbn [String.eqb Ascii.eqb Bool.eqb] in E.
  destruct (copy_object_values f h h' c a o Ho Hnd Hproto E)
    as (cs & -> & Hc & Hlen & Hvals).
  apply list_elem_of_lookup in Hk1 as [j1 Hj1].
  apply list_elem_of_lookup in Hk2 as [j2 Hj2].
  destruct (Hvals j1 k1 s os Hj1 Hg1 Hos Htag) as (c1 & Hc1 & L1 & D1).
  destruct (Hvals j2 k2 s os Hj2 Hg2 Hos Htag) as (c2 & Hc2 & L2 & D2).
  exists h', (length h), (clone_props (Object_keys o) cs), c1, c2.
  split; [done|]. split; [done|].
  split; [now apply (assoc_clone_props _ _ j1)|].
  split; [now apply (assoc_clone_props _ _ j2)|].
  split.
  - intros <-. assert (j1 <> j2) by congruence.
    destruct (decide (j1 < j2)) as [Hlt|Hge].
    + now apply (D2 j1).
    + apply (D1 j2); [lia | done].
  - split; apply lookup_ge_None_2; lia.
Qed.

Lemma shared_heap_plain : plain shared_heap (VRef 1).
Proof. unfold plain. graph_tac ltac:(first [exact I | wf_object_tac]). Qed.

(** [shared = {v: 1}; root = {a: shared, b: shared}; c = deepCopy(root)]
    gives [c.a !== c.b]. *)
Lemma deepCopy_duplicates_shared_example :
  exists n, forall fuel, n <= fuel ->
    exists h' (c : loc) ps (c1 c2 : loc),
      deepCopy fuel (VRef 1) shared_heap = (h', Return (VRef c)) /\
      h' !! c = Some (Obj ObjectPrototype SOrdinary ps) /\
      assoc (KString "a") ps = Some (data_property (VRef c1)) /\
      assoc (KString "b") ps = Some (data_property (VRef c2)) /\
      c1 <> c2 /\ shared_heap !! c1 = None /\ shared_heap !! c2 = None.
Proof.
  refine (deepCopy_duplicates_shared shared_heap 1
            (record [("a", VRef 0); ("b", VRef 0)]) "a" "b" 0
            (record [("v", num 1)])
            shared_heap_plain eq_refl eq_refl _ _ _ _ eq_refl eq_refl eq_refl _).
  - repeat (apply NoDup_cons; split; [intros Hin; elements Hin|]).
    apply NoDup_nil_2.
  - apply list_elem_of_here.
  - apply list_elem_of_further, list_elem_of_here.
  - discriminate.
  - apply list_elem_of_further, list_elem_of_here.
Defined.

(** ** Equality: exclusions, unhandled types, termination *)

Lemma every_impl {A} (f g : A -> outcome bool) l :
  (forall a, a ∈ l -> f a = Return true -> g a = Return true) ->
  every f l = Return true -> every g l = Return true.
Proof.
  intros H. rewrite !every_true, !Forall_forall. auto.
Qed.

(** A longer exclusion list never turns equal values into unequal ones, at
    any depth of the comparison. *)
Theorem isObjectEqual_more_exclusions fuel h obj1 obj2 excludes excludes' :
  exclusion_le excludes excludes' ->
  isObjectEqual fuel h obj1 obj2 excludes = Return true ->
  isObjectEqual fuel h obj1 obj2 excludes' = Return true.
Proof.
  intros Hle. revert obj1 obj2.
  induction fuel as [|fuel IH]; intros obj1 obj2; [discriminate|].
  cbn [isObjectEqual].
  destruct (mTypeof obj1 h) as [type1|e]; [|discriminate].
  destruct (mTypeof obj2 h) as [type2|e]; [|discriminate].
  cbn [mbind outcome_bind].
  destruct (negb (type1 =? type2)); [done|].
  destruct (type1 =? "array").
  { unfold equal_arrays.
    destruct (array_elements obj1 h) as [a1|e]; [|discriminate].
    destruct (array_elements obj2 h) as [a2|e]; [|discriminate].
    cbn [mbind outcome_bind].
    destruct (negb (length a1 =? length a2)%nat); [done|].
    apply every_impl. intros [idx [v|]] _; [apply IH | done]. }
  destruct (type1 =? "object"); [|done].
  unfold equal_objects.
  destruct (deref obj1 h) as [[l1 o1]|e]; [|discriminate].
  destruct (deref obj2 h) as [[l2 o2]|e]; [|discriminate].
  cbn [mbind outcome_bind].
  destruct (negb (length (Object_keys o1) =? length (Object_keys o2))%nat); [done|].
  apply every_impl. intros k _.
  destruct (excluded excludes' k) eqn:E'; [done|].
  destruct (excluded excludes k) eqn:E; [apply Hle in E; congruence|].
  destruct (Get o1 (KString k)) as [v1|e]; [|discriminate].
  destruct (Get o2 (KString k)) as [v2|e]; [|discriminate].
  apply IH.
Qed.

(** [isObjectEqual([{key: 1, val: 2}], [{key: 99, val: 2}], ['key'])] is
    true, and so it is with the longer list [['id', 'key']]. *)
Lemma isObjectEqual_more_exclusions_example :
  isObjectEqual 3 nested_exclusion_heap (VRef 3) (VRef 4) (Some ["key"])
    = Return true /\
  isObjectEqual 3 nested_exclusion_heap (VRef 3) (VRef 4) (Some ["id"; "key"])
    = Return true.
Proof.
  assert (H : isObjectEqual 3 nested_exclusion_heap (VRef 3) (VRef 4)
                (Some ["key"]) = Return true) by reflexivity.
  split; [exact H|].
  refine (isObjectEqual_more_exclusions 3 nested_exclusion_heap (VRef 3) (VRef 4)
            (Some ["key"]) (Some ["id"; "key"]) _ H).
  intros k Hk. cbn in *. destruct (k =? "key"); [|discriminate].
  now rewrite orb_true_r.
Defined.

(** Two objects of the same type, if [isObjectEqual] has no case for the
    type, are equal whatever they hold: two different elements, two
    different [WeakMap]s, two errors. *)
Theorem isObjectEqual_uncompared_types fuel h (l1 l2 : loc) o1 o2 excludes :
  h !! l1 = Some o1 -> h !! l2 = Some o2 ->
  tag o1 = tag o2 -> tag o1 ∉ compared_tags ->
  isObjectEqual (S fuel) h (VRef l1) (VRef l2) excludes = Return true.
Proof.
  intros H1 H2 Heq Ht. cbn [isObjectEqual].
  rewrite (mTypeof_ref _ _ _ H1), (mTypeof_ref _ _ _ H2), <- Heq.
  cbn [mbind outcome_bind]. rewrite String.eqb_refl. cbn [negb].
  assert (N : forall s, s ∈ compared_tags -> (tag o1 =? s) = false).
  { intros s Hs. destruct (String.eqb_spec (tag o1) s); [|done]. now subst. }
  unfold compared_tags in N.
  rewrite (N "array"), (N "object"), (N "string"), (N "number"), (N "boolean"),
    (N "date"), (N "function"), (N "map"), (N "set"), (N "regexp")
    by (repeat (first [apply list_elem_of_here | apply list_elem_of_further])).
  reflexivity.
Qed.

(** Two [WeakMap]s with different entries compare equal. *)
Lemma isObjectEqual_uncompared_types_example :
  isObjectEqual 1 weakmap_heap (VRef 0) (VRef 1) None = Return true.
Proof.
  refine (isObjectEqual_uncompared_types 0 weakmap_heap 0 1 _ _ None
            eq_refl eq_refl eq_refl _).
  intros H. unfold compared_tags in H. elements H.
Defined.

Lemma every_not_fail {A} (f : A -> outcome bool) l e :
  (forall a, a ∈ l -> f a <> Fail e) -> every f l <> Fail e.
Proof.
  induction l as [|a l IH]; intros H; simpl; [discriminate|].
  pose proof (H a (list_elem_of_here _ _)) as Ha.
  destruct (f a) as [[]|e']; [|discriminate|done].
  apply IH. intros a' Ha'. apply H. now right.
Qed.

Lemma outcome_bind_not_fail {A B} (m : outcome A) (k : A -> outcome B) e :
  m <> Fail e -> (forall a, m = Return a -> k a <> Fail e) ->
  (m ≫= k) <> Fail e.
Proof.
  intros Hm Hk. destruct m as [a|e']; cbn; [now apply Hk|].
  intros [= ->]. now apply Hm.
Qed.

Lemma deref_not_out_of_fuel v h : deref v h <> Fail OutOfFuel.
Proof.
  destruct v; try discriminate. cbn. unfold lookup_object.
  destruct (h !! l); discriminate.
Qed.

Lemma array_elements_not_out_of_fuel v h : array_elements v h <> Fail OutOfFuel.
Proof.
  unfold array_elements. apply outcome_bind_not_fail.
  - apply deref_not_out_of_fuel.
  - intros [l o] _. destruct (o_proto o), (o_slots o); discriminate.
Qed.

Lemma getTime_not_out_of_fuel v h : getTime v h <> Fail OutOfFuel.
Proof.
  unfold getTime. apply outcome_bind_not_fail.
  - apply deref_not_out_of_fuel.
  - intros [l o] _. destruct (o_proto o), (o_slots o); discriminate.
Qed.

Lemma regexp_toString_not_out_of_fuel v h : regexp_toString v h <> Fail OutOfFuel.
Proof.
  unfold regexp_toString. apply outcome_bind_not_fail.
  - apply deref_not_out_of_fuel.
  - intros [l o] _. destruct (o_proto o), (o_slots o); discriminate.
Qed.

Lemma entries_not_out_of_fuel v h : entries v h <> Fail OutOfFuel.
Proof.
  unfold entries. apply outcome_bind_not_fail.
  - apply deref_not_out_of_fuel.
  - intros [l o] _. destruct (o_proto o), (o_slots o); discriminate.
Qed.

Lemma mTypeof_not_out_of_fuel v h : mTypeof v h <> Fail OutOfFuel.
Proof.
  destruct v; try discriminate. cbn. unfold lookup_object.
  destruct (h !! l); discriminate.
Qed.

Lemma Get_not_out_of_fuel o k : Get o k <> Fail OutOfFuel.
Proof.
  unfold Get. destruct (assoc k (own_properties o)); [discriminate|].
  unfold inherited. destruct (o_proto o), k; try discriminate.
  destruct (existsb _ _); discriminate.
Qed.

(** One call of [isObjectEqual] runs out of fuel only if a recursive call
    on an element or a property value of [obj1] does. *)
Lemma isObjectEqual_step fuel h obj1 obj2 excludes :
  (forall l o w, obj1 = VRef l -> h !! l = Some o -> w ∈ held_values o ->
     forall obj2, isObjectEqual fuel h w obj2 excludes <> Fail OutOfFuel) ->
  isObjectEqual (S fuel) h obj1 obj2 excludes <> Fail OutOfFuel.
Proof.
  intros Hrec. cbn [isObjectEqual].
  apply outcome_bind_not_fail; [apply mTypeof_not_out_of_fuel|].
  intros type1 _.
  apply outcome_bind_not_fail; [apply mTypeof_not_out_of_fuel|].
  intros type2 _.
  destruct (negb (type1 =? type2)); [discriminate|].
  destruct (type1 =? "array").
  { unfold equal_arrays.
    apply outcome_bind_not_fail; [apply array_elements_not_out_of_fuel|].
    intros a1 Ha1.
    apply outcome_bind_not_fail; [apply array_elements_not_out_of_fuel|].
    intros a2 _.
    destruct (negb (length a1 =? length a2)%nat); [discriminate|].
    apply every_not_fail. intros [idx [v|]] Hin; [|discriminate].
    apply imap_pair_elem in Hin. unfold array_elements in Ha1.
    destruct obj1 as [| | | | |l]; try discriminate. cbn in Ha1.
    unfold lookup_object in Ha1. destruct (h !! l) as [o|] eqn:Ho; [|discriminate].
    cbn in Ha1.
    destruct (o_proto o) eqn:Hp; try discriminate.
    destruct (o_slots o) eqn:Hs; try discriminate. injection Ha1 as ->.
    apply (Hrec l o v eq_refl Ho).
    now apply (array_element_held o a1 idx v). }
  destruct (type1 =? "object").
  { unfold equal_objects.
    destruct (deref obj1 h) as [[l1 o1]|e] eqn:E1;
      [|cbn; intros [= ->]; now apply (deref_not_out_of_fuel obj1 h)].
    cbn [mbind outcome_bind].
    apply outcome_bind_not_fail; [apply deref_not_out_of_fuel|].
    intros [l2 o2] _.
    destruct (negb (length (Object_keys o1) =? length (Object_keys o2))%nat);
      [discriminate|].
    apply every_not_fail. intros k Hk.
    destruct (excluded excludes k); [discriminate|].
    destruct (Object_keys_Get o1 k Hk) as (v & -> & Hv).
    cbn [mbind outcome_bind].
    apply outcome_bind_not_fail; [apply Get_not_out_of_fuel|].
    intros v2 _.
    destruct obj1 as [| | | | |l]; try discriminate. cbn in E1.
    unfold lookup_object in E1. destruct (h !! l) as [o|] eqn:Ho; [|discriminate].
    injection E1 as <- <-. now apply (Hrec l o v eq_refl Ho). }
  destruct ((type1 =? "string") || (type1 =? "number") || (type1 =? "boolean"));
    [discriminate|].
  destruct (type1 =? "date").
  { apply outcome_bind_not_fail; [apply getTime_not_out_of_fuel|]. intros t1 _.
    apply outcome_bind_not_fail; [apply getTime_not_out_of_fuel|]. discriminate. }
  destruct (type1 =? "function"); [discriminate|].
  destruct ((type1 =? "map") || (type1 =? "set")).
  { unfold equal_entries.
    apply outcome_bind_not_fail; [apply entries_not_out_of_fuel|]. intros e1 _.
    apply outcome_bind_not_fail; [apply entries_not_out_of_fuel|]. intros e2 _.
    destruct (negb (length e1 =? length e2)%nat); discriminate. }
  destruct (type1 =? "regexp"); [|discriminate].
  apply outcome_bind_not_fail; [apply regexp_toString_not_out_of_fuel|].
  intros s1 _.
  apply outcome_bind_not_fail; [apply regexp_toString_not_out_of_fuel|].
  discriminate.
Qed.

(** Whether [isObjectEqual] returns depends on its first argument alone: the
    recursion follows the elements and the keys of [obj1], so that on a
    first argument without cycles it ends, whatever the second is. *)
Theorem isObjectEqual_terminates h obj1 :
  acyclic h obj1 ->
  exists n, forall fuel, n <= fuel ->
    forall obj2 excludes,
      isObjectEqual fuel h obj1 obj2 excludes <> Fail OutOfFuel.
Proof.
  intros Hv. induction Hv as [p Hp _ | l o Ho _ Hheld IH].
  - exists 1. intros [|fuel] Hf obj2 excludes; [lia|].
    apply isObjectEqual_step. intros l o w ->. destruct Hp.
  - destruct (bounded_forall
                (fun m w => forall obj2 excludes,
                   isObjectEqual m h w obj2 excludes <> Fail OutOfFuel)
                (held_values o) IH) as [n Hn].
    exists (S n). intros [|fuel] Hf obj2 excludes; [lia|].
    apply isObjectEqual_step. intros l' o' w [= <-] Ho' Hw obj2'.
    assert (o' = o) by congruence. subst o'.
    apply Hn; [lia | done].
Qed.

Lemma cyclic_second_heap_acyclic : acyclic cyclic_second_heap (VRef 1).
Proof. unfold acyclic. graph_tac ltac:(exact I). Qed.

(** With [a = {self: a}] as second argument and [{self: 1}] as first, the
    comparison returns. *)
Lemma isObjectEqual_terminates_example :
  exists n, forall fuel, n <= fuel ->
    forall obj2 excludes,
      isObjectEqual fuel cyclic_second_heap (VRef 1) obj2 excludes
        <> Fail OutOfFuel.
Proof.
  exact (isObjectEqual_terminates cyclic_second_heap (VRef 1)
           cyclic_second_heap_acyclic).
Defined.

Lemma every_reaches_failure {A} (f : A -> outcome bool) e ks k rest :
  Forall (fun a => f a = Return true \/ f a = Fail e) ks -> f k = Fail e ->
  every f (ks ++ k :: rest) = Fail e.
Proof.
  intros Hks Hk. induction Hks as [|a ks [Ha|Ha] _ IH]; cbn [app every].
  - now rewrite Hk.
  - now rewrite Ha.
  - now rewrite Ha.
Qed.

(** On a record that holds itself under a key that is not excluded,
    [isObjectEqual] does not return, even when both arguments are that same
    record, provided the comparison gets to that key: every key before it
    in the order of [Object.keys] is excluded or holds a primitive other
    than [NaN].  Every call then reaches a further call on the record.  (A
    key before it that holds [NaN] ends the comparison with [false].) *)
Theorem isObjectEqual_never_returns_on_self_reference
    fuel h (a : loc) o excludes before key rest :
  h !! a = Some o -> is_record o ->
  Object_keys o = before ++ key :: rest ->
  Forall (fun k => excluded excludes k = true \/
                   exists p, Get o (KString k) = Return p /\
                             is_primitive p /\ p <> VNumber S754_nan) before ->
  excluded excludes key = false ->
  Get o (KString key) = Return (VRef a) ->
  isObjectEqual fuel h (VRef a) (VRef a) excludes = Fail OutOfFuel.
Proof.
  intros Ha Hrec Hkeys Hbefore Hex Hget.
  induction fuel as [|fuel IH]; [reflexivity|].
  rewrite (isObjectEqual_records fuel h a a o o excludes Ha Ha Hrec Hrec).
  rewrite (equal_objects_unfold _ h excludes a a o o Ha Ha).
  rewrite Nat.eqb_refl. cbn [negb]. rewrite Hkeys.
  apply every_reaches_failure.
  - eapply Forall_impl; [exact Hbefore|]. cbn beta.
    intros k [Hk | (p & Hp & Hprim & Hnan)]; [left; now rewrite Hk|].
    destruct (excluded excludes k); [now left|].
    rewrite Hp. cbn [mbind outcome_bind].
    destruct fuel as [|fuel']; [now right | left].
    now apply isObjectEqual_primitive.
  - rewrite Hex, Hget. cbn [mbind outcome_bind]. exact IH.
Qed.

(** [a = {key: 1, n: 2}; a.self = a; isObjectEqual(a, a)] does not return,
    and neither does it on [a = {}; a.self = a]; with [n: NaN] in the place
    of [n: 2] it returns [false]. *)
Lemma isObjectEqual_self_reference_example :
  isObjectEqual 5 self_later_heap (VRef 0) (VRef 0) (Some ["key"])
    = Fail OutOfFuel /\
  isObjectEqual 5 self_heap (VRef 0) (VRef 0) (Some ["key"]) = Fail OutOfFuel /\
  isObjectEqual 5 self_later_heap (VRef 1) (VRef 1) (Some ["key"])
    = Return false.
Proof.
  split; [|split; [|reflexivity]].
  - refine (isObjectEqual_never_returns_on_self_reference 5 self_later_heap 0
              _ (Some ["key"]) ["key"; "n"] "self" [] eq_refl eq_refl eq_refl
              _ eq_refl eq_refl).
    constructor; [now left|]. constructor; [|constructor].
    right. exists (num 2). split; [reflexivity|]. split; [exact I|]. discriminate.
  - exact (isObjectEqual_never_returns_on_self_reference 5 self_heap 0
             _ (Some ["key"]) [] "self" [] eq_refl eq_refl eq_refl
             (Forall_nil_2 _) eq_refl eq_refl).
Defined.

(** [isObjectEqual(x, x)] is true for every [x] without cycles that holds no
    [NaN] and no invalid date, whatever the exclusion list. *)
Theorem isObjectEqual_reflexive h x :
  comparable h x ->
  exists n, forall fuel, n <= fuel ->
    forall excludes, isObjectEqual fuel h x x excludes = Return true.
Proof.
  intros Hx. induction Hx as [p Hp Hn | l o Ho Hok Hheld IH].
  - exists 1. intros [|fuel] Hf excludes; [lia|].
    now apply isObjectEqual_primitive.
  - destruct (bounded_forall
                (fun m w => forall excludes,
                   isObjectEqual m h w w excludes = Return true)
                (held_values o) IH) as [n Hn].
    exists (S n). intros [|fuel] Hf excludes; [lia|].
    assert (Hrec : forall w, w ∈ held_values o ->
              isObjectEqual fuel h w w excludes = Return true).
    { intros w Hw. apply Hn; [lia | done]. }
    destruct Hok as ((WA & _ & WM & WS & WR & WD) & CS & CM & CD).
    cbn [isObjectEqual]. rewrite (mTypeof_ref _ _ _ Ho).
    cbn [mbind outcome_bind]. rewrite String.eqb_refl. cbn [negb].
    destruct (String.eqb_spec (tag o) "array") as [T|_].
    { destruct (WA T) as [es Hes].
      apply (equal_arrays_true _ h (VRef l) (VRef l) es es);
        try (now apply (array_elements_ref h l o es)).
      split; [done|]. intros i v Hv. unfold Get_index. rewrite Hv. cbn.
      apply Hrec. now apply (array_element_held o es i v). }
    destruct (String.eqb_spec (tag o) "object") as [T|_].
    { rewrite (equal_objects_unfold _ h excludes l l o o Ho Ho).
      rewrite Nat.eqb_refl. cbn [negb]. apply every_true, Forall_forall.
      intros k Hk. destruct (excluded excludes k); [done|].
      destruct (Object_keys_Get o k Hk) as (v & -> & Hv).
      cbn [mbind outcome_bind]. now apply Hrec. }
    destruct ((tag o =? "string") || (tag o =? "number") || (tag o =? "boolean"));
      [cbn; now rewrite Nat.eqb_refl|].
    destruct (String.eqb_spec (tag o) "date") as [T|_].
    { destruct (WD T) as [t Ht]. unfold getTime. rewrite (deref_ref _ _ _ Ho).
      cbn [mbind outcome_bind]. pose proof (CD t Ht) as Hnan.
      destruct Ht as [-> ->]. cbn [mbind outcome_bind].
      now rewrite SFeqb_refl. }
    destruct (tag o =? "function"); [cbn; now rewrite Nat.eqb_refl|].
    destruct (String.eqb_spec (tag o) "map") as [T|_].
    { destruct (WM T) as [es Hes]. cbn [orb]. unfold equal_entries.
      rewrite (entries_map h l o es Ho Hes). cbn [mbind outcome_bind].
      rewrite Nat.eqb_refl. cbn [negb]. f_equal. apply entries_loop_refl.
      eapply Forall_impl; [apply (CM es Hes)|]. intros [k v] [Hk Hv].
      split; now apply strict_equal_refl. }
    destruct (String.eqb_spec (tag o) "set") as [T|_].
    { destruct (WS T) as [es Hes]. cbn [orb]. unfold equal_entries.
      rewrite (entries_set h l o es Ho Hes). cbn [mbind outcome_bind].
      rewrite length_fmap, Nat.eqb_refl. cbn [negb]. f_equal.
      apply entries_loop_refl. apply Forall_fmap.
      eapply Forall_impl; [apply (CS es Hes)|]. intros v Hv.
      split; now apply strict_equal_refl. }
    cbn [orb].
    destruct (String.eqb_spec (tag o) "regexp") as [T|_]; [|done].
    destruct (WR T) as (src & fl & Hre). unfold regexp_toString.
    rewrite (deref_ref _ _ _ Ho). cbn [mbind outcome_bind].
    destruct Hre as [-> ->]. cbn [mbind outcome_bind].
    now rewrite String.eqb_refl.
Qed.

Lemma graph_impl (okp okp' : value -> Prop) (ok ok' : object -> Prop) h v :
  (forall p, okp p -> okp' p) -> (forall o, ok o -> ok' o) ->
  graph okp ok h v -> graph okp' ok' h v.
Proof.
  intros Hp Ho. induction 1 as [p Hprim Hok | l o Hl Hok _ IH].
  - apply graph_primitive; auto.
  - eapply graph_object; eauto.
Qed.

Lemma passes_through_not_nan h v : passes_through h v -> v <> VNumber S754_nan.
Proof. destruct v; try discriminate. cbn. congruence. Qed.

Lemma faithful_comparable h x : faithful h x -> comparable h x.
Proof.
  apply graph_impl; [done|].
  intros o (Hwf & _ & Hset & Hmap & Hdate).
  split; [done|]. split; [|split; [|done]].
  - intros es Hes. destruct (Hset es Hes) as [_ H].
    eapply Forall_impl; [exact H|]. intros v. apply passes_through_not_nan.
  - intros es Hes. destruct (Hmap es Hes) as [_ H].
    eapply Forall_impl; [exact H|]. intros [k v] [Hk Hv].
    split; [done|]. eapply passes_through_not_nan; eauto.
Qed.

(** The sample of every composite type equals itself. *)
Lemma isObjectEqual_reflexive_example :
  exists n, forall fuel, n <= fuel ->
    forall excludes,
      isObjectEqual fuel sample_heap (VRef 6) (VRef 6) excludes = Return true.
Proof.
  exact (isObjectEqual_reflexive sample_heap (VRef 6)
           (faithful_comparable _ _ sample_faithful)).
Defined.

Lemma isObjectEqual_undefined fuel h excludes :
  isObjectEqual (S fuel) h VUndefined VUndefined excludes = Return true.
Proof. reflexivity. Qed.

(** A hole of the first array matches whatever the second array holds at
    that index: [every] skips holes.  An array of holes equals every array
    of its length. *)
Theorem isObjectEqual_holes_match_anything fuel h (l1 l2 : loc) o1 o2 es2 excludes :
  h !! l1 = Some o1 -> h !! l2 = Some o2 ->
  is_array o1 (replicate (length es2) None) -> is_array o2 es2 ->
  isObjectEqual (S fuel) h (VRef l1) (VRef l2) excludes = Return true.
Proof.
  intros H1 H2 A1 A2.
  rewrite (isObjectEqual_arrays fuel h l1 l2 o1 o2 _ es2 excludes H1 H2 A1 A2).
  apply (equal_arrays_true _ h (VRef l1) (VRef l2) (replicate (length es2) None) es2);
    try (eapply array_elements_ref; eauto).
  split; [apply length_replicate|].
  intros i v Hv. apply lookup_replicate in Hv as [Hv _]. discriminate.
Qed.

(** [isObjectEqual(new Array(2), [1, "x"])] is true; the other way round it
    is false. *)
Lemma isObjectEqual_holes_example :
  isObjectEqual 1 holes_heap (VRef 0) (VRef 1) None = Return true /\
  isObjectEqual 2 holes_heap (VRef 1) (VRef 0) None = Return false.
Proof.
  split; [|reflexivity].
  exact (isObjectEqual_holes_match_anything 0 holes_heap 0 1 _ _
           [Some (num 1); Some (VString "x")] None eq_refl eq_refl
           (conj eq_refl eq_refl) (conj eq_refl eq_refl)).
Defined.

(** A key that the second record lacks reads [undefined] there, and the
    key sets are compared by their size only: two records with different
    keys are equal when the first holds [undefined] under each of its keys
    that is not excluded. *)
Theorem isObjectEqual_missing_key_is_undefined
    fuel h (l1 l2 : loc) o1 o2 excludes :
  h !! l1 = Some o1 -> h !! l2 = Some o2 ->
  is_record o1 -> is_record o2 -> o_proto o2 = ObjectPrototype ->
  length (Object_keys o1) = length (Object_keys o2) ->
  (forall k, k ∈ Object_keys o1 -> excluded excludes k = false ->
     Get o1 (KString k) = Return VUndefined /\
     assoc (KString k) (own_properties o2) = None /\
     k ∉ object_prototype_members) ->
  isObjectEqual (S (S fuel)) h (VRef l1) (VRef l2) excludes = Return true.
Proof.
  intros H1 H2 R1 R2 Hp Hlen Hkeys.
  rewrite (isObjectEqual_records _ h l1 l2 o1 o2 excludes H1 H2 R1 R2).
  rewrite (equal_objects_unfold _ h excludes l1 l2 o1 o2 H1 H2).
  rewrite Hlen, Nat.eqb_refl. cbn [negb].
  apply every_true, Forall_forall. intros k Hk.
  destruct (excluded excludes k) eqn:E; [done|].
  destruct (Hkeys k Hk E) as (-> & Hnone & Hmem).
  cbn [mbind outcome_bind]. unfold Get. rewrite Hnone, Hp. cbn [inherited].
  assert (M : existsb (String.eqb k) object_prototype_members = false).
  { destruct (existsb _ _) eqn:Ex; [|done]. apply existsb_exists in Ex as (x & Hx & Hkx).
    apply String.eqb_eq in Hkx as <-. destruct Hmem. now apply list_elem_of_In. }
  rewrite M. reflexivity.
Qed.

(** [isObjectEqual({a: undefined}, {b: 1}, [])] is true; the other way
    round it is false. *)
Lemma isObjectEqual_missing_key_example :
  isObjectEqual 2 missing_key_heap (VRef 0) (VRef 1) (Some []) = Return true /\
  isObjectEqual 2 missing_key_heap (VRef 1) (VRef 0) (Some []) = Return false.
Proof.
  split; [|reflexivity].
  refine (isObjectEqual_missing_key_is_undefined 0 missing_key_heap 0 1 _ _
            (Some []) eq_refl eq_refl eq_refl eq_refl eq_refl eq_refl _).
  intros k Hk _. cbn in Hk. elements Hk.
  split; [reflexivity|]. split; [reflexivity|].
  intros H. unfold object_prototype_members in H. elements H.
Defined.

Lemma entries_loop_irreflexive es :
  Exists (fun p => strict_equal p.1 p.1 = false) es -> entries_loop es es = false.
Proof.
  induction 1 as [p es Hp | p es _ IH]; simpl.
  - now rewrite Hp.
  - destruct (negb (strict_equal p.1 p.1) || negb (strict_equal p.2 p.2)); done.
Qed.

(** [isObjectEqual(x, x)] is false where [x] is [NaN], an invalid date or a
    set that holds [NaN]: numbers, time values and entries are compared
    with [===]. *)
Theorem isObjectEqual_not_reflexive fuel h (l : loc) o excludes :
  h !! l = Some o ->
  is_date o S754_nan \/ (exists es, is_set o es /\ VNumber S754_nan ∈ es) ->
  isObjectEqual (S fuel) h (VNumber S754_nan) (VNumber S754_nan) excludes
    = Return false /\
  isObjectEqual (S fuel) h (VRef l) (VRef l) excludes = Return false.
Proof.
  intros Ho Hcase. split; [reflexivity|].
  destruct Hcase as [Hd | (es & Hs & Hin)].
  - now rewrite (isObjectEqual_dates fuel h l l o o _ _ excludes Ho Ho Hd Hd).
  - rewrite (isObjectEqual_sets fuel h l l o o es es excludes Ho Ho Hs Hs).
    unfold equal_entries. rewrite (entries_set h l o es Ho Hs).
    cbn [mbind outcome_bind]. rewrite Nat.eqb_refl. cbn [negb]. f_equal.
    apply entries_loop_irreflexive. apply list.Exists_exists.
    exists (set_entry (VNumber S754_nan)). split; [|reflexivity].
    apply list_elem_of_fmap. eauto.
Qed.

(** [d = new Date(NaN); isObjectEqual(d, d)] and
    [s = new Set([NaN]); isObjectEqual(s, s)] are false. *)
Lemma isObjectEqual_not_reflexive_example :
  isObjectEqual 1 nan_heap (VRef 0) (VRef 0) None = Return false /\
  isObjectEqual 1 nan_heap (VRef 1) (VRef 1) None = Return false.
Proof.
  split.
  - refine (proj2 (isObjectEqual_not_reflexive 0 nan_heap 0 _ None eq_refl _)).
    left. split; reflexivity.
  - refine (proj2 (isObjectEqual_not_reflexive 0 nan_heap 1 _ None eq_refl _)).
    right. exists [VNumber S754_nan]. split; [split; reflexivity|].
    apply list_elem_of_here.
Defined.

(** ** deepCopy: keys, holes, map keys, set elements *)

(** On a well-formed input without cycles, [deepCopy] returns. *)
Lemma deepCopy_returns h v :
  plain h v ->
  exists n, forall fuel, n <= fuel ->
    exists h' c, deepCopy fuel v h = (h', Return c).
Proof.
  intros Hv.
  destruct (deepCopy_good _ _ never h (or_intror (fun o H => H)) v Hv) as [n Hn].
  exists n. intros fuel Hf. specialize (Hn fuel Hf h (extends_refl h)).
  destruct (deepCopy fuel v h) as [h' [c|e]]; [eauto | destruct Hn].
Qed.

Lemma composite_dec g v : composite g v \/ ~ composite g v.
Proof.
  destruct v as [| | | | |s];
    try (right; intros (? & ? & Hv & _); discriminate Hv).
  destruct (g !! s) as [os|] eqn:Hos.
  - destruct (decide (tag os ∈ composite_tags)) as [Hin|Hout].
    + left. exists s, os. done.
    + right. intros (s' & os' & [= <-] & Hos' & Ht). congruence.
  - right. intros (s' & os' & [= <-] & Hos' & _). congruence.
Qed.

(** The two ways [deepCopy] returns: the value as it is, the heap as it
    was; or a new object. *)
Lemma deepCopy_cases fuel v g g' c :
  deepCopy fuel v g = (g', Return c) ->
  length g <= length g' /\
  (forall l, l < length g -> g' !! l = g !! l) /\
  (forall l, c = VRef l -> l < length g') /\
  ((~ composite g v /\ c = v /\ g' = g) \/
   (composite g v /\ c = VRef (length g))).
Proof.
  intros E. destruct (deepCopy_result fuel v g g' c E) as (L & F & Hall & Hcomp).
  split; [done|]. split; [done|]. split; [done|].
  destruct (composite_dec g v) as [(s & os & -> & Hos & Ht) | Hn].
  - right. split; [exists s, os; done|]. eauto.
  - left. split; [done|]. destruct fuel as [|fuel]; [discriminate|].
    destruct v as [| |b|n|x|s]; try (cbn in E; now injection E as <- <-).
    destruct (g !! s) as [os|] eqn:Hos.
    + rewrite (deepCopy_passes_through fuel g s os Hos) in E.
      * now injection E as <- <-.
      * intros Ht. apply Hn. exists s, os. done.
    + cbn [deepCopy] in E. rewrite bind_reading in E.
      unfold mTypeof, lookup_object in E. rewrite Hos in E. discriminate.
Qed.

(** The record [deepCopy] makes of a record without cycles whose objects
    are well formed (so that it has no own property named [__proto__]): its
    prototype is [Object.prototype], its keys are the enumerable string keys
    of the original, and every property is writable, enumerable and
    configurable. *)
Theorem deepCopy_keeps_enumerable_string_keys h (a : loc) o :
  plain h (VRef a) -> h !! a = Some o -> is_record o ->
  NoDup (Object_keys o) ->
  exists n, forall fuel, n <= fuel ->
    exists h' (c : loc) ps,
      deepCopy fuel (VRef a) h = (h', Return (VRef c)) /\
      h !! c = None /\
      h' !! c = Some (Obj ObjectPrototype SOrdinary ps) /\
      ps.*1 = KString <$> Object_keys o /\
      Forall (fun kp => plain_property kp.2) ps.
Proof.
  intros Hplain Ho Hrec Hnd.
  assert (Hproto : "__proto__" ∉ Object_keys o).
  { inversion Hplain as [p Hp _ | l o' Ho' Hwf _]; [destruct Hp|]. subst l.
    assert (o' = o) by congruence. subst o'. now apply Hwf. }
  destruct (deepCopy_returns h (VRef a) Hplain) as [n Hn].
  exists n. intros fuel Hf. destruct (Hn fuel Hf) as (h' & c & E).
  destruct fuel as [|f]; [discriminate|].
  pose proof E as E'.
  rewrite (deepCopy_ref f h a o Ho) in E'. unfold is_record in Hrec.
  rewrite Hrec in E'. cbn [String.eqb Ascii.eqb Bool.eqb] in E'.
  destruct (copy_object_values f h h' c a o Ho Hnd Hproto E')
    as (cs & -> & Hc & Hlen & _).
  exists h', (length h), (clone_props (Object_keys o) cs).
  split; [done|]. split; [apply lookup_ge_None_2; lia|]. split; [done|].
  clear -Hlen. revert cs Hlen.
  induction (Object_keys o) as [|k ks IH]; intros [|c cs] Hlen;
    try discriminate; cbn; [split; [done | constructor]|].
  destruct (IH cs ltac:(now injection Hlen)) as [IH1 IH2].
  split; [now f_equal|]. constructor; [done | exact IH2].
Qed.

Lemma descriptor_heap_plain : plain descriptor_heap (VRef 1).
Proof. unfold plain. graph_tac ltac:(first [exact I | wf_object_tac]). Qed.

(** The object with the non-enumerable [n], the symbol key and the
    prototype [proto]: [deepCopy] returns the empty record [{}]. *)
Lemma deepCopy_keeps_enumerable_string_keys_example :
  exists n, forall fuel, n <= fuel ->
    exists h' (c : loc) ps,
      deepCopy fuel (VRef 1) descriptor_heap = (h', Return (VRef c)) /\
      descriptor_heap !! c = None /\
      h' !! c = Some (Obj ObjectPrototype SOrdinary ps) /\
      ps.*1 = [] /\
      Forall (fun kp => plain_property kp.2) ps.
Proof.
  refine (deepCopy_keeps_enumerable_string_keys descriptor_heap 1 _
            descriptor_heap_plain eq_refl eq_refl _).
  apply NoDup_nil_2.
Defined.

(** The array [map] makes: as long as the original, with a hole for each
    hole, and without the own properties of the original that are not
    indices. *)
Lemma copy_array_shape f g g' c l o es :
  g !! l = Some o -> is_array o es ->
  copy_array (deepCopy f) (VRef l) g = (g', Return c) ->
  exists cs,
    c = VRef (length g) /\
    g' !! length g = Some (Obj ArrayPrototype (SArray cs) []) /\
    Forall2 hole_for_hole cs es.
Proof.
  intros Ho [P S] E. unfold copy_array in E.
  rewrite bind_reading, (deref_ref g l o Ho) in E. cbv beta iota in E.
  rewrite P, S, bind_alloc in E.
  set (A := length g) in *. set (n := length es) in *.
  apply bind_inv in E as [(g1 & [] & E1 & E2) | (e & _ & ?)]; [|discriminate].
  injection E2 as <- <-.
  apply (iterate_invariant
    (fun k gk =>
       length g < length gk /\
       exists cs,
         length cs = k /\
         gk !! A = Some (Obj ArrayPrototype
                             (SArray (cs ++ replicate (n - k) None)) []) /\
         Forall2 hole_for_hole cs (take k es))) in E1.
  - destruct E1 as (L1 & cs & Hlen & Hshell & Hrel).
    rewrite length_imap in Hlen, Hshell, Hrel. fold n in Hlen, Hshell, Hrel.
    rewrite Nat.sub_diag, app_nil_r in Hshell. unfold n in Hrel.
    rewrite firstn_all in Hrel. exists cs. done.
  - intros k [k' e] gk gk' Hk (Lk & cs & Hlen & Hshell & Hrel) Eb.
    rewrite list_lookup_imap in Hk.
    destruct (es !! k) as [e'|] eqn:Hes; [|discriminate]. cbn in Hk.
    injection Hk as <- <-.
    assert (Hkn : k < n) by (eapply lookup_lt_Some; eauto).
    assert (LA : A < length gk) by (unfold A; lia).
    destruct e' as [v|].
    + apply bind_inv in Eb as [(g3 & ci & Eb1 & Eb2) | (e & _ & ?)]; [|discriminate].
      destruct (deepCopy_result f v gk g3 ci Eb1) as (L3 & F3 & _ & _).
      unfold define_element in Eb2. rewrite bind_reading in Eb2.
      unfold lookup_object in Eb2. rewrite F3, Hshell in Eb2 by done.
      cbn in Eb2. injection Eb2 as <-.
      split; [rewrite length_insert; lia|].
      exists (cs ++ [Some ci]). split; [rewrite length_app; simpl; lia|]. split.
      * rewrite list_lookup_insert_eq by lia. now rewrite (insert_shell cs k n).
      * rewrite (take_S_r es k _ Hes). apply Forall2_app; [done|].
        repeat constructor; discriminate.
    + injection Eb as <-. split; [done|].
      exists (cs ++ [None]). split; [rewrite length_app; simpl; lia|]. split.
      * now rewrite <- (hole_shell cs k n).
      * rewrite (take_S_r es k _ Hes). apply Forall2_app; [done|].
        repeat constructor; done.
  - split; [rewrite length_app; simpl; lia|]. exists []. split; [done|].
    split; [|constructor].
    rewrite Nat.sub_0_r. apply list_lookup_middle. done.
Qed.

(** [deepCopy] of an array: a new array of the same length, with a hole
    wherever the original has one; own properties of the original that are
    not indices are not copied. *)
Theorem deepCopy_of_array_keeps_holes h (a : loc) o es :
  plain h (VRef a) -> h !! a = Some o -> is_array o es ->
  exists n, forall fuel, n <= fuel ->
    exists h' (c : loc) cs,
      deepCopy fuel (VRef a) h = (h', Return (VRef c)) /\
      h !! c = None /\
      h' !! c = Some (Obj ArrayPrototype (SArray cs) []) /\
      length cs = length es /\
      forall i, cs !! i = Some None <-> es !! i = Some None.
Proof.
  intros Hplain Ho Ha.
  destruct (deepCopy_returns h (VRef a) Hplain) as [n Hn].
  exists n. intros fuel Hf. destruct (Hn fuel Hf) as (h' & c & E).
  destruct fuel as [|f]; [discriminate|].
  pose proof E as E'.
  rewrite (deepCopy_ref f h a o Ho), (tag_array o es Ha) in E'.
  cbn [String.eqb Ascii.eqb Bool.eqb] in E'.
  destruct (copy_array_shape f h h' c a o es Ho Ha E') as (cs & -> & Hc & Hrel).
  exists h', (length h), cs. split; [done|].
  split; [apply lookup_ge_None_2; lia|]. split; [done|].
  split; [eapply Forall2_length; eauto|].
  intros i. split; intros Hi.
  - destruct (Forall2_lookup_l _ _ _ i _ Hrel Hi) as (e & He & Hce).
    rewrite He. f_equal. now apply Hce.
  - destruct (Forall2_lookup_r _ _ _ i _ Hrel Hi) as (ci & Hci & Hce).
    rewrite Hci. f_equal. now apply Hce.
Qed.

Lemma sparse_heap_plain : plain sparse_heap (VRef 1).
Proof. unfold plain. graph_tac ltac:(first [exact I | wf_object_tac]). Qed.

(** [a = [1, , {}]; a.note = "x"; deepCopy(a)] has a hole at index 1 and no
    property [note]. *)
Lemma deepCopy_of_array_example :
  exists n, forall fuel, n <= fuel ->
    exists h' (c : loc) cs,
      deepCopy fuel (VRef 1) sparse_heap = (h', Return (VRef c)) /\
      sparse_heap !! c = None /\
      h' !! c = Some (Obj ArrayPrototype (SArray cs) []) /\
      length cs = 3 /\
      forall i, cs !! i = Some None <->
                [Some (num 1); None; Some (VRef 0)] !! i = Some None.
Proof.
  exact (deepCopy_of_array_keeps_holes sparse_heap 1 _
           [Some (num 1); None; Some (VRef 0)]
           sparse_heap_plain eq_refl (conj eq_refl eq_refl)).
Defined.

(** The map [deepCopy] makes of a map: the keys of the original, by
    reference and in order, each with some value. *)
Lemma copy_map_keys f g g' c l o es :
  g !! l = Some o -> is_map o es -> distinct es.*1 ->
  copy_map (deepCopy f) (VRef l) g = (g', Return c) ->
  exists vs,
    c = VRef (length g) /\
    g' !! length g = Some (Obj MapPrototype (SMapData (zip es.*1 vs)) []) /\
    length vs = length es.
Proof.
  intros Ho [P S] Hdis E. unfold copy_map in E. rewrite bind_alloc in E.
  set (tmpMap := length g) in *.
  pose proof (lookup_lt_Some _ _ _ Ho) as Ll.
  rewrite bind_reading in E. unfold deref, lookup_object in E.
  rewrite lookup_app_l, Ho in E by done. cbv beta iota in E.
  cbn [mbind outcome_bind] in E. rewrite P, S in E.
  apply bind_inv in E as [(g1 & [] & E1 & E2) | (e & _ & ?)]; [|discriminate].
  injection E2 as <- <-.
  apply (iterate_invariant
    (fun k gk =>
       length g < length gk /\
       exists vs,
         length vs = k /\
         gk !! tmpMap = Some (Obj MapPrototype
                                  (SMapData (zip (take k es.*1) vs)) []))) in E1.
  - destruct E1 as (L1 & vs & Hlen & Hshell).
    rewrite <- (length_fmap fst es), firstn_all in Hshell.
    exists vs. done.
  - intros k [key v] gk gk' Hk (Lk & vs & Hlen & Hshell) Eb.
    apply bind_inv in Eb as [(g3 & c' & Eb1 & Eb2) | (e & _ & ?)]; [|discriminate].
    destruct (deepCopy_result f v gk g3 c' Eb1) as (L3 & F3 & _ & _).
    assert (Lt : tmpMap < length gk) by (unfold tmpMap; lia).
    unfold Map_set in Eb2. rewrite bind_reading in Eb2. unfold lookup_object in Eb2.
    rewrite F3, Hshell in Eb2 by done. cbn [o_slots] in Eb2.
    unfold store, with_slots in Eb2. cbn [o_proto o_props] in Eb2.
    injection Eb2 as <-.
    split; [rewrite length_insert; lia|].
    exists (vs ++ [c']). split; [rewrite length_app; simpl; lia|].
    rewrite list_lookup_insert_eq by lia.
    assert (Hk' : es.*1 !! k = Some key) by (now rewrite list_lookup_fmap, Hk).
    assert (Hlk : length (take k es.*1) = length vs).
    { rewrite length_take. apply lookup_lt_Some in Hk'. lia. }
    rewrite map_set_entry_new.
    + rewrite (take_S_r es.*1 k key Hk').
      now rewrite (zip_with_app pair (take k es.*1) [key] vs [c'] Hlk).
    + intros i [ki vi] Hi. cbn. apply not_true_is_false. intros Hsame.
      assert (Hi' : take k es.*1 !! i = Some ki).
      { apply lookup_zip_with_Some in Hi as (x & y & [= -> ->] & Hx & _).
        exact Hx. }
      apply lookup_take_Some in Hi' as [Hi' Hlt].
      pose proof (Hdis i k _ _ Hi' Hk' Hsame). lia.
  - split; [rewrite length_app; simpl; lia|]. exists []. split; [done|].
    apply list_lookup_middle. done.
Qed.

(** [deepCopy] of a map: a new map with the keys of the original, the same
    values in the same order, so that a key that is an object is shared by
    the map and its clone. *)
Theorem deepCopy_of_map_shares_keys h (a : loc) o es :
  plain h (VRef a) -> h !! a = Some o -> is_map o es -> distinct es.*1 ->
  exists n, forall fuel, n <= fuel ->
    exists h' (c : loc) es',
      deepCopy fuel (VRef a) h = (h', Return (VRef c)) /\
      h !! c = None /\
      h' !! c = Some (Obj MapPrototype (SMapData es') []) /\
      es'.*1 = es.*1.
Proof.
  intros Hplain Ho Hm Hdis.
  destruct (deepCopy_returns h (VRef a) Hplain) as [n Hn].
  exists n. intros fuel Hf. destruct (Hn fuel Hf) as (h' & c & E).
  destruct fuel as [|f]; [discriminate|].
  pose proof E as E'.
  rewrite (deepCopy_ref f h a o Ho), (tag_map o es Hm) in E'.
  cbn [String.eqb Ascii.eqb Bool.eqb] in E'.
  destruct (copy_map_keys f h h' c a o es Ho Hm Hdis E') as (vs & -> & Hc & Hlen).
  exists h', (length h), (zip es.*1 vs). split; [done|].
  split; [apply lookup_ge_None_2; lia|]. split; [done|].
  unfold zip. apply fst_zip. rewrite length_fmap. lia.
Qed.

Lemma object_key_heap_plain : plain object_key_heap (VRef 2).
Proof. unfold plain. graph_tac ltac:(first [exact I | wf_object_tac]). Qed.

(** [k = {}; m = new Map([[k, {}], ["n", 1]])]: the clone of [m] has the
    key [k] itself. *)
Lemma deepCopy_of_map_example :
  exists n, forall fuel, n <= fuel ->
    exists h' (c : loc) es',
      deepCopy fuel (VRef 2) object_key_heap = (h', Return (VRef c)) /\
      object_key_heap !! c = None /\
      h' !! c = Some (Obj MapPrototype (SMapData es') []) /\
      es'.*1 = [VRef 0; VString "n"].
Proof.
  refine (deepCopy_of_map_shares_keys object_key_heap 2 _
            [(VRef 0, VRef 1); (VString "n", num 1)]
            object_key_heap_plain eq_refl (conj eq_refl eq_refl) _).
  distinct_tac.
Defined.

Lemma same_value_zero_ref x b :
  same_value_zero (VRef x) b = match b with VRef y => (x =? y)%nat | _ => false end.
Proof. now destruct b. Qed.

Lemma same_value_zero_ref_r a y :
  same_value_zero a (VRef y) = match a with VRef x => (x =? y)%nat | _ => false end.
Proof. destruct a as [| | |n| |]; try reflexivity. now destruct n. Qed.

(** The set [deepCopy] makes of a set: element by element, the element
    itself or a new object, in the order of the original. *)
Lemma copy_set_elements f g g' c l o es :
  g !! l = Some o -> is_set o es -> distinct es -> allocated g es ->
  copy_set (deepCopy f) (VRef l) g = (g', Return c) ->
  exists cs,
    c = VRef (length g) /\
    g' !! length g = Some (Obj SetPrototype (SSetData cs) []) /\
    Forall2 (element_clone g) cs es.
Proof.
  intros Ho [P S] Hdis Hall E. unfold copy_set in E. rewrite bind_alloc in E.
  set (tmpSet := length g) in *.
  pose proof (lookup_lt_Some _ _ _ Ho) as Ll.
  rewrite bind_reading in E. unfold deref, lookup_object in E.
  rewrite lookup_app_l, Ho in E by done. cbv beta iota in E.
  cbn [mbind outcome_bind] in E. rewrite P, S in E.
  apply bind_inv in E as [(g1 & [] & E1 & E2) | (e & _ & ?)]; [|discriminate].
  injection E2 as <- <-.
  apply (iterate_invariant
    (fun k gk =>
       length g < length gk /\
       (forall l', l' < length g -> gk !! l' = g !! l') /\
       exists cs,
         gk !! tmpSet = Some (Obj SetPrototype (SSetData cs) []) /\
         (forall j c', cs !! j = Some (VRef c') -> c' < length gk) /\
         Forall2 (element_clone g) cs (take k es))) in E1.
  - destruct E1 as (L1 & F1 & cs & Hshell & _ & Hrel).
    rewrite firstn_all in Hrel. exists cs. done.
  - intros k v gk gk' Hk (Lk & Fk & cs & Hshell & Hbound & Hrel) Eb.
    apply bind_inv in Eb as [(g3 & c' & Eb1 & Eb2) | (e & _ & ?)]; [|discriminate].
    destruct (deepCopy_cases f v gk g3 c' Eb1) as (L3 & F3 & Hall3 & Hcases).
    assert (Lt : tmpSet < length gk) by (unfold tmpSet; lia).
    assert (Hvin : v ∈ es) by (eapply list_elem_of_lookup_2; eauto).
    assert (Hcomp : composite gk v <-> composite g v).
    { split; intros (s & os & -> & Hos & Ht); exists s, os;
        (split; [done|]); (split; [|done]).
      - rewrite <- Fk; [done|]. now apply Hall.
      - rewrite Fk; [done|]. now apply Hall. }
    assert (Hclone : element_clone g c' v).
    { destruct Hcases as [(Hn & -> & _) | (Hc & ->)].
      - left. split; [now rewrite <- Hcomp | done].
      - right. split; [now apply Hcomp|]. exists (length gk). split; [done | lia]. }
    unfold Set_add in Eb2. rewrite bind_reading in Eb2. unfold lookup_object in Eb2.
    rewrite F3, Hshell in Eb2 by done. cbn [o_slots] in Eb2.
    unfold store, with_slots in Eb2. cbn [o_proto o_props] in Eb2.
    injection Eb2 as <-.
    assert (Hnew : set_add_element c' cs = cs ++ [c']).
    { apply set_add_element_new. intros i e Hi. apply not_true_is_false.
      intros Hsame.
      destruct (Forall2_lookup_l _ _ _ i _ Hrel Hi) as (vi & Hvi & Hei).
      apply lookup_take_Some in Hvi as [Hvi Hik].
      destruct Hcases as [(Hn & -> & _) | (Hc & ->)].
      - destruct Hei as [(_ & ->) | (_ & lc & -> & Llc)].
        + pose proof (Hdis i k _ _ Hvi Hk Hsame). lia.
        + rewrite same_value_zero_ref in Hsame.
          destruct v as [| | | | |s]; try discriminate.
          apply Nat.eqb_eq in Hsame as ->.
          pose proof (Hall s Hvin). lia.
      - rewrite same_value_zero_ref_r in Hsame.
        destruct e as [| | | | |x]; try discriminate.
        apply Nat.eqb_eq in Hsame as ->. apply Hbound in Hi. lia. }
    rewrite Hnew.
    split; [rewrite length_insert; lia|].
    split.
    { intros l' Hl'. rewrite list_lookup_insert_ne by (unfold tmpSet; lia).
      rewrite F3 by lia. now apply Fk. }
    exists (cs ++ [c']).
    split; [now rewrite list_lookup_insert_eq by lia|].
    split.
    { intros j c'' Hj. rewrite length_insert.
      destruct (decide (j < length cs)) as [Hlt|Hge].
      - rewrite lookup_app_l in Hj by done. apply Hbound in Hj. lia.
      - rewrite lookup_app_r in Hj by lia.
        destruct (j - length cs) as [|?]; [|discriminate].
        injection Hj as ->. now apply Hall3. }
    rewrite (take_S_r es k v Hk). apply Forall2_app; [done|].
    constructor; [exact Hclone | constructor].
  - split; [rewrite length_app; simpl; lia|].
    split; [intros l' Hl'; now rewrite lookup_app_l|].
    exists []. split; [apply list_lookup_middle; done|].
    split; [intros j c' Hj; discriminate | constructor].
Qed.

Lemma plain_allocated h l o es :
  plain h (VRef l) -> h !! l = Some o -> is_set o es -> allocated h es.
Proof.
  intros Hplain Ho Hs s Hin.
  inversion Hplain as [p Hp _ | l' o' Ho' _ Hheld]; [destruct Hp|]. subst l'.
  assert (o' = o) by congruence. subst o'.
  pose proof (Hheld (VRef s) (set_element_held o es _ Hs Hin)) as Hg.
  inversion Hg as [p Hp _ | s' os Hos _ _]; [destruct Hp|].
  eapply lookup_lt_Some; eauto.
Qed.

(** [deepCopy] of a set: a new set with as many elements, in the order of
    the original; a primitive, a function or an object of another type is
    the element itself, an array, record, map, set, date or regular
    expression is replaced by a new object. *)
Theorem deepCopy_of_set_keeps_order h (a : loc) o es :
  plain h (VRef a) -> h !! a = Some o -> is_set o es -> distinct es ->
  exists n, forall fuel, n <= fuel ->
    exists h' (c : loc) cs,
      deepCopy fuel (VRef a) h = (h', Return (VRef c)) /\
      h !! c = None /\
      h' !! c = Some (Obj SetPrototype (SSetData cs) []) /\
      length cs = length es /\
      forall i v, es !! i = Some v ->
        exists ci, cs !! i = Some ci /\
          (~ composite h v -> ci = v) /\
          (composite h v -> exists lc, ci = VRef lc /\ h !! lc = None).
Proof.
  intros Hplain Ho Hs Hdis.
  destruct (deepCopy_returns h (VRef a) Hplain) as [n Hn].
  exists n. intros fuel Hf. destruct (Hn fuel Hf) as (h' & c & E).
  destruct fuel as [|f]; [discriminate|].
  pose proof E as E'.
  rewrite (deepCopy_ref f h a o Ho), (tag_set o es Hs) in E'.
  cbn [String.eqb Ascii.eqb Bool.eqb] in E'.
  destruct (copy_set_elements f h h' c a o es Ho Hs Hdis
              (plain_allocated h a o es Hplain Ho Hs) E')
    as (cs & -> & Hc & Hrel).
  exists h', (length h), cs. split; [done|].
  split; [apply lookup_ge_None_2; lia|]. split; [done|].
  split; [eapply Forall2_length; eauto|].
  intros i v Hi.
  destruct (Forall2_lookup_r _ _ _ i _ Hrel Hi) as (ci & Hci & Hcl).
  exists ci. split; [done|]. split.
  - intros Hn'. destruct Hcl as [(_ & ->) | (Hc' & _)]; [done | contradiction].
  - intros Hc'. destruct Hcl as [(Hn' & _) | (_ & lc & -> & Llc)]; [contradiction|].
    exists lc. split; [done|]. apply lookup_ge_None_2. lia.
Qed.

Lemma mixed_set_heap_plain : plain mixed_set_heap (VRef 2).
Proof. unfold plain. graph_tac ltac:(first [exact I | wf_object_tac]). Qed.

(** [f = function () {}; s = new Set([1, "a", f, {}])]: the clone of [s]
    has four elements, in the order of [s]. *)
Lemma deepCopy_of_set_example :
  exists n, forall fuel, n <= fuel ->
    exists h' (c : loc) cs,
      deepCopy fuel (VRef 2) mixed_set_heap = (h', Return (VRef c)) /\
      mixed_set_heap !! c = None /\
      h' !! c = Some (Obj SetPrototype (SSetData cs) []) /\
      length cs = 4 /\
      forall i v, [num 1; VString "a"; VRef 0; VRef 1] !! i = Some v ->
        exists ci, cs !! i = Some ci /\
          (~ composite mixed_set_heap v -> ci = v) /\
          (composite mixed_set_heap v ->
           exists lc, ci = VRef lc /\ mixed_set_heap !! lc = None).
Proof.
  refine (deepCopy_of_set_keeps_order mixed_set_heap 2 _
            [num 1; VString "a"; VRef 0; VRef 1]
            mixed_set_heap_plain eq_refl (conj eq_refl eq_refl) _).
  distinct_tac.
Defined.

(** ** distinctArray *)

Lemma SFeqb_sym x y : SFeqb x y = SFeqb y x.
Proof.
  unfold SFeqb.
  destruct x as [sx|sx| |sx mx ex], y as [sy|sy| |sy my ey]; cbn;
    try reflexivity; try (now destruct sx); try (now destruct sy);
    try (now destruct sx, sy).
  destruct sx, sy; try reflexivity;
    rewrite (Z.compare_antisym ex ey);
    destruct (ex ?= ey)%Z; cbn; try reflexivity;
    change (Pos.compare_cont Eq my mx) with (my ?= mx)%positive;
    change (Pos.compare_cont Eq mx my) with (mx ?= my)%positive;
    rewrite (Pos.compare_antisym mx my); now destruct (mx ?= my)%positive.
Qed.

Lemma strict_equal_sym a b : strict_equal a b = strict_equal b a.
Proof.
  destruct a as [| |x|x|x|x], b as [| |y|y|y|y]; cbn; try reflexivity.
  - now destruct x, y.
  - apply SFeqb_sym.
  - apply String.eqb_sym.
  - apply Nat.eqb_sym.
Qed.

Lemma same_value_zero_sym a b : same_value_zero a b = same_value_zero b a.
Proof.
  unfold same_value_zero.
  destruct a as [| |x|x|x|x], b as [| |y|y|y|y];
    try apply strict_equal_sym;
    try (destruct x; apply strict_equal_sym);
    try (destruct y; apply strict_equal_sym).
  destruct x, y; try reflexivity; apply strict_equal_sym.
Qed.

Lemma same_value_zero_refl v : same_value_zero v v = true.
Proof.
  destruct v as [| |b|x|s|l]; cbn; try reflexivity.
  - now destruct b.
  - destruct x; try reflexivity; apply SFeqb_refl; discriminate.
  - apply String.eqb_refl.
  - apply Nat.eqb_refl.
Qed.

Lemma normalize_zero_idempotent v : normalize_zero (normalize_zero v) = normalize_zero v.
Proof. destruct v as [| | |x| |]; try reflexivity. now destruct x as [[]| | |]. Qed.

(** [add] either finds the value in the set or appends it. *)
Lemma set_add_element_cases v es :
  (set_add_element v es = es /\ exists e, e ∈ es /\ same_value_zero e v = true) \/
  (set_add_element v es = es ++ [v] /\
   forall e, e ∈ es -> same_value_zero e v = false).
Proof.
  unfold set_add_element.
  destruct (existsb (fun e => same_value_zero e v) es) eqn:Ex.
  - left. split; [done|]. apply existsb_exists in Ex as (e & Hin & He).
    exists e. split; [now apply list_elem_of_In | done].
  - right. split; [done|]. intros e Hin. apply not_true_is_false. intros He.
    assert (existsb (fun e => same_value_zero e v) es = true); [|congruence].
    apply existsb_exists. exists e. split; [now apply list_elem_of_In | done].
Qed.

Lemma distinct_snoc es v :
  distinct es -> (forall e, e ∈ es -> same_value_zero e v = false) ->
  distinct (es ++ [v]).
Proof.
  intros Hd Hv i j x y Hi Hj Hs.
  destruct (decide (i < length es)) as [Li|Li];
    destruct (decide (j < length es)) as [Lj|Lj].
  - rewrite lookup_app_l in Hi, Hj by done. eauto.
  - rewrite lookup_app_l in Hi by done. rewrite lookup_app_r in Hj by lia.
    destruct (j - length es) as [|?]; [|discriminate]. injection Hj as <-.
    rewrite (Hv x) in Hs; [discriminate | eapply list_elem_of_lookup_2; eauto].
  - rewrite lookup_app_l in Hj by done. rewrite lookup_app_r in Hi by lia.
    destruct (i - length es) as [|?]; [|discriminate]. injection Hi as <-.
    rewrite same_value_zero_sym, (Hv y) in Hs;
      [discriminate | eapply list_elem_of_lookup_2; eauto].
  - apply lookup_lt_Some in Hi, Hj. rewrite length_app in Hi, Hj. simpl in *. lia.
Qed.

(** The set after adding [values] to a set with the elements [acc]. *)
Lemma add_all_spec values : forall acc,
  distinct acc -> Forall (fun c => normalize_zero c = c) acc ->
  let result :=
    foldl (fun elements v => set_add_element (normalize_zero v) elements)
          acc values in
  distinct result /\
  Forall (fun c => normalize_zero c = c) result /\
  (exists r, result = acc ++ r /\ r `sublist_of` (normalize_zero <$> values)) /\
  (forall v, v ∈ values ->
     exists c, c ∈ result /\ same_value_zero c (normalize_zero v) = true).
Proof.
  induction values as [|v values IH]; intros acc Hd Hc; cbn.
  - split; [done|]. split; [done|]. split.
    + exists []. split; [now rewrite app_nil_r | constructor].
    + intros v Hv. inversion Hv.
  - destruct (set_add_element_cases (normalize_zero v) acc)
      as [[-> (e & He & Hs)] | [-> Hnew]].
    + destruct (IH acc Hd Hc) as (D & C & (r & Hr & Hsub) & Hmem).
      split; [done|]. split; [done|]. split.
      * exists r. split; [done|]. now apply sublist_cons.
      * intros v' Hv'. apply elem_of_cons in Hv' as [->|Hv']; [|auto].
        exists e. split; [|done]. cbn in Hr. rewrite Hr.
        apply elem_of_app. now left.
    + destruct (IH (acc ++ [normalize_zero v])) as (D & C & (r & Hr & Hsub) & Hmem).
      * now apply distinct_snoc.
      * apply Forall_app. split; [done|]. repeat constructor.
        apply normalize_zero_idempotent.
      * split; [done|]. split; [done|]. split.
        -- exists (normalize_zero v :: r). split.
           ++ cbn in Hr. rewrite Hr, <- app_assoc. done.
           ++ now apply sublist_skip.
        -- intros v' Hv'. apply elem_of_cons in Hv' as [->|Hv']; [|auto].
           exists (normalize_zero v). split; [|apply same_value_zero_refl].
           cbn in Hr. rewrite Hr. apply elem_of_app. left.
           apply elem_of_app. right. apply list_elem_of_here.
Qed.

(** A set made from distinct values that hold no [-0] has these values. *)
Lemma add_all_distinct values : forall acc,
  distinct (acc ++ values) -> Forall (fun c => normalize_zero c = c) values ->
  foldl (fun elements v => set_add_element (normalize_zero v) elements)
        acc values = acc ++ values.
Proof.
  induction values as [|v values IH]; intros acc Hd Hc; cbn.
  - now rewrite app_nil_r.
  - inversion Hc as [|? ? Hv Hc']. subst. rewrite Hv.
    destruct (set_add_element_cases v acc) as [[_ (e & He & Hs)] | [-> _]].
    + exfalso. apply list_elem_of_lookup in He as [i Hi].
      assert (H1 : (acc ++ v :: values) !! i = Some e).
      { rewrite lookup_app_l; [done | eapply lookup_lt_Some; eauto]. }
      assert (H2 : (acc ++ v :: values) !! length acc = Some v)
        by apply list_lookup_middle, eq_refl.
      pose proof (Hd _ _ _ _ H1 H2 Hs). apply lookup_lt_Some in Hi. lia.
    + rewrite IH; [now rewrite <- app_assoc | now rewrite <- app_assoc | done].
Qed.



(** The call on an array: the set and the array it allocates. *)
Lemma distinctArray_array h (a : loc) o es :
  h !! a = Some o -> is_array o es ->
  let cs := new_Set_elements (default VUndefined <$> es) in
  distinctArray (VRef a) h =
    (h ++ [set_of cs; array_of cs], Return (VRef (S (length h)))).
Proof.
  intros Ho [P S] cs.
  unfold distinctArray. cbn [to_boolean negb]. rewrite bind_reading.
  unfold instanceof_Array, lookup_object. rewrite Ho. cbn [mbind outcome_bind].
  rewrite P. cbn [negb]. rewrite bind_reading.
  unfold array_values. rewrite (deref_ref _ _ _ Ho). cbn [mbind outcome_bind].
  rewrite S. cbv zeta. rewrite !bind_alloc. cbn [mret M_ret].
  rewrite length_app. cbn [length]. rewrite Nat.add_1_r.
  now rewrite <- app_assoc.
Qed.

Lemma SFeqb_true x y :
  SFeqb x y = true ->
  x = y \/ exists s1 s2, x = S754_zero s1 /\ y = S754_zero s2.
Proof.
  unfold SFeqb.
  destruct x as [sx|sx| |sx mx ex], y as [sy|sy| |sy my ey]; cbn;
    try discriminate; try (destruct sx; discriminate);
    try (destruct sy; discriminate).
  - intros _. right. eauto.
  - destruct sx, sy; try discriminate; now left.
  - destruct sx, sy; try discriminate;
      destruct (Z.compare_spec ex ey) as [->|?|?]; try discriminate;
      change (Pos.compare_cont Eq mx my) with (mx ?= my)%positive;
      destruct (Pos.compare_spec mx my) as [->|?|?]; try discriminate;
      now left.
Qed.

Lemma SFeqb_trans x y z :
  SFeqb x y = true -> SFeqb y z = true -> SFeqb x z = true.
Proof.
  intros Hxy Hyz.
  destruct (SFeqb_true x y Hxy) as [->|(s1 & s2 & -> & ->)]; [exact Hyz|].
  destruct (SFeqb_true _ z Hyz) as [<-|(s3 & s4 & _ & ->)]; reflexivity.
Qed.

Lemma same_value_zero_trans x y z :
  same_value_zero x y = true -> same_value_zero y z = true ->
  same_value_zero x z = true.
Proof.
  destruct x as [| |a|a|a|a], y as [| |b|b|b|b]; try discriminate;
    try (destruct a; discriminate); try (destruct b; discriminate);
    destruct z as [| |c|c|c|c]; try discriminate;
    try (destruct b; discriminate); try (destruct c; discriminate);
    try reflexivity.
  - cbn. rewrite !Bool.eqb_true_iff. congruence.
  - destruct a as [sa|sa| |sa ma ea], b as [sb|sb| |sb mb eb];
      try discriminate; try (destruct sa; discriminate);
      try (destruct sb; discriminate);
      destruct c as [sc|sc| |sc mc ec];
      try discriminate; try (destruct sb; discriminate);
      try (destruct sc; discriminate); try reflexivity;
      apply SFeqb_trans.
  - cbn. rewrite !String.eqb_eq. congruence.
  - cbn. rewrite !Nat.eqb_eq. congruence.
Qed.

Lemma existsb_elem_of (P : value -> bool) (l : list value) :
  existsb P l = true <-> exists e, e ∈ l /\ P e = true.
Proof.
  rewrite existsb_exists. split; intros (e & He & HP); exists e;
    (split; [now apply list_elem_of_In | done]).
Qed.

(** The set made of [vs], added to a set [acc] that holds the same values as
    [seen], holds the first occurrences of [vs] after [seen]. *)
Lemma add_all_first_occurrences vs : forall acc seen,
  (forall w, existsb (fun e => same_value_zero e w) acc
             = existsb (fun e => same_value_zero e w) seen) ->
  foldl (fun elements v => set_add_element v elements) acc vs
  = acc ++ first_occurrences seen vs.
Proof.
  induction vs as [|v vs IH]; intros acc seen Hinv; cbn [foldl first_occurrences].
  - now rewrite app_nil_r.
  - unfold set_add_element at 2. rewrite (Hinv v).
    destruct (existsb (fun e => same_value_zero e v) seen) eqn:Ex.
    + apply IH. intros w. rewrite existsb_app. cbn [existsb].
      rewrite orb_false_r, <- (Hinv w).
      destruct (same_value_zero v w) eqn:Hvw; [|now rewrite orb_false_r].
      rewrite orb_true_r. rewrite <- (Hinv v) in Ex.
      apply existsb_elem_of in Ex as (e & He & Hev).
      apply existsb_elem_of. exists e. split; [done|].
      now apply same_value_zero_trans with v.
    + rewrite (IH (acc ++ [v]) (seen ++ [v])); [now rewrite <- app_assoc|].
      intros w. rewrite !existsb_app. now rewrite (Hinv w).
Qed.

Lemma new_Set_elements_first_occurrences values :
  new_Set_elements values = first_occurrences [] (normalize_zero <$> values).
Proof.
  unfold new_Set_elements.
  transitivity (foldl (fun elements v => set_add_element v elements) []
                      (normalize_zero <$> values)).
  - generalize (@nil value). induction values as [|v values IH]; intros acc;
      [reflexivity|]. cbn. apply IH.
  - now rewrite (add_all_first_occurrences (normalize_zero <$> values) [] []).
Qed.

(** On an array, [distinctArray] leaves the array as it is and returns a
    new array without holes that holds the values of the original in the
    order of their first occurrence ([undefined] for a hole, [+0] for
    [-0]): a value is there unless a value before it is the same for
    SameValueZero, the comparison of [Set].  So the elements are pairwise
    different, they are taken from the original in its order, and every
    value of the original is found among them. *)
Theorem distinctArray_removes_duplicates h (a : loc) o es :
  h !! a = Some o -> is_array o es ->
  exists cs,
    distinctArray (VRef a) h =
      (h ++ [set_of cs; array_of cs], Return (VRef (S (length h)))) /\
    cs = first_occurrences [] (normalize_zero <$> (default VUndefined <$> es)) /\
    distinct cs /\
    cs `sublist_of` (normalize_zero <$> (default VUndefined <$> es)) /\
    forall i e, es !! i = Some e ->
      exists c, c ∈ cs /\
        same_value_zero c (normalize_zero (default VUndefined e)) = true.
Proof.
  intros Ho Ha.
  destruct (add_all_spec (default VUndefined <$> es) [])
    as (D & _ & (r & Hr & Hsub) & Hmem);
    [intros i j x y Hi; discriminate | constructor |].
  exists (new_Set_elements (default VUndefined <$> es)).
  split; [|split; [|split; [|split]]].
  - now apply distinctArray_array with o.
  - apply new_Set_elements_first_occurrences.
  - exact D.
  - unfold new_Set_elements. cbn in Hr. now rewrite Hr.
  - intros i e Hi. apply Hmem. apply list_elem_of_fmap. exists e.
    split; [done|]. eapply list_elem_of_lookup_2; eauto.
Qed.

(** [distinctArray([1, "a", 1, , NaN, -0, NaN, 0, undefined])] is
    [[1, "a", undefined, NaN, 0]]. *)
Lemma distinctArray_removes_duplicates_example :
  distinctArray (VRef 0) duplicates_heap =
    (duplicates_heap ++
       [set_of [num 1; VString "a"; VUndefined; VNumber S754_nan;
                VNumber (S754_zero false)];
        array_of [num 1; VString "a"; VUndefined; VNumber S754_nan;
                  VNumber (S754_zero false)]],
     Return (VRef 2)).
Proof.
  destruct (distinctArray_removes_duplicates duplicates_heap 0 _ _ eq_refl
              (conj eq_refl eq_refl)) as (cs & E & -> & _).
  exact E.
Defined.

(** Applied to the array it returned, [distinctArray] returns one more new
    array with the same elements, and leaves the first result as it is. *)
Theorem distinctArray_is_idempotent h (a : loc) o es :
  h !! a = Some o -> is_array o es ->
  exists cs h1 h2 (c1 c2 : loc),
    distinctArray (VRef a) h = (h1, Return (VRef c1)) /\
    h1 !! c1 = Some (array_of cs) /\
    distinctArray (VRef c1) h1 = (h2, Return (VRef c2)) /\
    h1 !! c2 = None /\
    h2 !! c2 = Some (array_of cs) /\
    h2 !! c1 = Some (array_of cs).
Proof.
  intros Ho Ha.
  destruct (add_all_spec (default VUndefined <$> es) [])
    as (D & C & _ & _);
    [intros i j x y Hi; discriminate | constructor |].
  set (cs := new_Set_elements (default VUndefined <$> es)) in *.
  set (h1 := h ++ [set_of cs; array_of cs]).
  assert (H1 : h1 !! S (length h) = Some (array_of cs)).
  { unfold h1. rewrite lookup_app_r by lia.
    now replace (S (length h) - length h) with 1 by lia. }
  assert (Hsame : new_Set_elements (default VUndefined <$> (Some <$> cs)) = cs).
  { rewrite <- list_fmap_compose.
    replace (default VUndefined ∘ Some <$> cs) with cs
      by (clear; induction cs as [|c cs IH]; cbn; [done | now rewrite <- IH]).
    unfold new_Set_elements. now rewrite add_all_distinct. }
  exists cs, h1, (h1 ++ [set_of cs; array_of cs]), (S (length h)), (S (length h1)).
  split; [now apply distinctArray_array with o|]. split; [exact H1|].
  split; [|split; [|split]].
  - pose proof (distinctArray_array h1 (S (length h)) _ (Some <$> cs) H1
                  (conj eq_refl eq_refl)) as E.
    cbv zeta in E. now rewrite Hsame in E.
  - apply lookup_ge_None_2. lia.
  - rewrite lookup_app_r by lia.
    now replace (S (length h1) - length h1) with 1 by lia.
  - rewrite lookup_app_l; [exact H1 | eapply lookup_lt_Some; eauto].
Qed.

(** On the array of the example, a second call returns
    [[1, "a", undefined, NaN, 0]] again, in a new array. *)
Lemma distinctArray_is_idempotent_example :
  exists cs h1 h2 (c1 c2 : loc),
    distinctArray (VRef 0) duplicates_heap = (h1, Return (VRef c1)) /\
    h1 !! c1 = Some (array_of cs) /\
    distinctArray (VRef c1) h1 = (h2, Return (VRef c2)) /\
    h1 !! c2 = None /\
    h2 !! c2 = Some (array_of cs) /\
    h2 !! c1 = Some (array_of cs).
Proof.
  exact (distinctArray_is_idempotent duplicates_heap 0 _ _ eq_refl
           (conj eq_refl eq_refl)).
Defined.

(** ** formatMoneyReg *)

(** Called on a number, as its documentation has it, [formatMoneyReg]
    throws a [TypeError]; so it does on every primitive but a string. *)
Theorem formatMoneyReg_rejects_numbers money :
  is_primitive money -> (forall s, money <> VString s) ->
  formatMoneyReg money = Fail TypeError.
Proof.
  intros Hp Hs. destruct money as [| |b|n|s|l]; try reflexivity.
  - now destruct (Hs s).
  - destruct Hp.
Qed.

(** [formatMoneyReg(1234)] throws. *)
Lemma formatMoneyReg_rejects_numbers_example :
  formatMoneyReg (num 1234) = Fail TypeError.
Proof.
  refine (formatMoneyReg_rejects_numbers (num 1234) I _). discriminate.
Defined.

Lemma remove_commas_replace X at_start s :
  remove_commas (replace_matches X at_start s) = remove_commas s.
Proof.
  revert at_start. induction s as [|c r IH]; intros at_start; [done|].
  cbn [replace_matches]. destruct (negb at_start && groups_then X (String c r)).
  - cbn. destruct (Ascii.eqb c ","); now rewrite IH.
  - cbn. destruct (Ascii.eqb c ","); now rewrite IH.
Qed.

(** [formatMoneyReg] only puts commas in: without its commas, the result is
    the input without its commas. *)
Theorem formatMoneyReg_only_inserts_commas s :
  exists r, formatMoneyReg (VString s) = Return (VString r) /\
            remove_commas r = remove_commas s.
Proof. eexists. split; [reflexivity|]. apply remove_commas_replace. Qed.

Lemma groups_then_short X s :
  String.length s < 3 -> groups_then X s = false.
Proof.
  destruct s as [|a [|b [|c r]]]; cbn; intros H; try reflexivity. lia.
Qed.

(** The lookahead on digits followed by something that is no digit: it
    holds when the digits are a multiple of three, at least three, and [X]
    holds after them. *)
Lemma append_nil (s : string) : "" +:+ s = s.
Proof. reflexivity. Qed.

Lemma append_cons c (r s : string) : String c r +:+ s = String c (r +:+ s).
Proof. reflexivity. Qed.

Lemma groups_then_digits X :
  (forall c r, is_digit c = true -> X (String c r) = false) ->
  forall n ds rest,
    String.length ds = n -> all_digits ds = true ->
    (forall c r, rest = String c r -> is_digit c = false) ->
    groups_then X (ds +:+ rest) =
    negb (n =? 0)%nat && (n mod 3 =? 0)%nat && X rest.
Proof.
  intros HX n. induction n as [n IH] using lt_wf_ind.
  intros ds rest Hn Hd Hrest.
  destruct ds as [|a [|b [|c ds']]]; cbn [String.length] in Hn; subst n;
    rewrite ?append_cons, ?append_nil.
  - destruct rest as [|x [|y [|z r]]]; try reflexivity.
    cbn [groups_then]. now rewrite (Hrest x _ eq_refl).
  - destruct rest as [|x [|y r]]; try reflexivity.
    cbn [groups_then]. rewrite (Hrest x _ eq_refl).
    now rewrite andb_false_r.
  - destruct rest as [|x r]; try reflexivity.
    cbn [groups_then]. rewrite (Hrest x _ eq_refl). now rewrite andb_false_r.
  - cbn [groups_then].
    cbn [all_digits] in Hd. apply andb_prop in Hd as [Ha Hd].
    apply andb_prop in Hd as [Hb Hd]. apply andb_prop in Hd as [Hc Hd].
    rewrite Ha, Hb, Hc. cbn [andb].
    rewrite (IH (String.length ds') ltac:(lia) ds' rest eq_refl Hd Hrest).
    replace (S (S (S (String.length ds'))) mod 3)
      with (String.length ds' mod 3)
      by (rewrite <- (Nat.Div0.mod_add (String.length ds') 1 3); f_equal; lia).
    cbn [Nat.eqb negb andb].
    destruct ds' as [|d ds''].
    + rewrite append_nil. cbn. now rewrite orb_false_r.
    + cbn [all_digits] in Hd. apply andb_prop in Hd as [Hd' _].
      rewrite append_cons, (HX d _ Hd'). reflexivity.
Qed.

Lemma at_end_digit c r : is_digit c = true -> at_end (String c r) = false.
Proof. reflexivity. Qed.

Lemma at_dot_digit c r : is_digit c = true -> at_dot (String c r) = false.
Proof.
  intros H. cbn. destruct (Ascii.eqb_spec c "."); [|done]. subst. discriminate.
Qed.

(** The replacement on digits followed by [rest]: the digits are grouped
    when [X] holds after them, and left as they are when it does not. *)
Lemma replace_matches_digits X :
  (forall c r, is_digit c = true -> X (String c r) = false) ->
  forall ds at_start rest,
    all_digits ds = true ->
    (forall c r, rest = String c r -> is_digit c = false) ->
    replace_matches X at_start (ds +:+ rest) =
    (if X rest then grouped at_start ds else ds)
      +:+ replace_matches X (at_start && at_end ds) rest.
Proof.
  intros HX ds. induction ds as [|d ds IH]; intros at_start rest Hd Hrest.
  - cbn [at_end grouped]. rewrite andb_true_r. now destruct (X rest).
  - cbn [all_digits] in Hd. apply andb_prop in Hd as [Hd1 Hd2].
    rewrite append_cons. cbn [replace_matches]. rewrite <- append_cons.
    rewrite (groups_then_digits X HX (String.length (String d ds)) (String d ds) rest
               eq_refl) by (cbn [all_digits]; now rewrite ?Hd1, ?Hd2 || done).
    rewrite (IH false rest Hd2 Hrest). cbn [andb at_end].
    rewrite andb_false_r.
    cbn [String.length Nat.eqb negb andb grouped].
    destruct (X rest); cbn [andb].
    + rewrite andb_true_r.
      destruct (negb at_start && (S (String.length ds) mod 3 =? 0)%nat);
        now rewrite !append_cons.
    + rewrite !andb_false_r. now rewrite !append_cons.
Qed.

Lemma replace_matches_no_digit X at_start s :
  no_digit_no_dot s = true ->
  replace_matches X at_start s = s.
Proof.
  revert at_start. induction s as [|c r IH]; intros at_start H; [done|].
  cbn in H. apply andb_prop in H as [H Hr]. apply andb_prop in H as [Hc _].
  cbn [replace_matches]. rewrite (IH false Hr).
  replace (groups_then X (String c r)) with false; [now rewrite andb_false_r|].
  destruct r as [|b [|c' r']]; try reflexivity. cbn.
  apply negb_true_iff in Hc. now rewrite Hc.
Qed.

Lemma append_nil_r (s : string) : s +:+ "" = s.
Proof. induction s as [|c r IH]; [done|]. now rewrite append_cons, IH. Qed.

Lemma append_assoc (a b c : string) : (a +:+ b) +:+ c = a +:+ (b +:+ c).
Proof. induction a as [|x a IH]; [done|]. now rewrite !append_cons, IH. Qed.

Lemma groups_then_no_digit X c r :
  is_digit c = false -> groups_then X (String c r) = false.
Proof. intros H. destruct r as [|b [|c' r']]; try reflexivity. cbn. now rewrite H. Qed.

(** A prefix without digits is left as it is. *)
Lemma replace_matches_prefix X pre : forall at_start s,
  no_digit_no_dot pre = true ->
  replace_matches X at_start (pre +:+ s) =
  pre +:+ replace_matches X (at_start && at_end pre) s.
Proof.
  induction pre as [|c r IH]; intros at_start s H.
  - rewrite !append_nil. cbn [at_end]. now rewrite andb_true_r.
  - cbn [no_digit_no_dot] in H. apply andb_prop in H as [H Hr].
    apply andb_prop in H as [Hc _]. apply negb_true_iff in Hc.
    rewrite !append_cons. cbn [replace_matches].
    rewrite (groups_then_no_digit X c _ Hc), andb_false_r.
    rewrite (IH false s Hr). cbn [andb at_end]. now rewrite andb_false_r.
Qed.

Lemma includes_dot_append a b :
  includes_dot (a +:+ b) = includes_dot a || includes_dot b.
Proof.
  induction a as [|c a IH]; [done|]. rewrite append_cons. cbn [includes_dot].
  now rewrite IH, orb_assoc.
Qed.

Lemma no_digit_no_dot_includes s : no_digit_no_dot s = true -> includes_dot s = false.
Proof.
  induction s as [|c r IH]; [done|]. cbn. intros H.
  apply andb_prop in H as [H Hr]. apply andb_prop in H as [_ Hc].
  apply negb_true_iff in Hc. now rewrite Hc, IH.
Qed.

Lemma all_digits_includes s : all_digits s = true -> includes_dot s = false.
Proof.
  induction s as [|c r IH]; [done|]. cbn [all_digits includes_dot]. intros H.
  apply andb_prop in H as [Hc Hr]. rewrite (IH Hr), orb_false_r.
  destruct (Ascii.eqb_spec c "."); [|done]. subst. discriminate.
Qed.

(** On digits after a prefix that holds neither a digit nor a dot (a sign,
    a currency symbol, nothing), [formatMoneyReg] groups the digits in
    threes from the right.  The test [(?!^)] spares the start of the input
    only: after a prefix, a comma comes before the digits too when they are
    a multiple of three. *)
Theorem formatMoneyReg_groups_digits pre ds :
  no_digit_no_dot pre = true -> all_digits ds = true ->
  formatMoneyReg (VString (pre +:+ ds)) =
  Return (VString (pre +:+ grouped (at_end pre) ds)).
Proof.
  intros Hpre Hds. unfold formatMoneyReg.
  rewrite includes_dot_append, (no_digit_no_dot_includes pre Hpre),
    (all_digits_includes ds Hds). cbn [orb]. cbv zeta. do 2 f_equal.
  rewrite (replace_matches_prefix at_end pre true ds Hpre). cbn [andb]. f_equal.
  rewrite <- (append_nil_r ds) at 1.
  rewrite (replace_matches_digits at_end at_end_digit ds (at_end pre) "" Hds)
    by discriminate.
  cbn [at_end replace_matches]. apply append_nil_r.
Qed.

(** ["1234567"] becomes ["1,234,567"], and ["-123456"] becomes
    ["-,123,456"]. *)
Lemma formatMoneyReg_groups_digits_example :
  formatMoneyReg (VString "1234567") = Return (VString "1,234,567") /\
  formatMoneyReg (VString "-123456") = Return (VString "-,123,456").
Proof.
  split.
  - exact (formatMoneyReg_groups_digits "" "1234567" eq_refl eq_refl).
  - exact (formatMoneyReg_groups_digits "-" "123456" eq_refl eq_refl).
Defined.

Lemma groups_then_no_dot s : includes_dot s = false -> groups_then at_dot s = false.
Proof.
  remember (String.length s) as n eqn:Hn. revert s Hn.
  induction n as [n IH] using lt_wf_ind. intros s Hn Hs.
  destruct s as [|a [|b [|c r]]]; try reflexivity.
  cbn [includes_dot] in Hs.
  apply orb_false_elim in Hs as [_ Hs]. apply orb_false_elim in Hs as [_ Hs].
  apply orb_false_elim in Hs as [_ Hs].
  cbn [groups_then]. rewrite (IH (String.length r)); [| cbn in Hn; lia | done | done].
  replace (at_dot r) with false; [now rewrite !andb_false_r|].
  destruct r as [|d r']; [done|]. cbn in *.
  now apply orb_false_elim in Hs as [-> _].
Qed.

Lemma replace_matches_no_dot s : forall at_start,
  includes_dot s = false -> replace_matches at_dot at_start s = s.
Proof.
  induction s as [|c r IH]; intros at_start Hs; [done|].
  cbn [replace_matches]. rewrite (groups_then_no_dot _ Hs), andb_false_r.
  cbn [includes_dot] in Hs. apply orb_false_elim in Hs as [_ Hs].
  now rewrite IH.
Qed.

(** With a dot in the input, the digits before the dot are grouped in
    threes and what follows the dot is left as it is. *)
Theorem formatMoneyReg_keeps_decimals pre ds frac :
  no_digit_no_dot pre = true -> all_digits ds = true ->
  includes_dot frac = false ->
  formatMoneyReg (VString (pre +:+ (ds +:+ ("." +:+ frac)))) =
  Return (VString (pre +:+ (grouped (at_end pre) ds +:+ ("." +:+ frac)))).
Proof.
  intros Hpre Hds Hfrac. unfold formatMoneyReg.
  rewrite !includes_dot_append. cbn [includes_dot Ascii.eqb Bool.eqb orb].
  rewrite !orb_true_r. cbv zeta. do 2 f_equal.
  rewrite (replace_matches_prefix at_dot pre true _ Hpre). cbn [andb]. f_equal.
  rewrite (replace_matches_digits at_dot at_dot_digit ds (at_end pre)
             ("." +:+ frac) Hds)
    by (intros c r [= <- _]; reflexivity).
  rewrite !append_cons, !append_nil.
  cbn [at_dot Ascii.eqb Bool.eqb]. f_equal.
  cbn [replace_matches].
  rewrite (groups_then_no_digit at_dot "." frac eq_refl), andb_false_r.
  now rewrite replace_matches_no_dot.
Qed.

(** ["123456789.123"], the example of the documentation as a string,
    becomes ["123,456,789.123"]. *)
Lemma formatMoneyReg_keeps_decimals_example :
  formatMoneyReg (VString "123456789.123") = Return (VString "123,456,789.123").
Proof.
  exact (formatMoneyReg_keeps_decimals "" "123456789" "123"
           eq_refl eq_refl eq_refl).
Defined.

(** ** throttle *)

(** Between two consecutive calls of [fn] through a throttled function, and
    between the call of [throttle] and the first of them, the clock has
    advanced by more than [interval], whatever the readings of the clock at
    the calls (it need not be monotone): in particular a call made within
    [interval] of the call of [throttle] is dropped. *)
Theorem throttle_spaces_calls interval _this calls : forall prev,
  spaced interval prev (throttled_run interval _this prev calls).*1.
Proof.
  induction calls as [|[curr args] calls IH]; intros prev; [exact I|].
  cbn [throttled_run]. unfold throttled.
  destruct (Z.gtb_spec (curr - prev) interval) as [Hgt|Hle].
  - cbn. split; [lia | apply IH].
  - apply IH.
Qed.

(** A throttled function never delays or repeats a call: the calls of [fn]
    are some of the calls made, in their order, each at the reading of its
    own call and with its own arguments; [this] is [_this] when that is
    truthy.  A dropped call is lost. *)
Theorem throttle_drops_calls interval _this calls : forall prev,
  (throttled_run interval _this prev calls)
    `sublist_of`
  ((fun c => (c.1, Invocation (bound_this _this) c.2)) <$> calls).
Proof.
  induction calls as [|[curr args] calls IH]; intros prev; [constructor|].
  cbn [throttled_run]. unfold throttled.
  destruct (curr - prev >? interval)%Z; cbn.
  - apply sublist_skip, IH.
  - apply sublist_cons, IH.
Qed.

(** ** getType *)

Lemma word_prefix_all_word T rest :
  all_word T = true -> starts_with_word rest = false ->
  word_prefix (T +:+ rest) = T.
Proof.
  intros HT Hrest. induction T as [|c T IH].
  - rewrite append_nil. destruct rest as [|x r]; [done|]. cbn in *. now rewrite Hrest.
  - cbn [all_word] in HT. apply andb_prop in HT as [Hc HT].
    rewrite append_cons. cbn [word_prefix]. now rewrite Hc, IH.
Qed.

Lemma match_capture_one_line T :
  T <> "" -> one_line T = true -> match_capture (T +:+ "]") = Some (T, "").
Proof.
  induction T as [|c T IH]; [done|]. intros _ H.
  cbn [one_line] in H. apply andb_prop in H as [Hc HT].
  apply negb_true_iff in Hc. rewrite append_cons. cbn [match_capture].
  rewrite Hc. destruct T as [|d T].
  - reflexivity.
  - now rewrite IH.
Qed.

(** On ["[object T]"] with a tag [T] of one line that is not empty, the
    pattern of [mTypeof] matches the whole string and the tag is left. *)
Lemma replace_object_tag_one_line T :
  T <> "" -> one_line T = true ->
  replace_object_tag ("[object " +:+ T +:+ "]") = T.
Proof.
  intros Hne H. rewrite !append_cons, append_nil.
  unfold replace_object_tag, match_object_tag.
  cbn [after_prefix Ascii.eqb Bool.eqb]. cbn [is_white_space].
  change (is_white_space " ") with true. cbv iota.
  fold replace_object_tag.
  rewrite (match_capture_one_line T Hne H). apply append_nil_r.
Qed.

Lemma is_word_not_line_terminator c :
  is_word c = true -> is_line_terminator c = false.
Proof. destruct c as [[] [] [] [] [] [] [] []]; vm_compute; congruence. Qed.

Lemma all_word_one_line T : all_word T = true -> one_line T = true.
Proof.
  induction T as [|c T IH]; [done|]. cbn [all_word one_line]. intros H.
  apply andb_prop in H as [Hc HT].
  now rewrite (is_word_not_line_terminator c Hc), IH.
Qed.

(** Where the tag is a word (as the tag of every built-in is), [getType]
    returns it in lower case; with a locale whose lower case is that of
    [toLowerCase] on the tag, and on a value that is not an element, that is
    what [mTypeof] returns. *)
Theorem getType_agrees_with_mTypeof toLocaleLowerCase value h T :
  toString_tag value h = Return T ->
  all_word T = true -> T <> "" ->
  getType toLocaleLowerCase value h = Return (toLocaleLowerCase T) /\
  (toLocaleLowerCase T = toLowerCase T ->
   (forall l o, value = VRef l -> h !! l = Some o -> instanceof_Element o = false) ->
   getType toLocaleLowerCase value h = mTypeof value h).
Proof.
  intros HT Hw Hne.
  assert (E : getType toLocaleLowerCase value h = Return (toLocaleLowerCase T)).
  { unfold getType. rewrite HT. cbn [mbind outcome_bind].
    destruct T as [|c T]; [done|].
    cbn [all_word] in Hw. apply andb_prop in Hw as [Hc Hw].
    rewrite !append_cons, append_nil.
    cbn [match_space_word Ascii.eqb Bool.eqb andb starts_with_word word_prefix].
    rewrite Hc. cbn [andb]. now rewrite (word_prefix_all_word T "]" Hw eq_refl). }
  split; [exact E|]. intros Hlow Hel. rewrite E, Hlow.
  destruct value as [| |b|n|s|l]; cbn in HT; try (injection HT as <-; reflexivity).
  unfold lookup_object in HT. cbn [mTypeof]. unfold lookup_object.
  destruct (h !! l) as [o|] eqn:Ho; [|discriminate].
  cbn in HT. injection HT as <-. cbn [mbind outcome_bind].
  rewrite (Hel l o eq_refl Ho).
  now rewrite (replace_object_tag_one_line _ Hne (all_word_one_line _ Hw)).
Qed.

(** With [toLowerCase] for the lower case of the locale, [getType] and
    [mTypeof] both call the array of the sample ['array']; a [div] element
    is ['htmldivelement'] for [getType] and ['element'] for [mTypeof]; on a
    tag that is not one word, ["My-Class"], [getType] keeps the first word
    only. *)
Lemma getType_agrees_with_mTypeof_example :
  getType toLowerCase (VRef 1) sample_heap = Return "array" /\
  getType toLowerCase (VRef 1) sample_heap = mTypeof (VRef 1) sample_heap /\
  getType toLowerCase (VRef 2) tagged_heap = Return "htmldivelement" /\
  mTypeof (VRef 2) tagged_heap = Return "element" /\
  getType toLowerCase (VRef 1) tagged_heap = Return "my" /\
  mTypeof (VRef 1) tagged_heap = Return "my-class".
Proof.
  destruct (getType_agrees_with_mTypeof toLowerCase (VRef 1) sample_heap "Array"
              eq_refl eq_refl ltac:(discriminate)) as [H1 H2].
  destruct (getType_agrees_with_mTypeof toLowerCase (VRef 2) tagged_heap
              "HTMLDivElement" eq_refl eq_refl ltac:(discriminate)) as [H3 _].
  split; [exact H1|]. split; [|split; [exact H3 | repeat split]].
  apply H2; [reflexivity|]. intros l o [= <-] [= <-]. reflexivity.
Defined.

Lemma match_space_word_no_word s :
  no_word s = true -> match_space_word s = None.
Proof.
  induction s as [|c r IH]; [done|]. cbn [no_word match_space_word]. intros H.
  apply andb_prop in H as [_ Hr]. rewrite (IH Hr).
  destruct r as [|c' r']; [now rewrite andb_false_r|].
  cbn [no_word] in Hr. apply andb_prop in Hr as [Hc' _].
  apply negb_true_iff in Hc'. cbn [starts_with_word]. rewrite Hc'.
  now rewrite andb_false_r.
Qed.

Lemma no_word_append a b : no_word (a +:+ b) = no_word a && no_word b.
Proof.
  induction a as [|c a IH]; [done|]. rewrite append_cons. cbn [no_word].
  now rewrite IH, andb_assoc.
Qed.

(** On an object whose [Symbol.toStringTag] holds no word character (the
    empty string, say), the pattern does not match, [match] is [null] and
    [getType] throws a [TypeError]. *)
Theorem getType_throws_without_word toLocaleLowerCase value h T :
  toString_tag value h = Return T -> no_word T = true ->
  getType toLocaleLowerCase value h = Fail TypeError.
Proof.
  intros HT Hw. unfold getType. rewrite HT. cbn [mbind outcome_bind].
  rewrite !append_cons, append_nil.
  cbn [match_space_word Ascii.eqb Bool.eqb andb].
  rewrite match_space_word_no_word; [|now rewrite no_word_append, Hw].
  destruct (starts_with_word (T +:+ "]")) eqn:Hs; [|reflexivity].
  exfalso. destruct T as [|c T]; [discriminate|].
  cbn [no_word] in Hw. apply andb_prop in Hw as [Hc _].
  apply negb_true_iff in Hc. rewrite append_cons in Hs. cbn in Hs. congruence.
Qed.

(** With [Symbol.toStringTag] set to [""], [getType] throws; the pattern of
    [mTypeof] does not match either, and [mTypeof] returns ["[object ]"]. *)
Lemma getType_throws_without_word_example :
  getType toLowerCase (VRef 0) tagged_heap = Fail TypeError /\
  mTypeof (VRef 0) tagged_heap = Return "[object ]".
Proof.
  split; [|reflexivity].
  exact (getType_throws_without_word toLowerCase (VRef 0) tagged_heap ""
           eq_refl eq_refl).
Defined.
